(** * mora: distributed lock (pkg/cache) and token authority (pkg/auth)

    A shallow embedding of the lock manager built on a Redis client and of
    the JWT helpers, with the properties of both proved over the embedding.

    Conventions.
    - [time.Duration] is an int64 count of nanoseconds, embedded as [Z].
    - An instant ([time.Time]) is embedded as its Unix time in nanoseconds.
    - Go's [(value, error)] returns are embedded as [result].
    - Everything outside the process (the Redis server, other clients, the
      network, the random source, the scheduler) is an explicit input. *)

From Stdlib Require Import ZArith Lia Bool Ascii String List.
From Stdlib Require Import Floats.SpecFloat.
From stdpp Require Import base option list strings gmap pretty.

Open Scope string_scope.
Open Scope Z_scope.

(** ** float64 *)

(** IEEE 754 binary64 through the Standard Library's executable
    specification: [float64(n)], [+], [/] and the conversion [int64(f)]. *)
Module float64.

Definition prec : Z := 53.
Definition emax : Z := 1024.

Definition of_int (z : Z) : spec_float := binary_normalize prec emax z 0 false.
Definition add : spec_float -> spec_float -> spec_float := SFadd prec emax.
Definition div : spec_float -> spec_float -> spec_float := SFdiv prec emax.

(** [int64(f)] discards the fraction (truncation toward zero).  For a value
    outside the int64 range Go leaves the result to the implementation;
    this is the amd64 one. *)
Definition to_int64 (f : spec_float) : Z :=
  match f with
  | S754_zero _ => 0
  | S754_finite s m e =>
      let mag := match e with
                 | Z0 => Zpos m
                 | Zpos _ => Zpos m * 2 ^ e
                 | Zneg p => Zpos m / 2 ^ (Zpos p)
                 end in
      let r := if s then - mag else mag in
      if (- 2 ^ 63 <=? r) && (r <? 2 ^ 63) then r else - 2 ^ 63
  | _ => - 2 ^ 63
  end.

End float64.

(** ** time *)

Module time.

Definition Nanosecond : Z := 1.
Definition Microsecond : Z := 1000 * Nanosecond.
Definition Millisecond : Z := 1000 * Microsecond.
Definition Second : Z := 1000 * Millisecond.
Definition Minute : Z := 60 * Second.
Definition Hour : Z := 60 * Minute.

Definition MinInt64 : Z := - 2 ^ 63.
Definition MaxInt64 : Z := 2 ^ 63 - 1.

(** Signed 64-bit wrap-around, for Go's [int] and [int64] arithmetic. *)
Definition wrap64 (z : Z) : Z := (z + 2 ^ 63) mod 2 ^ 64 - 2 ^ 63.

(** [Duration.Seconds]:
    [sec := d / Second; nsec := d % Second; return float64(sec) + float64(nsec)/1e9]. *)
Definition Seconds (d : Z) : spec_float :=
  let sec := Z.quot d Second in
  let nsec := Z.rem d Second in
  float64.add (float64.of_int sec)
              (float64.div (float64.of_int nsec) (float64.of_int 1000000000)).

End time.

(** ** errors *)

(** Go error values.  The sentinels are distinct constructors (in Go they
    are distinct pointers); [Errorf msg e] is [fmt.Errorf(msg + ": %w", e)],
    an error that wraps [e]. *)
Inductive error : Type :=
  | ErrLockNotAcquired
  | ErrLockNotOwned
  | DeadlineExceeded                      (* context.DeadlineExceeded *)
  | Canceled                              (* context.Canceled *)
  | RedisNil                              (* redis.Nil: the key does not exist *)
  | RedisError (msg : string)             (* any other error of the client *)
  | Errorf (msg : string) (wrapped : error).

Global Instance error_eq_dec : EqDecision error.
Proof. solve_decision. Defined.

(** [errors.Is]: walk the chain of wrapped errors. *)
Fixpoint errors_Is (err target : error) : bool :=
  bool_decide (err = target) ||
  match err with
  | Errorf _ inner => errors_Is inner target
  | _ => false
  end.

(** The innermost error of a wrap chain. *)
Fixpoint root_cause (err : error) : error :=
  match err with
  | Errorf _ inner => root_cause inner
  | _ => err
  end.

(** A Go [(value, error)] return: the value when the error is nil. *)
Inductive res (E A : Type) : Type :=
  | Ok (a : A)
  | Err (e : E).
Arguments Ok {E A} a.
Arguments Err {E A} e.

Abbreviation result := (res error).

Definition is_Ok {E A} (r : res E A) : bool :=
  match r with Ok _ => true | Err _ => false end.

(** ** The Redis collaborator *)

(** The server and its client library are not part of the repository.  This
    is what the lock relies on, as go-redis v9 and the server provide it: an
    atomic set-if-absent with expiry, scripts that run atomically, and keys
    that vanish when their expiry is reached. *)
Module redis.

(** A stored string value with its optional absolute expiry instant. *)
Record Entry : Type := mkEntry { value : string; expireAt : option Z }.

Global Instance Entry_eq_dec : EqDecision Entry.
Proof. solve_decision. Defined.

Abbreviation DB := (gmap string Entry).

(** The two Lua scripts of the lock, identified by their role. *)
Inductive Script : Type := UnlockScript | ExtendScript.

(** Commands as they arrive at the server. *)
Inductive Command : Type :=
  | SETNX (key val : string) (ttl : Z)
  | EVAL (script : Script) (key : string) (argv1 : string) (argv2 : option Z)
  | GET (key : string).

(** What a failed round trip looks like from the client: why it failed,
    and whether the server executed the command before the reply was lost. *)
Inductive FaultKind : Type :=
  | NetFailure (msg : string)             (* connection, protocol, server error *)
  | CtxCanceled                           (* the call's context was canceled *)
  | CtxDeadline.                          (* the call's context timed out *)

Record Fault : Type := mkFault { f_kind : FaultKind; f_applied : bool }.

(** Faults surface as the context's error or as a client error, never as
    one of the lock package's own sentinels. *)
Definition fault_error (f : Fault) : error :=
  match f_kind f with
  | NetFailure msg => RedisError msg
  | CtxCanceled => Canceled
  | CtxDeadline => DeadlineExceeded
  end.

Definition live (t : Z) (e : Entry) : bool :=
  match expireAt e with
  | None => true
  | Some d => t <? d
  end.

(** The server's view of a key at instant [t]: expired records are gone. *)
Definition get (t : Z) (db : DB) (key : string) : option string :=
  match db !! key with
  | Some e => if live t e then Some (value e) else None
  | None => None
  end.

Definition KeepTTL : Z := -1.

(** The expiry go-redis sends for a positive lease: PX with millisecond
    precision (at least one millisecond), or EX for whole seconds. *)
Definition sent_ttl (ttl : Z) : Z :=
  if ttl <? time.Millisecond then time.Millisecond
  else (ttl / time.Millisecond) * time.Millisecond.

(** [SetNX key value ttl] at the server: rejects a non-positive expiry other
    than the two special encodings, and writes only when the key is absent. *)
Definition setnx (t : Z) (db : DB) (key val : string) (ttl : Z) : result bool * DB :=
  if (ttl <? 0) && negb (ttl =? KeepTTL)
  then (Err (RedisError "ERR invalid expire time in 'set' command"), db)
  else
    match get t db key with
    | Some _ => (Ok false, db)
    | None =>
        let exp := if (ttl =? 0) || (ttl =? KeepTTL) then None
                   else Some (t + sent_ttl ttl) in
        (Ok true, <[key := mkEntry val exp]> db)
    end.

(** [EXPIRE key secs] on an existing key; a non-positive [secs] leaves a
    record that is already past its expiry, which is how the server deletes. *)
Definition expire (t : Z) (db : DB) (key : string) (secs : Z) : Z * DB :=
  match db !! key with
  | Some e =>
      if live t e
      then (1, <[key := mkEntry (value e) (Some (t + secs * time.Second))]> db)
      else (0, db)
  | None => (0, db)
  end.

Definition del (t : Z) (db : DB) (key : string) : Z * DB :=
  match get t db key with
  | Some _ => (1, delete key db)
  | None => (0, db)
  end.

(** The scripts, statement by statement:
    [if redis.call("get", KEYS[1]) == ARGV[1] then return redis.call(op, ...) else return 0 end]. *)
Definition eval (t : Z) (db : DB) (s : Script) (key argv1 : string) (argv2 : option Z)
  : Z * DB :=
  if bool_decide (get t db key = Some argv1) then
    match s with
    | UnlockScript => del t db key
    | ExtendScript => expire t db key (default 0 argv2)
    end
  else (0, db).

End redis.

(** ** context *)

Module context.

(** A context as the lock code observes it: the instant at which its [Done]
    channel closes (if ever), and whether that is a cancellation or a
    deadline. *)
Record Context : Type := mkContext { doneAt : option Z; canceled : bool }.

Definition Background : Context := mkContext None false.

(** [ctx.Err()] once the context is done. *)
Definition cause (c : Context) : error :=
  if canceled c then Canceled else DeadlineExceeded.

Definition Done (c : Context) (t : Z) : bool :=
  match doneAt c with
  | Some d => d <=? t
  | None => false
  end.

(** [context.WithTimeout(parent, timeout)] created at instant [t]: the child
    ends at its own deadline unless the parent ends strictly earlier. *)
Definition WithTimeout (parent : Context) (t : Z) (timeout : Z) : Context :=
  let d := t + timeout in
  match doneAt parent with
  | Some p => if p <? d then parent else mkContext (Some d) false
  | None => mkContext (Some d) false
  end.

End context.

(** ** encoding/hex *)

Module hex.

Definition digit (n : N) : ascii :=
  match n with
  | 0 => "0" | 1 => "1" | 2 => "2" | 3 => "3" | 4 => "4" | 5 => "5"
  | 6 => "6" | 7 => "7" | 8 => "8" | 9 => "9" | 10 => "a" | 11 => "b"
  | 12 => "c" | 13 => "d" | 14 => "e" | _ => "f"
  end%N%char.

Fixpoint EncodeToString (bs : list Byte.byte) : string :=
  match bs with
  | [] => ""
  | b :: rest =>
      let n := Byte.to_N b in
      String (digit (n / 16)) (String (digit (n mod 16)) (EncodeToString rest))
  end.

End hex.

(** ** pkg/cache: the distributed lock *)

Module cache.

Import redis context.

Definition DefaultLockTTL : Z := 30 * time.Second.
Definition DefaultRetryDelay : Z := 100 * time.Millisecond.
Definition DefaultMaxRetries : Z := 10.
Definition DefaultLockTimeout : Z := 5 * time.Second.

(** What the process and the server have done so far. *)
Inductive Event : Type :=
  | Sent (at_ : Z) (cmd : Command)          (* a command left for the server *)
  | Waited (from until : Z).                (* the goroutine blocked in a select *)

(** The world a client runs in: the server's database, the wall clock,
    the history of commands and waits, and what the process has handed to
    its logger. *)
Record World : Type := mkWorld {
  db : DB;
  now : Z;
  trace : list Event;
  logged : list error
}.

Definition interfere (f : DB -> DB) (w : World) : World :=
  mkWorld (f (db w)) (now w) (trace w) (logged w).

Definition block_until (t : Z) (w : World) : World :=
  mkWorld (db w) t (trace w ++ [Waited (now w) t])%list (logged w).

(** The environment's part in one round trip to the server. *)
Record Call : Type := mkCall { fault : option Fault; latency : Z }.

Definition answered : Call := mkCall None 0.

(** One command through the client ([c.rdb.X(ctx, ...).Result()]).  A
    context that is already done fails the call before anything is sent;
    otherwise the command is sent, the server runs it atomically unless the
    fault says it never arrived, and the reply comes back unless lost.

    This is one sending.  The client as [New] builds it sends a command
    again after a network error (go-redis: up to three more times by
    default); [call] then describes the last sending of the call, and what
    an earlier sending did at the server belongs to the world [w] that this
    one starts from. *)
Definition roundtrip {A : Type} (ctx : Context) (call : Call) (cmd : Command)
    (exec : Z -> DB -> result A * DB) (w : World) : result A * World :=
  if Done ctx (now w) then (Err (cause ctx), w)
  else
    let t' := now w + Z.max 0 (latency call) in
    let tr := (trace w ++ [Sent (now w) cmd])%list in
    match fault call with
    | None =>
        let '(r, db') := exec (now w) (db w) in
        (r, mkWorld db' t' tr (logged w))
    | Some f =>
        let db' := if f_applied f then snd (exec (now w) (db w)) else db w in
        (Err (fault_error f), mkWorld db' t' tr (logged w))
    end.

Definition rdb_SetNX (ctx : Context) (call : Call) (key val : string) (ttl : Z)
  : World -> result bool * World :=
  roundtrip ctx call (SETNX key val ttl) (fun t d => setnx t d key val ttl).

Definition rdb_Eval (ctx : Context) (call : Call) (s : Script) (key argv1 : string)
    (argv2 : option Z) : World -> result Z * World :=
  roundtrip ctx call (EVAL s key argv1 argv2)
    (fun t d => let '(n, d') := eval t d s key argv1 argv2 in (Ok n, d')).

(** [Get] reports a missing key as the error [redis.Nil]. *)
Definition rdb_Get (ctx : Context) (call : Call) (key : string)
  : World -> result string * World :=
  roundtrip ctx call (GET key)
    (fun t d => match get t d key with
                | Some v => (Ok v, d)
                | None => (Err RedisNil, d)
                end).

(** DistributedLock; the [client] field is the connection, here the world
    every operation is applied to. *)
Record DistributedLock : Type := mkLock { key : string; value : string; ttl : Z }.

Global Instance DistributedLock_eq_dec : EqDecision DistributedLock.
Proof. solve_decision. Defined.

Record LockOptions : Type := mkOptions {
  TTL : Z;
  RetryDelay : Z;
  MaxRetries : Z;
  LockTimeout : Z
}.

Definition DefaultLockOptions : LockOptions :=
  mkOptions DefaultLockTTL DefaultRetryDelay DefaultMaxRetries DefaultLockTimeout.

(** [generateLockValue]: sixteen random bytes in hex, or, when the random
    source fails ([None]), a value derived from the clock. *)
Definition generateLockValue (rand : option (list Byte.byte)) (t : Z) : string :=
  match rand with
  | None => "lock_" +:+ pretty t
  | Some bs => hex.EncodeToString (take 16 (bs ++ replicate 16 Byte.x00)%list)
  end.

(** TryLock attempts to acquire a distributed lock without retries. *)
Definition TryLock (ctx : Context) (rand : option (list Byte.byte)) (call : Call)
    (key : string) (ttl : Z) (w : World) : result DistributedLock * World :=
  let value := generateLockValue rand (now w) in
  let '(r, w') := rdb_SetNX ctx call key value ttl w in
  match r with
  | Err err => (Err (Errorf "failed to acquire lock" err), w')
  | Ok false => (Err ErrLockNotAcquired, w')
  | Ok true => (Ok (mkLock key value ttl), w')
  end.

(** Unlock releases the distributed lock. *)
Definition Unlock (ctx : Context) (call : Call) (lock : DistributedLock) (w : World)
  : option error * World :=
  let '(r, w') := rdb_Eval ctx call UnlockScript (key lock) (value lock) None w in
  match r with
  | Err err => (Some (Errorf "failed to release lock" err), w')
  | Ok n => if n =? 0 then (Some ErrLockNotOwned, w') else (None, w')
  end.

(** Extend extends the lock's TTL; on success the handle records the new
    lease. *)
Definition Extend (ctx : Context) (call : Call) (lock : DistributedLock) (ttl : Z)
    (w : World) : option error * DistributedLock * World :=
  let '(r, w') :=
    rdb_Eval ctx call ExtendScript (key lock) (value lock)
      (Some (float64.to_int64 (time.Seconds ttl))) w in
  match r with
  | Err err => (Some (Errorf "failed to extend lock" err), lock, w')
  | Ok n =>
      if n =? 0 then (Some ErrLockNotOwned, lock, w')
      else (None, mkLock (key lock) (value lock) ttl, w')
  end.

(** IsLocked checks if the lock is still held by this process. *)
Definition IsLocked (ctx : Context) (call : Call) (lock : DistributedLock) (w : World)
  : result bool * World :=
  let '(r, w') := rdb_Get ctx call (key lock) w in
  match r with
  | Err err =>
      if errors_Is err RedisNil then (Ok false, w') else (Err err, w')
  | Ok v => (Ok (String.eqb v (value lock)), w')
  end.

(** The environment's part in one iteration of [Lock]'s loop: what the
    other clients did to the database since the last look, the random
    bytes and the round trip of the attempt, and which case the runtime
    picks when the timer and the context are ready at the same instant. *)
Record Attempt : Type := mkAttempt {
  a_others : DB -> DB;
  a_rand : option (list Byte.byte);
  a_call : Call;
  a_timer_first : bool
}.

Inductive Woken : Type := ByDone | ByTimer.

(** [select { case <-lockCtx.Done(): ... case <-time.After(delay): }] entered
    at instant [t]: which case runs, and when. *)
Definition select_wait (lockCtx : Context) (t delay : Z) (timer_first : bool)
  : Woken * Z :=
  let timer := t + Z.max 0 delay in
  match doneAt lockCtx with
  | None => (ByTimer, timer)
  | Some d =>
      let d' := Z.max t d in
      if d' <? timer then (ByDone, d')
      else if timer <? d' then (ByTimer, timer)
      else (if timer_first then ByTimer else ByDone, timer)
  end.

(** The [for] loop of [Lock].  [retries] is a Go [int]; [i] numbers the
    iterations for the environment.  [None] means the fuel ran out. *)
Fixpoint Lock_loop (fuel : nat) (lockCtx : Context) (env : nat -> Attempt)
    (key : string) (options : LockOptions)
    (i : nat) (lastErr : option error) (retries : Z) (w : World)
  : option (result DistributedLock * World) :=
  match fuel with
  | O => None
  | S fuel' =>
      if Done lockCtx (now w) then
        match lastErr with
        | Some e => Some (Err (Errorf "lock acquisition timeout" e), w)
        | None => Some (Err (Errorf "lock acquisition timeout" (cause lockCtx)), w)
        end
      else
        let '(r, w1) :=
          TryLock lockCtx (a_rand (env i)) (a_call (env i)) key (TTL options)
            (interfere (a_others (env i)) w) in
        match r with
        | Ok lock => Some (Ok lock, w1)
        | Err err =>
            if negb (errors_Is err ErrLockNotAcquired) then Some (Err err, w1)
            else
              let lastErr := Some err in
              let retries := time.wrap64 (retries + 1) in
              if retries >? MaxRetries options
              then Some (Err (Errorf "max retries exceeded" ErrLockNotAcquired), w1)
              else
                match select_wait lockCtx (now w1) (RetryDelay options)
                        (a_timer_first (env i)) with
                | (ByDone, t) =>
                    Some (Err (Errorf "lock acquisition timeout during retry"
                                 (cause lockCtx)), block_until t w1)
                | (ByTimer, t) =>
                    Lock_loop fuel' lockCtx env key options (S i) lastErr retries
                      (block_until t w1)
                end
        end
  end.

(** Iterations that can be needed before the retry counter passes
    [MaxRetries]. *)
Definition Lock_fuel (options : LockOptions) : nat :=
  S (Z.to_nat (MaxRetries options)).

(** The variadic [opts ...LockOptions]: the first one given, or the
    defaults. *)
Definition options_of (opts : list LockOptions) : LockOptions :=
  match opts with
  | o :: _ => o
  | [] => DefaultLockOptions
  end.

(** Lock acquires a distributed lock with retry logic. *)
Definition Lock (ctx : Context) (env : nat -> Attempt) (key : string)
    (opts : list LockOptions) (w : World)
  : option (result DistributedLock * World) :=
  let options := options_of opts in
  let lockCtx := WithTimeout ctx (now w) (LockTimeout options) in
  Lock_loop (Lock_fuel options) lockCtx env key options 0 None 0 w.

(** How a critical section ends: it returns its error value, or it panics. *)
Inductive Outcome : Type :=
  | Returns (err : option error)
  | Panics (v : string).

(** WithLock executes a function while holding a distributed lock.  The
    deferred closure runs however [fn] ends; the branch that receives the
    unlock error is empty. *)
Definition WithLock (ctx : Context) (env : nat -> Attempt) (unlock_call : Call)
    (key : string) (fn : World -> Outcome * World) (opts : list LockOptions)
    (w : World) : option (Outcome * World) :=
  match Lock ctx env key opts w with
  | None => None
  | Some (Err err, w1) => Some (Returns (Some err), w1)
  | Some (Ok lock, w1) =>
      let '(out, w2) := fn w1 in
      let '(unlockErr, w3) := Unlock ctx unlock_call lock w2 in
      let w4 := match unlockErr with
                | Some _ => w3
                | None => w3
                end in
      Some (out, w4)
  end.

End cache.

(** ** unicode/utf8 and the strings of encoding/json *)

(** A Go string is a byte string.  A token carries its claims as JSON, and
    JSON text is UTF-8: [json.Marshal] writes a string byte for byte where
    the bytes are valid encodings ([utf8.DecodeRuneInString]), and writes
    the replacement character U+FFFD for every byte that begins none;
    [json.Unmarshal] reads that text back. *)
Module utf8.

Definition byte (c : ascii) : N := N_of_ascii c.

Definition between (lo hi : N) (c : ascii) : bool :=
  ((lo <=? byte c) && (byte c <=? hi))%N.

(** A byte below [RuneSelf] is its own encoding. *)
Definition single (b0 : ascii) : bool := (byte b0 <? 128)%N.

(** A continuation byte. *)
Definition cont : ascii -> bool := between 128 191.

(** The first byte of a two-byte encoding (C0 and C1 would be overlong). *)
Definition lead2 : ascii -> bool := between 194 223.

(** The first two bytes of a three-byte encoding: nothing overlong (after
    E0 only A0..BF) and no surrogate (after ED only 80..9F). *)
Definition lead3 (b0 b1 : ascii) : bool :=
  (between 224 224 b0 && between 160 191 b1) ||
  (between 225 236 b0 && cont b1) ||
  (between 237 237 b0 && between 128 159 b1) ||
  (between 238 239 b0 && cont b1).

(** The first two bytes of a four-byte encoding: nothing overlong (after
    F0 only 90..BF) and nothing above U+10FFFF (after F4 only 80..8F). *)
Definition lead4 (b0 b1 : ascii) : bool :=
  (between 240 240 b0 && between 144 191 b1) ||
  (between 241 243 b0 && cont b1) ||
  (between 244 244 b0 && between 128 143 b1).

(** [utf8.ValidString]. *)
Fixpoint ValidString (s : string) : bool :=
  match s with
  | "" => true
  | String b0 r0 =>
      if single b0 then ValidString r0
      else
        match r0 with
        | "" => false
        | String b1 r1 =>
            if lead2 b0 && cont b1 then ValidString r1
            else
              match r1 with
              | "" => false
              | String b2 r2 =>
                  if lead3 b0 b1 && cont b2 then ValidString r2
                  else
                    match r2 with
                    | "" => false
                    | String b3 r3 =>
                        lead4 b0 b1 && cont b2 && cont b3 && ValidString r3
                    end
              end
        end
  end.

(** The encoding of U+FFFD: EF BF BD. *)
Definition RuneError (rest : string) : string :=
  String (ascii_of_N 239) (String (ascii_of_N 191) (String (ascii_of_N 189) rest)).

End utf8.

Module json.

Import utf8.

(** The string [json.Unmarshal] reads back from what [json.Marshal] wrote
    for [s]: the valid encodings of [s] as they are, and U+FFFD in place of
    every other byte. *)
Fixpoint reread (s : string) : string :=
  match s with
  | "" => ""
  | String b0 r0 =>
      if single b0 then String b0 (reread r0)
      else
        match r0 with
        | "" => RuneError (reread r0)
        | String b1 r1 =>
            if lead2 b0 && cont b1 then String b0 (String b1 (reread r1))
            else
              match r1 with
              | "" => RuneError (reread r0)
              | String b2 r2 =>
                  if lead3 b0 b1 && cont b2
                  then String b0 (String b1 (String b2 (reread r2)))
                  else
                    match r2 with
                    | "" => RuneError (reread r0)
                    | String b3 r3 =>
                        if lead4 b0 b1 && cont b2 && cont b3
                        then String b0 (String b1 (String b2 (String b3 (reread r3))))
                        else RuneError (reread r0)
                    end
              end
        end
  end.

End json.

(** ** github.com/golang-jwt/jwt/v5, as far as pkg/auth uses it *)

(** The library is not part of the repository.  This is the behaviour of
    its parser, validator and HMAC signing method that pkg/auth calls.  The
    keyed hash itself and the base64url text of a token are left abstract;
    what the JSON of the claims keeps of them is not. *)
Module jwt.

Inductive Hash : Type := SHA256 | SHA384 | SHA512.

Inductive SigningMethod : Type :=
  | SigningMethodHMAC (h : Hash)
  | SigningMethodRSA (h : Hash)
  | SigningMethodRSAPSS (h : Hash)
  | SigningMethodECDSA (h : Hash)
  | SigningMethodEd25519
  | SigningMethodNone.

Definition SigningMethodHS256 : SigningMethod := SigningMethodHMAC SHA256.

Definition Alg (m : SigningMethod) : string :=
  match m with
  | SigningMethodHMAC SHA256 => "HS256"
  | SigningMethodHMAC SHA384 => "HS384"
  | SigningMethodHMAC SHA512 => "HS512"
  | SigningMethodRSA SHA256 => "RS256"
  | SigningMethodRSA SHA384 => "RS384"
  | SigningMethodRSA SHA512 => "RS512"
  | SigningMethodRSAPSS SHA256 => "PS256"
  | SigningMethodRSAPSS SHA384 => "PS384"
  | SigningMethodRSAPSS SHA512 => "PS512"
  | SigningMethodECDSA SHA256 => "ES256"
  | SigningMethodECDSA SHA384 => "ES384"
  | SigningMethodECDSA SHA512 => "ES512"
  | SigningMethodEd25519 => "EdDSA"
  | SigningMethodNone => "none"
  end.

Definition registered_methods : list SigningMethod :=
  (SigningMethodNone :: SigningMethodEd25519 ::
   flat_map (fun h => [SigningMethodHMAC h; SigningMethodRSA h;
                       SigningMethodRSAPSS h; SigningMethodECDSA h])
            [SHA256; SHA384; SHA512])%list.

(** [GetSigningMethod]: the method registered under the header's [alg]. *)
Definition GetSigningMethod (alg : string) : option SigningMethod :=
  List.find (fun m => String.eqb (Alg m) alg) registered_methods.

(** The type assertion of [token.Method] to the HMAC signing method. *)
Definition is_HMAC (m : SigningMethod) : bool :=
  match m with SigningMethodHMAC _ => true | _ => false end.

(** [NewNumericDate] truncates to [TimePrecision], one second.  Whole
    seconds since the zero time are whole seconds since the Unix epoch. *)
Definition NewNumericDate (t : Z) : Z := t - t mod time.Second.

Record RegisteredClaims : Type := mkRegistered {
  Issuer : string;
  Subject : string;
  Audience : list string;
  ExpiresAt : option Z;
  NotBefore : option Z;
  IssuedAt : option Z;
  ID : string
}.

(** A [NumericDate] is written as its number of seconds, truncated to
    [TimePrecision], and read back from that number.  (The number passes
    through a float64, which is exact for every instant less than 2^53
    seconds from the epoch.) *)
Definition reread_date (t : Z) : Z := NewNumericDate t.

(** The registered claims [json.Unmarshal] reads back from what
    [json.Marshal] wrote for [r]; empty fields are left out of the text
    and read back empty. *)
Definition reread_registered (r : RegisteredClaims) : RegisteredClaims :=
  mkRegistered (json.reread (Issuer r)) (json.reread (Subject r))
    (map json.reread (Audience r))
    (reread_date <$> ExpiresAt r) (reread_date <$> NotBefore r)
    (reread_date <$> IssuedAt r) (json.reread (ID r)).

(** The [jwt.Claims] interface, by the getters the validator calls, and
    the JSON of the type behind it: the claims that are read back from the
    text written for them. *)
Class Claims (C : Type) : Type := {
  GetExpirationTime : C -> option Z;
  GetNotBefore : C -> option Z;
  GetIssuedAt : C -> option Z;
  Reread : C -> C
}.

Global Instance RegisteredClaims_Claims : Claims RegisteredClaims :=
  {| GetExpirationTime := ExpiresAt;
     GetNotBefore := NotBefore;
     GetIssuedAt := IssuedAt;
     Reread := reread_registered |}.

(** The library's sentinel errors.  A returned error joins several of
    them; it is embedded as the list of sentinels [errors.Is] finds in it,
    the empty list being [nil]. *)
Inductive Sentinel : Type :=
  | ErrTokenMalformed
  | ErrTokenUnverifiable
  | ErrTokenSignatureInvalid
  | ErrTokenInvalidClaims
  | ErrTokenExpired
  | ErrTokenNotValidYet
  | ErrInvalidKeyType.

Global Instance Sentinel_eq_dec : EqDecision Sentinel.
Proof. solve_decision. Defined.

Definition errors_Is (err : list Sentinel) (target : Sentinel) : bool :=
  bool_decide (target ∈ err).

(** Keys are [interface{}] values; HMAC accepts only [[]byte]. *)
Inductive Key : Type :=
  | KeyBytes (k : string)
  | KeyOther.

Record Header : Type := mkHeader { alg : option string; typ : string }.

(** A token string, by what the parser can recover from it: nothing (the
    empty string), no three decodable segments, or the text that was
    signed together with the decoded header, the decoded claims and the
    signature bytes ([None] when the third segment is not base64url). *)
Record Segments (C : Type) : Type := mkSegments {
  signingString : string;
  header : Header;
  payload : C;
  signature : option string
}.
Arguments mkSegments {C}.
Arguments signingString {C}.
Arguments header {C}.
Arguments payload {C}.
Arguments signature {C}.

Inductive TokenString (C : Type) : Type :=
  | EmptyString
  | Unparsable
  | Compact (p : Segments C).
Arguments EmptyString {C}.
Arguments Unparsable {C}.
Arguments Compact {C}.

Record Token (C : Type) : Type := mkToken {
  Method : option SigningMethod;
  TokenHeader : Header;
  TokenClaims : C;
  Valid : bool
}.
Arguments mkToken {C}.
Arguments Method {C}.
Arguments TokenHeader {C}.
Arguments TokenClaims {C}.
Arguments Valid {C}.

Section Parser.

Context {C : Type} `{Claims C}.

(** The two functions the model does not compute: the keyed hash, and the
    text of the first two segments for a header and claims. *)
Variable hmac : Hash -> string -> string -> string.
Variable encode : Header -> C -> string.

Definition NewWithClaims (method : SigningMethod) (claims : C) : Token C :=
  mkToken (Some method) (mkHeader (Some (Alg method)) "JWT") claims false.

Definition Sign (m : SigningMethod) (signingString : string) (key : Key)
  : res Sentinel string :=
  match m, key with
  | SigningMethodHMAC h, KeyBytes k => Ok (hmac h k signingString)
  | _, _ => Err ErrInvalidKeyType
  end.

Definition Verify (m : SigningMethod) (signingString sig : string) (key : Key)
  : bool :=
  match m, key with
  | SigningMethodHMAC h, KeyBytes k => String.eqb sig (hmac h k signingString)
  | _, _ => false
  end.

(** [Token.SignedString]: the header and the claims are marshalled to
    JSON, the text is signed, and the three segments are joined.  A parser
    reads from the second segment the claims as their JSON keeps them. *)
Definition SignedString (t : Token C) (key : Key) : res Sentinel (TokenString C) :=
  let sstr := encode (TokenHeader t) (TokenClaims t) in
  match Method t with
  | None => Err ErrInvalidKeyType
  | Some m =>
      match Sign m sstr key with
      | Err e => Err e
      | Ok sig =>
          Ok (Compact (mkSegments sstr (TokenHeader t) (Reread (TokenClaims t))
                         (Some sig)))
      end
  end.

(** [Validator.Validate] with the default options: [exp] and [nbf] are
    checked when present, against the clock reading [now]. *)
Definition Validate (now : Z) (claims : C) : list Sentinel :=
  (match GetExpirationTime claims with
   | Some exp => if now <? exp then [] else [ErrTokenExpired]
   | None => []
   end ++
   match GetNotBefore claims with
   | Some nbf => if now <? nbf then [ErrTokenNotValidYet] else []
   | None => []
   end)%list.

(** [Parser.ParseWithClaims]: parse, find the method, decode the
    signature, ask the key function, check the signature, validate the
    claims. *)
Definition ParseWithClaims (now : Z) (tokenString : TokenString C)
    (keyFunc : Token C -> option Key) : option (Token C) * list Sentinel :=
  match tokenString with
  | EmptyString | Unparsable => (None, [ErrTokenMalformed])
  | Compact p =>
      match alg (header p) with
      | None => (None, [ErrTokenUnverifiable])
      | Some a =>
          match GetSigningMethod a with
          | None => (None, [ErrTokenUnverifiable])
          | Some m =>
              let token := mkToken (Some m) (header p) (payload p) false in
              match signature p with
              | None => (Some token, [ErrTokenMalformed])
              | Some sig =>
                  match keyFunc token with
                  | None => (Some token, [ErrTokenUnverifiable])
                  | Some key =>
                      if Verify m (signingString p) sig key then
                        match Validate now (payload p) with
                        | [] => (Some (mkToken (Some m) (header p) (payload p) true), [])
                        | errs => (Some token, ErrTokenInvalidClaims :: errs)
                        end
                      else (Some token, [ErrTokenSignatureInvalid])
                  end
              end
          end
      end
  end.

End Parser.

End jwt.

(** ** pkg/auth *)

Module auth.

Import jwt.

Inductive AuthError : Type :=
  | ErrInvalidToken
  | ErrExpiredToken
  | ErrMalformedToken.

Global Instance AuthError_eq_dec : EqDecision AuthError.
Proof. solve_decision. Defined.

(** Claims represents the JWT claims structure. *)
Record Claims : Type := mkClaims {
  UserID : string;
  Username : string;
  Registered : RegisteredClaims
}.

(** The claims read back from their JSON ([user_id], [username] and the
    registered fields). *)
Definition reread (c : Claims) : Claims :=
  mkClaims (json.reread (UserID c)) (json.reread (Username c))
    (reread_registered (Registered c)).

Global Instance Claims_jwt : jwt.Claims Claims :=
  {| GetExpirationTime := fun c => ExpiresAt (Registered c);
     GetNotBefore := fun c => NotBefore (Registered c);
     GetIssuedAt := fun c => IssuedAt (Registered c);
     Reread := reread |}.

(** NewClaims creates a new Claims with standard fields; [now] is the
    reading of [time.Now()]. *)
Definition NewClaims (now : Z) (userID username : string) (ttl : Z) : Claims :=
  mkClaims userID username
    (mkRegistered "" userID []
       (Some (NewNumericDate (now + ttl))) None (Some (NewNumericDate now)) "").

(** IsExpired checks if the token has expired. *)
Definition IsExpired (now : Z) (c : Claims) : bool :=
  match ExpiresAt (Registered c) with
  | None => false
  | Some exp => exp <? now
  end.

Section Tokens.

Variable hmac : Hash -> string -> string -> string.
Variable encode : Header -> Claims -> string.

(** GenerateToken generates a new JWT token with the given user
    information. *)
Definition GenerateToken (now : Z) (userID username secret : string) (ttl : Z)
  : res Sentinel (TokenString Claims) :=
  let claims := NewClaims now userID username ttl in
  let token := NewWithClaims SigningMethodHS256 claims in
  SignedString hmac encode token (KeyBytes secret).

(** The key function [ValidateToken] hands to the parser. *)
Definition keyFunc (secret : string) (token : Token Claims) : option Key :=
  match Method token with
  | Some m => if is_HMAC m then Some (KeyBytes secret) else None
  | None => None
  end.

(** ValidateToken validates a JWT token and returns the claims.  The
    clock is read twice: by the parser's validator ([tParse]) and then
    by [IsExpired] ([tCheck]). *)
Definition ValidateToken (tParse tCheck : Z) (tokenString : TokenString Claims)
    (secret : string) : res AuthError Claims :=
  match tokenString with
  | EmptyString => Err ErrInvalidToken
  | _ =>
      let '(token, err) := ParseWithClaims hmac tParse tokenString (keyFunc secret) in
      match err with
      | _ :: _ =>
          if errors_Is err ErrTokenExpired then Err ErrExpiredToken
          else if errors_Is err ErrTokenMalformed then Err ErrMalformedToken
          else Err ErrInvalidToken
      | [] =>
          match token with
          | None => Err ErrInvalidToken
          | Some tok =>
              if negb (Valid tok) then Err ErrInvalidToken
              else if IsExpired tCheck (TokenClaims tok) then Err ErrExpiredToken
              else Ok (TokenClaims tok)
          end
      end
  end.

(** The token string has its three segments, names an HMAC method, and
    its signature is the keyed hash of the signed text under [secret]. *)
Definition signature_verifies (secret : string) (tokenString : TokenString Claims)
  : bool :=
  match tokenString with
  | Compact p =>
      match alg (header p), signature p with
      | Some a, Some sig =>
          match GetSigningMethod a with
          | Some (SigningMethodHMAC h) =>
              String.eqb sig (hmac h secret (signingString p))
          | _ => false
          end
      | _, _ => false
      end
  | _ => false
  end.

End Tokens.

(** The not-before time of the claims, if any, has been reached. *)
Definition nbf_reached (now : Z) (c : Claims) : bool :=
  match NotBefore (Registered c) with
  | Some nbf => nbf <=? now
  | None => true
  end.

End auth.

(** ** The lock as a state machine *)

Module lockspec.

Import redis context cache.

(** The state of one named resource, as the specification draws it. *)
Inductive LockState : Type :=
  | UNLOCKED
  | LOCKED (ownerToken : string).

(** The state of [key] that the server shows at the world's instant. *)
Definition observe (w : World) (key : string) : LockState :=
  match get (now w) (db w) key with
  | None => UNLOCKED
  | Some v => LOCKED v
  end.

(** What a client, or time, can do to the world. *)
Inductive Op : Type :=
  | DoTryLock (ctx : Context) (rand : option (list Byte.byte)) (call : Call)
      (key : string) (ttl : Z)
  | DoUnlock (ctx : Context) (call : Call) (lock : DistributedLock)
  | DoExtend (ctx : Context) (call : Call) (lock : DistributedLock) (ttl : Z)
  | DoIsLocked (ctx : Context) (call : Call) (lock : DistributedLock)
  | Elapse (dt : Z).

Definition run (op : Op) (w : World) : World :=
  match op with
  | DoTryLock ctx rand call key ttl => snd (TryLock ctx rand call key ttl w)
  | DoUnlock ctx call lock => snd (Unlock ctx call lock w)
  | DoExtend ctx call lock ttl => snd (Extend ctx call lock ttl w)
  | DoIsLocked ctx call lock => snd (IsLocked ctx call lock w)
  | Elapse dt => mkWorld (db w) (now w + Z.max 0 dt) (trace w) (logged w)
  end.

(** A batch of [TryLock] calls on one key, in the order the server
    receives them. *)
Record Request : Type := mkRequest {
  q_ctx : Context;
  q_rand : option (list Byte.byte);
  q_call : Call;
  q_ttl : Z
}.

Fixpoint TryLock_each (key : string) (reqs : list Request) (w : World)
  : list (result DistributedLock) * World :=
  match reqs with
  | [] => ([], w)
  | q :: rest =>
      let '(r, w1) := TryLock (q_ctx q) (q_rand q) (q_call q) key (q_ttl q) w in
      let '(rs, w2) := TryLock_each key rest w1 in
      (r :: rs, w2)
  end.

(** The time the batch takes. *)
Definition span (reqs : list Request) : Z :=
  fold_right (fun q acc => Z.max 0 (latency (q_call q)) + acc) 0 reqs.

Definition successes {A : Type} (rs : list (result A)) : nat :=
  length (List.filter is_Ok rs).

(** The server answers the request: the caller's context never ends, the
    round trip does not fail, and the expiry is one the server accepts. *)
Definition answers (q : Request) : Prop :=
  doneAt (q_ctx q) = None /\ fault (q_call q) = None /\
  (0 <= q_ttl q \/ q_ttl q = KeepTTL).

(** Every lease asked for in the batch outlasts the batch. *)
Definition leases_outlast (reqs : list Request) : Prop :=
  Forall (fun q => 0 < q_ttl q -> span reqs < sent_ttl (q_ttl q)) reqs.

(** The record at [key] stays live up to and including instant [t]. *)
Definition reserved (w : World) (key : string) (t : Z) : Prop :=
  exists e, db w !! key = Some e /\
            match expireAt e with None => True | Some d => t < d end.

(** Reading a history: the attempts are the SETNX commands, the sleeps
    are the blocking selects. *)
Definition is_attempt (ev : Event) : bool :=
  match ev with
  | Sent _ (SETNX _ _ _) => true
  | _ => false
  end.

Definition is_wait (ev : Event) : bool :=
  match ev with
  | Waited _ _ => true
  | _ => false
  end.

Definition attempts (tr : list Event) : nat := length (List.filter is_attempt tr).
Definition waits (tr : list Event) : nat := length (List.filter is_wait tr).

(** The three failures of [Lock] that are not passed on from [TryLock]. *)
Definition timeout_before_attempt (cause : error) : error :=
  Errorf "lock acquisition timeout" cause.
Definition timeout_during_retry (cause : error) : error :=
  Errorf "lock acquisition timeout during retry" cause.
Definition retries_exhausted : error :=
  Errorf "max retries exceeded" ErrLockNotAcquired.

(** An event of a [Lock] run under [lockCtx] with retry delay [delay] that
    ended with [r]: a command leaves only while the context is not done; a
    wait never runs past the end of the context, and it lasts the whole
    delay unless the context cuts it short, which ends the run with the
    timeout of the wait. *)
Definition event_ok (lockCtx : Context) (delay : Z) (r : result DistributedLock)
    (ev : Event) : Prop :=
  match ev with
  | Sent t _ => Done lockCtx t = false
  | Waited a b =>
      a <= b /\
      (forall d, doneAt lockCtx = Some d -> b <= Z.max a d) /\
      (b = a + Z.max 0 delay \/
       (b < a + Z.max 0 delay /\ Done lockCtx b = true /\
        r = Err (timeout_during_retry (cause lockCtx))))
  end.

(** The order of a [Lock] history with retry delay [delay]: attempts and
    sleeps alternate, beginning with an attempt.  A sleep begins no earlier
    than the attempt before it was sent.  A sleep that another attempt
    follows lasts exactly the delay, and that attempt leaves at its end;
    only a sleep that ends the history may be shorter. *)
Fixpoint paced (delay : Z) (evs : list Event) : Prop :=
  match evs with
  | [] => True
  | Sent t (SETNX _ _ _) :: rest =>
      match rest with
      | [] => True
      | Waited a b :: rest' =>
          t <= a /\
          match rest' with
          | [] => a <= b <= a + Z.max 0 delay
          | Sent t' _ :: _ => b = a + Z.max 0 delay /\ t' = b
          | Waited _ _ :: _ => False
          end /\
          paced delay rest'
      | Sent _ _ :: _ => False
      end
  | _ => False
  end.

End lockspec.

(** ** Sample worlds *)

Module scenario.

Import redis context cache.

(** Another client holds "orders:42" with a lease that does not run out. *)
Definition held : World :=
  mkWorld {[ "orders:42" := mkEntry "someone-else" None ]} 0 [] [].

Definition empty : World := mkWorld ∅ 0 [] [].

(** A quiet environment: nobody interferes, the random source fails over
    to the clock, every call is answered at once. *)
Definition quiet : nat -> Attempt :=
  fun _ => mkAttempt (fun d => d) None answered true.

(** The connection breaks on the third attempt. *)
Definition broken_pipe : Fault := mkFault (NetFailure "write: broken pipe") false.

Definition breaks_on_third : nat -> Attempt :=
  fun i => if (i =? 2)%nat
           then mkAttempt (fun d => d) None (mkCall (Some broken_pipe) 0) true
           else quiet i.

Definition no_retry : LockOptions :=
  mkOptions (30 * time.Second) (100 * time.Millisecond) 0 (5 * time.Second).

Definition three_retries : LockOptions :=
  mkOptions (30 * time.Second) (100 * time.Millisecond) 3 (1 * time.Second).

(** A budget shorter than one retry delay. *)
Definition short_budget : LockOptions :=
  mkOptions (30 * time.Second) (100 * time.Millisecond) 3 (50 * time.Millisecond).

(** A lease of one second, and a critical section that takes two and
    then returns without error. *)
Definition brief_lease : LockOptions :=
  mkOptions (1 * time.Second) (100 * time.Millisecond) 3 (1 * time.Second).

Definition overruns : World -> Outcome * World :=
  fun w => (Returns None,
            mkWorld (db w) (now w + 2 * time.Second) (trace w) (logged w)).

(** A critical section that fails, and one that panics. *)
Definition fails : World -> Outcome * World :=
  fun w => (Returns (Some (RedisError "insufficient stock")), w).

Definition panics : World -> Outcome * World :=
  fun w => (Panics "index out of range", w).

(** Stand-ins for the keyed hash and for the serialization, where a
    closed statement needs some: the hash appends the text to the key. *)
Definition toy_hmac : jwt.Hash -> string -> string -> string :=
  fun _ key text => key +:+ "|" +:+ text.

Definition toy_encode : jwt.Header -> auth.Claims -> string :=
  fun h c => default "" (jwt.alg h) +:+ "." +:+ auth.UserID c +:+ "," +:+ auth.Username c.

(** 2023-11-14 22:13:20.25 UTC. *)
Definition quarter_past : Z := 1700000000 * time.Second + 250 * time.Millisecond.

(** A token string for [c], signed under [secret] with HS256. *)
Definition signed (secret : string) (c : auth.Claims) : jwt.Segments auth.Claims :=
  let h := jwt.mkHeader (Some "HS256") "JWT" in
  jwt.mkSegments (toy_encode h c) h c
    (Some (toy_hmac jwt.SHA256 secret (toy_encode h c))).

(** Claims without an expiry, and the same with a not-before time one hour
    after [quarter_past]. *)
Definition undated : auth.Claims :=
  auth.mkClaims "user123" "testuser"
    (jwt.mkRegistered "" "user123" [] None None None "").

Definition postdated : auth.Claims :=
  auth.mkClaims "user123" "testuser"
    (jwt.mkRegistered "" "user123" [] None (Some (quarter_past + time.Hour)) None "").

End scenario.

(** ** Reading an operation *)

Module lockops.

Import redis context cache lockspec.

(** The key an operation is about; the passing of time is about none. *)
Definition target (op : Op) : option string :=
  match op with
  | DoTryLock _ _ _ k _ => Some k
  | DoUnlock _ _ lock => Some (key lock)
  | DoExtend _ _ lock _ => Some (key lock)
  | DoIsLocked _ _ lock => Some (key lock)
  | Elapse _ => None
  end.

(** The key a command names. *)
Definition command_key (cmd : Command) : string :=
  match cmd with
  | SETNX k _ _ => k
  | EVAL _ k _ _ => k
  | GET k => k
  end.

End lockops.

(** ** strings *)

(** The four functions of Go's [strings] package that the adapters call,
    as the standard library defines them over byte strings. *)
Module strings.

Definition HasPrefix (s prefix : string) : bool :=
  (String.length prefix <=? String.length s)%nat &&
  String.eqb (substring 0 (String.length prefix) s) prefix.

Definition HasSuffix (s suffix : string) : bool :=
  (String.length suffix <=? String.length s)%nat &&
  String.eqb (substring (String.length s - String.length suffix)
                (String.length suffix) s) suffix.

Definition TrimPrefix (s prefix : string) : string :=
  if HasPrefix s prefix
  then substring (String.length prefix) (String.length s - String.length prefix) s
  else s.

Definition TrimSuffix (s suffix : string) : string :=
  if HasSuffix s suffix
  then substring 0 (String.length s - String.length suffix) s
  else s.

(** [Repeat] with a count that is not negative. *)
Fixpoint Repeat (s : string) (count : nat) : string :=
  match count with
  | O => ""
  | S n => s +:+ Repeat s n
  end.

End strings.

(** ** Values behind [interface{}] *)

Module iface.

(** The dynamic values the adapters store and look up: a string, a
    [*auth.Claims] (nil included), or something of another type. *)
Inductive any : Type :=
  | String_ (s : string)
  | ClaimsPtr (c : option auth.Claims)
  | Other (tag : nat).

Global Instance RegisteredClaims_eq_dec : EqDecision jwt.RegisteredClaims.
Proof. solve_decision. Defined.

Global Instance Claims_eq_dec : EqDecision auth.Claims.
Proof. solve_decision. Defined.

Global Instance any_eq_dec : EqDecision any.
Proof. solve_decision. Defined.

(** The type assertions to [string] and to [*auth.Claims] on the result of
    a lookup ([None]: the key is absent, the value is a nil interface). *)
Definition as_string (v : option any) : option string :=
  match v with
  | Some (String_ s) => Some s
  | _ => None
  end.

Definition as_claims (v : option any) : option (option auth.Claims) :=
  match v with
  | Some (ClaimsPtr c) => Some c
  | _ => None
  end.

End iface.

(** ** context values *)

Module ctxvalue.

Import iface.

(** A context as a chain of [context.WithValue] links, innermost first.
    Keys are interface values: they are equal when type and value are. *)
Definition Values : Type := list (any * any).

Definition WithValue (ctx : Values) (key val : any) : Values := (key, val) :: ctx.

Fixpoint Value (ctx : Values) (key : any) : option any :=
  match ctx with
  | [] => None
  | (k, v) :: parent => if bool_decide (k = key) then Some v else Value parent key
  end.

End ctxvalue.

(** ** net/http, as far as the adapters use it *)

Module http.

Definition StatusUnauthorized : Z := 401.

Abbreviation Header := (gmap string (list string)).

(** [Header.Get]: the first value stored under the key, or the empty
    string. *)
Definition Header_Get (h : Header) (key : string) : string :=
  match h !! key with
  | Some (v :: _) => v
  | _ => ""
  end.

End http.

(** ** The text of a token *)

Module wire.

Import jwt auth.

Section Text.

Variable hmac : Hash -> string -> string -> string.

(** What the parser recovers from a text that is not empty: its three
    decoded segments, or nothing. *)
Variable decode : string -> option (Segments Claims).

Definition read (tokenString : string) : TokenString Claims :=
  if String.eqb tokenString "" then EmptyString
  else match decode tokenString with
       | Some p => Compact p
       | None => Unparsable
       end.

(** [auth.ValidateToken] on the text. *)
Definition ValidateToken (tParse tCheck : Z) (tokenString secret : string)
  : res AuthError Claims :=
  auth.ValidateToken hmac tParse tCheck (read tokenString) secret.

End Text.

End wire.

(** ** adapters/gozero *)

Module gozero.

Import jwt auth iface ctxvalue.

Definition ContextKeyUserID : string := "user_id".
Definition ContextKeyClaims : string := "claims".

(** *** context.go *)

(** WithUserID adds user ID to context. *)
Definition WithUserID (ctx : Values) (userID : string) : Values :=
  WithValue ctx (String_ ContextKeyUserID) (String_ userID).

(** GetUserID extracts user ID from context. *)
Definition GetUserID (ctx : Values) : string :=
  match as_string (Value ctx (String_ ContextKeyUserID)) with
  | Some userID => userID
  | None => ""
  end.

(** WithClaims adds claims to context. *)
Definition WithClaims (ctx : Values) (claims : option Claims) : Values :=
  WithValue ctx (String_ ContextKeyClaims) (ClaimsPtr claims).

(** GetClaims extracts claims from context. *)
Definition GetClaims (ctx : Values) : option Claims :=
  match as_claims (Value ctx (String_ ContextKeyClaims)) with
  | Some claims => claims
  | None => None
  end.

(** *** The middleware *)

Record AuthMiddlewareConfig : Type := mkConfig {
  Secret : string;
  SkipPaths : list string
}.

Record ErrorResponse : Type := mkErrorResponse {
  Error : string;
  Message : string
}.

(** What a handler does to its [http.ResponseWriter], call by call. *)
Inductive WriterCall : Type :=
  | HeaderSet (key val : string)
  | WriteHeader (code : Z)
  | Encode (response : ErrorResponse)
  | Write (bytes : string).

Abbreviation ResponseWriter := (list WriterCall).

Record Request : Type := mkRequest {
  URLPath : string;
  Header : http.Header;
  Context : Values
}.

Definition WithContext (r : Request) (ctx : Values) : Request :=
  mkRequest (URLPath r) (Header r) ctx.

Abbreviation HandlerFunc := (ResponseWriter -> Request -> ResponseWriter).

(** writeErrorResponse writes an error response. *)
Definition writeErrorResponse (w : ResponseWriter) (code : Z) (err message : string)
  : ResponseWriter :=
  (w ++ [HeaderSet "Content-Type" "application/json";
         WriteHeader code;
         Encode (mkErrorResponse err message)])%list.

(** The loop over [config.SkipPaths]: whether some entry lets the path
    through. *)
Fixpoint skips (paths : list string) (currentPath : string) : bool :=
  match paths with
  | [] => false
  | path :: rest =>
      if String.eqb path currentPath then true
      else if strings.HasSuffix path "/*" &&
              strings.HasPrefix currentPath (strings.TrimSuffix path "/*")
           then true
           else skips rest currentPath
  end.

Section Middleware.

Variable hmac : Hash -> string -> string -> string.
Variable decode : string -> option (Segments Claims).

(** AuthMiddleware creates a new authentication middleware for go-zero.
    [tParse] and [tCheck] are the two clock readings of [ValidateToken]. *)
Definition AuthMiddleware (config : AuthMiddlewareConfig) (tParse tCheck : Z)
    (next : HandlerFunc) : HandlerFunc :=
  fun w r =>
    let currentPath := URLPath r in
    if skips (SkipPaths config) currentPath then next w r
    else
      let authHeader := http.Header_Get (Header r) "Authorization" in
      if String.eqb authHeader "" then
        writeErrorResponse w http.StatusUnauthorized "unauthorized"
          "missing authorization header"
      else
        let bearerPrefix := "Bearer " in
        if negb (strings.HasPrefix authHeader bearerPrefix) then
          writeErrorResponse w http.StatusUnauthorized "unauthorized"
            "invalid authorization header format"
        else
          let token := strings.TrimPrefix authHeader bearerPrefix in
          if String.eqb token "" then
            writeErrorResponse w http.StatusUnauthorized "unauthorized" "missing token"
          else
            match wire.ValidateToken hmac decode tParse tCheck token (Secret config) with
            | Err err =>
                let message :=
                  match err with
                  | ErrExpiredToken => "token expired"
                  | ErrMalformedToken => "malformed token"
                  | _ => "invalid token"
                  end in
                writeErrorResponse w http.StatusUnauthorized "unauthorized" message
            | Ok claims =>
                let ctx := Context r in
                let ctx := WithClaims ctx (Some claims) in
                let ctx := WithUserID ctx (UserID claims) in
                next w (WithContext r ctx)
            end.

End Middleware.

End gozero.

(** ** adapters/gin *)

Module gin.

Import jwt auth iface.

Definition ContextKeyUserID : string := "user_id".
Definition ContextKeyClaims : string := "claims".

Record AuthMiddlewareConfig : Type := mkConfig {
  Secret : string;
  SkipPaths : list string
}.

(** [gin.H] with string values. *)
Abbreviation H := (gmap string string).

(** A [gin.Context], as far as the adapter touches it: the request, the
    key store, the abort flag, and the responses rendered so far. *)
Record Context : Type := mkContext {
  RequestPath : string;
  RequestHeader : http.Header;
  Keys : gmap string any;
  Aborted : bool;
  Rendered : list (Z * H)
}.

Definition GetHeader (c : Context) (key : string) : string :=
  http.Header_Get (RequestHeader c) key.

Definition JSON (c : Context) (code : Z) (obj : H) : Context :=
  mkContext (RequestPath c) (RequestHeader c) (Keys c) (Aborted c)
    (Rendered c ++ [(code, obj)])%list.

Definition Abort (c : Context) : Context :=
  mkContext (RequestPath c) (RequestHeader c) (Keys c) true (Rendered c).

Definition Set_ (c : Context) (key : string) (val : any) : Context :=
  mkContext (RequestPath c) (RequestHeader c) (<[key := val]> (Keys c)) (Aborted c)
    (Rendered c).

Definition Get (c : Context) (key : string) : option any := Keys c !! key.

(** [c.Next()] runs the handlers that are still pending, unless the
    context was aborted. *)
Definition Next (pending : Context -> Context) (c : Context) : Context :=
  if Aborted c then c else pending c.

Fixpoint skips (paths : list string) (currentPath : string) : bool :=
  match paths with
  | [] => false
  | path :: rest =>
      if String.eqb path currentPath then true
      else if strings.HasSuffix path "/*" &&
              strings.HasPrefix currentPath (strings.TrimSuffix path "/*")
           then true
           else skips rest currentPath
  end.

Definition unauthorized (message : string) : H :=
  {[ "error" := "unauthorized"; "message" := message ]}.

Section Middleware.

Variable hmac : Hash -> string -> string -> string.
Variable decode : string -> option (Segments Claims).

(** AuthMiddleware creates a new authentication middleware for Gin. *)
Definition AuthMiddleware (config : AuthMiddlewareConfig) (tParse tCheck : Z)
    (pending : Context -> Context) (c : Context) : Context :=
  let currentPath := RequestPath c in
  if skips (SkipPaths config) currentPath then Next pending c
  else
    let authHeader := GetHeader c "Authorization" in
    if String.eqb authHeader "" then
      Abort (JSON c http.StatusUnauthorized (unauthorized "missing authorization header"))
    else
      let bearerPrefix := "Bearer " in
      if negb (strings.HasPrefix authHeader bearerPrefix) then
        Abort (JSON c http.StatusUnauthorized
                 (unauthorized "invalid authorization header format"))
      else
        let token := strings.TrimPrefix authHeader bearerPrefix in
        if String.eqb token "" then
          Abort (JSON c http.StatusUnauthorized (unauthorized "missing token"))
        else
          match wire.ValidateToken hmac decode tParse tCheck token (Secret config) with
          | Err err =>
              let message :=
                match err with
                | ErrExpiredToken => "token expired"
                | ErrMalformedToken => "malformed token"
                | _ => "invalid token"
                end in
              Abort (JSON c http.StatusUnauthorized (unauthorized message))
          | Ok claims =>
              let c := Set_ c ContextKeyClaims (ClaimsPtr (Some claims)) in
              let c := Set_ c ContextKeyUserID (String_ (UserID claims)) in
              Next pending c
          end.

End Middleware.

(** GetUserID extracts user ID from gin context. *)
Definition GetUserID (c : Context) : string :=
  match as_string (Get c ContextKeyUserID) with
  | Some id => id
  | None => ""
  end.

(** GetClaims extracts claims from gin context. *)
Definition GetClaims (c : Context) : option Claims :=
  match as_claims (Get c ContextKeyClaims) with
  | Some claims => claims
  | None => None
  end.

End gin.

(** ** pkg/logger: the trace ID in a context *)

Module logger.

Import iface ctxvalue.

Definition TraceIDKey : string := "trace_id".

(** GetTraceIDFromContext extracts trace ID from context; [None] is the
    nil context. *)
Definition GetTraceIDFromContext (ctx : option Values) : string :=
  match ctx with
  | None => ""
  | Some ctx =>
      match as_string (Value ctx (String_ TraceIDKey)) with
      | Some traceID => traceID
      | None => ""
      end
  end.

(** WithTraceID adds trace ID to context. *)
Definition WithTraceID (ctx : Values) (traceID : string) : Values :=
  WithValue ctx (String_ TraceIDKey) (String_ traceID).

End logger.

(** ** starter/gozero-starter: the login and profile handlers *)

Module gozerostarter.

Import jwt auth.

Record LoginRequest : Type := mkLoginRequest {
  Username : string;
  Password : string
}.

Record LoginResponse : Type := mkLoginResponse {
  AccessToken : TokenString Claims;
  TokenType : string;
  ExpiresIn : Z;
  UserID : string;
  ResponseUsername : string
}.

(** The [JWT] part of the service configuration the handler reads.  The
    configuration struct is not among the sources; [TTL] is taken to be a
    64-bit count of seconds. *)
Record JWTConfig : Type := mkJWTConfig {
  Secret : string;
  TTL : Z
}.

(** What the handler writes, by the [httpx] call that writes it. *)
Inductive Reply : Type :=
  | ErrorCtx                                   (* the request did not parse *)
  | Error (err : Sentinel)                     (* the token could not be signed *)
  | OkJson (resp : LoginResponse)
  | WriteJson (code : Z) (body : gmap string string).

Section Login.

Variable hmac : Hash -> string -> string -> string.
Variable encode : Header -> Claims -> string.

(** LoginHandler; [parsed] is the outcome of [httpx.Parse] and [now] the
    clock reading of [GenerateToken]. *)
Definition LoginHandler (cfg : JWTConfig) (now : Z) (parsed : option LoginRequest)
  : Reply :=
  match parsed with
  | None => ErrorCtx
  | Some req =>
      if String.eqb (Username req) "admin" && String.eqb (Password req) "password"
      then
        let tokenTTL := time.wrap64 (TTL cfg * time.Second) in
        match GenerateToken hmac encode now "user-123" (Username req) (Secret cfg)
                tokenTTL with
        | Err err => Error err
        | Ok token =>
            OkJson (mkLoginResponse token "Bearer"
                      (float64.to_int64 (time.Seconds tokenTTL))
                      "user-123" (Username req))
        end
      else
        WriteJson http.StatusUnauthorized
          {[ "error" := "authentication failed";
             "message" := "invalid username or password" ]}
  end.

End Login.

Record ProfileResponse : Type := mkProfileResponse {
  ProfileUserID : string;
  ProfileUsername : string;
  Subject : string;
  Exp : string;
  Iat : string
}.

(** How the profile handler ends: it writes a reply, or dereferences a
    nil pointer. *)
Inductive ProfileReply : Type :=
  | ProfileOk (resp : ProfileResponse)
  | ProfileError (code : Z) (body : gmap string string)
  | NilDereference.

Definition StatusInternalServerError : Z := 500.

Section Profile.

(** [Time.Format(time.RFC3339)]. *)
Variable format : Z -> string.

(** ProfileHandler, on the context of its request. *)
Definition ProfileHandler (ctx : ctxvalue.Values) : ProfileReply :=
  let userID := gozero.GetUserID ctx in
  match gozero.GetClaims ctx with
  | None =>
      ProfileError StatusInternalServerError {[ "error" := "failed to get user claims" ]}
  | Some claims =>
      match ExpiresAt (Registered claims), IssuedAt (Registered claims) with
      | Some exp, Some iat =>
          ProfileOk (mkProfileResponse userID (auth.Username claims)
                       (jwt.Subject (Registered claims)) (format exp) (format iat))
      | _, _ => NilDereference
      end
  end.

End Profile.

End gozerostarter.

(** ** pkg/utils *)

Module utils.

(** How a call ends: with its result, or in a run-time panic. *)
Inductive Outcome (A : Type) : Type :=
  | Returned (a : A)
  | Panicked.
Arguments Returned {A} a.
Arguments Panicked {A}.

(** The most bytes [make] agrees to allocate: the runtime's [maxAlloc],
    2^48 on linux/amd64.  [make] panics for a negative length and for one
    beyond this limit.  (A request within the limit that the system cannot
    serve ends the process; that is not one of the outcomes here.) *)
Definition maxAlloc : Z := 2 ^ 48.

Definition make_panics (bytes : Z) : bool := (bytes <? 0) || (maxAlloc <? bytes).

(** GenerateRandomString generates a random string of specified length.
    [rand] is what [rand.Read] delivers: nothing (its error), or bytes.
    Two slices are made: [length] bytes for the random source, and, once
    the source has delivered, twice as many for [hex.EncodeToString]. *)
Definition GenerateRandomString (rand : option (list Byte.byte)) (length : Z)
  : Outcome (res unit string) :=
  if make_panics length then Panicked
  else
    let n := Z.to_nat length in
    match rand with
    | None => Returned (Err tt)
    | Some bs =>
        if make_panics (2 * length) then Panicked
        else
          let bytes := take n (bs ++ replicate n Byte.x00)%list in
          Returned (Ok (substring 0 n (hex.EncodeToString bytes)))
    end.

(** GenerateTraceID generates a unique trace ID for request tracking; the
    error of [GenerateRandomString] is dropped. *)
Definition GenerateTraceID (rand : option (list Byte.byte)) (now : Z) : string :=
  let id := match GenerateRandomString rand 16 with
            | Returned (Ok id) => id
            | _ => ""
            end in
  "trace-" +:+ pretty now +:+ "-" +:+ id.

(** MaskSensitive masks sensitive information for logging. *)
Definition MaskSensitive (input : string) : string :=
  if (String.length input <=? 8)%nat then strings.Repeat "*" (String.length input)
  else
    substring 0 4 input +:+
    strings.Repeat "*" (String.length input - 8) +:+
    substring (String.length input - 4) 4 input.

(** Truncate truncates a string to a maximum length.  [maxLength] is a Go
    [int]; the slice expression panics when its bound is negative or beyond
    the string. *)
Definition Truncate (s : string) (maxLength : Z) : Outcome string :=
  let len := Z.of_nat (String.length s) in
  if len <=? maxLength then Returned s
  else
    let bound := time.wrap64 (maxLength - 3) in
    if (bound <? 0) || (len <? bound) then Panicked
    else Returned (substring 0 (Z.to_nat bound) s +:+ "...").

(** Minutes, Hours and Days convert to Duration, in int64 arithmetic. *)
Definition Minutes (m : Z) : Z := time.wrap64 (m * time.Minute).

Definition Hours (h : Z) : Z := time.wrap64 (h * time.Hour).

Definition Days (d : Z) : Z := time.wrap64 (time.wrap64 (d * 24) * time.Hour).

End utils.

(** ** More samples *)

Module samples.

Import jwt auth.

(** The segments of the token the toy signer issues to user-123 a quarter
    past the second, for ten minutes. *)
Definition issued : Segments Claims :=
  scenario.signed "test-secret"
    (NewClaims scenario.quarter_past "user-123" "admin" (10 * time.Minute)).

(** A decoder that knows one text. *)
Definition toy_decode : string -> option (Segments Claims) :=
  fun text => if String.eqb text "header.payload.signature" then Some issued else None.

Definition protected_routes : gozero.AuthMiddlewareConfig :=
  gozero.mkConfig "test-secret" ["/health"; "/login"; "/swagger/*"].

Definition gin_protected_routes : gin.AuthMiddlewareConfig :=
  gin.mkConfig "test-secret" ["/health"; "/login"; "/swagger/*"].

Definition bearer : http.Header :=
  {[ "Authorization" := ["Bearer header.payload.signature"] ]}.

End samples.

(** * Properties of the conversion to whole seconds *)

Section FloatProperties.

Import float64.

(** The number of binary digits. *)
Lemma digits2_pos_size p : digits2_pos p = Pos.size p.
Proof. induction p; simpl; congruence. Qed.

Lemma Zdigits2_log2 p : Zdigits2 (Zpos p) = Z.log2 (Zpos p) + 1.
Proof.
  simpl. rewrite digits2_pos_size.
  destruct p; simpl; rewrite ?Pos2Z.inj_succ; lia.
Qed.

Lemma Zdigits2_unique z n :
  0 < n -> 2 ^ (n - 1) <= z < 2 ^ n -> Zdigits2 z = n.
Proof.
  intros Hn Hz.
  assert (0 < z) as Hpos by (pose proof (Z.pow_pos_nonneg 2 (n - 1)); lia).
  destruct z as [|p|p]; try lia.
  rewrite Zdigits2_log2.
  rewrite (Z.log2_unique (Zpos p) (n - 1)); [lia|lia|].
  replace (Z.succ (n - 1)) with n by lia. done.
Qed.

Lemma Zdigits2_bounds z :
  0 < z -> 2 ^ (Zdigits2 z - 1) <= z < 2 ^ (Zdigits2 z).
Proof.
  intros Hz. destruct z as [|p|p]; try lia.
  rewrite Zdigits2_log2.
  pose proof (Z.log2_spec (Zpos p) ltac:(lia)).
  replace (Z.log2 (Z.pos p) + 1 - 1) with (Z.log2 (Z.pos p)) by lia.
  replace (Z.log2 (Z.pos p) + 1) with (Z.succ (Z.log2 (Z.pos p))) by lia. done.
Qed.

(** Shifting right. *)
Lemma shr_1_m mrs : 0 <= shr_m mrs -> shr_m (shr_1 mrs) = shr_m mrs / 2.
Proof.
  destruct mrs as [m r s]. cbn [shr_m]. intros Hm.
  destruct m as [|[p|p|]|p]; cbn [shr_1 shr_m]; try lia.
  - reflexivity.
  - rewrite Pos2Z.inj_xI. apply Z.div_unique with 1; lia.
  - rewrite Pos2Z.inj_xO. apply Z.div_unique with 0; lia.
  - reflexivity.
Qed.

Lemma iter_shr_1_m p : forall mrs,
  0 <= shr_m mrs -> shr_m (SpecFloat.iter_pos shr_1 p mrs) = shr_m mrs / 2 ^ Zpos p.
Proof.
  assert (forall m, 0 <= m -> 0 <= m / 2) as Hhalf by (intros; apply Z.div_pos; lia).
  assert (forall m k, 0 <= m -> 0 <= m / 2 ^ Zpos k) as Hpow.
  { intros. apply Z.div_pos; [lia|]. apply Z.pow_pos_nonneg; lia. }
  induction p as [p IH|p IH|]; intros mrs Hm; cbn [SpecFloat.iter_pos].
  - assert (0 <= shr_m (shr_1 mrs)) as H1 by (rewrite shr_1_m; auto).
    assert (0 <= shr_m (SpecFloat.iter_pos shr_1 p (shr_1 mrs))) as H2 by (rewrite IH; auto).
    rewrite IH, IH, shr_1_m by auto.
    rewrite !Z.div_div by (try apply Z.pow_pos_nonneg; lia).
    f_equal. replace (Zpos p~1) with (1 + Zpos p + Zpos p) by lia.
    rewrite !Z.pow_add_r by lia. lia.
  - assert (0 <= shr_m (SpecFloat.iter_pos shr_1 p mrs)) as H2 by (rewrite IH; auto).
    rewrite IH, IH by auto.
    rewrite !Z.div_div by (try apply Z.pow_pos_nonneg; lia).
    f_equal. replace (Zpos p~0) with (Zpos p + Zpos p) by lia.
    rewrite !Z.pow_add_r by lia. lia.
  - by rewrite shr_1_m.
Qed.

Lemma shr_spec mrs e n :
  0 <= shr_m mrs ->
  snd (shr mrs e n) = e + Z.max 0 n /\
  shr_m (fst (shr mrs e n)) = shr_m mrs / 2 ^ Z.max 0 n.
Proof.
  intros Hm. destruct n as [|p|p]; cbn [shr fst snd].
  - change (Z.max 0 0) with 0. rewrite Z.div_1_r. lia.
  - rewrite iter_shr_1_m by done. rewrite Z.max_r by lia. done.
  - rewrite Z.max_l by lia. rewrite Z.div_1_r. lia.
Qed.

Lemma round_nearest_even_bounds m l :
  m <= round_nearest_even m l <= m + 1.
Proof.
  destruct l as [|[| |]]; simpl; try lia. destruct (Z.even m); lia.
Qed.

Lemma shr_record_of_loc_m m l : shr_m (shr_record_of_loc m l) = m.
Proof. by destruct l as [|[| |]]. Qed.

(** Rounding never adds more than one unit in the last place kept: the
    result of [binary_round_aux] is [m2 * 2^(ex + N)] with
    [m2 * 2^N <= mx + 2^n1], [n1] being the number of bits dropped first. *)
Lemma binary_round_aux_bound s mx ex lx :
  0 <= mx ->
  exists N m2,
    0 <= N /\ 0 <= m2 /\
    m2 * 2 ^ N <= mx + 2 ^ Z.max 0 (fexp prec emax (Zdigits2 mx + ex) - ex) /\
    binary_round_aux prec emax s mx ex lx =
      match m2 with
      | Z0 => S754_zero s
      | Zpos m => if ex + N <=? emax - prec then S754_finite s m (ex + N)
                  else S754_infinity s
      | Zneg _ => S754_nan
      end.
Proof.
  intros Hmx. unfold binary_round_aux, shr_fexp.
  set (n1 := fexp prec emax (Zdigits2 mx + ex) - ex).
  pose proof (shr_spec (shr_record_of_loc mx lx) ex n1) as H1.
  rewrite shr_record_of_loc_m in H1. specialize (H1 Hmx).
  destruct (shr (shr_record_of_loc mx lx) ex n1) as [mrs1 e1].
  cbn [fst snd] in H1. destruct H1 as [-> Hm0].
  set (m1 := round_nearest_even (shr_m mrs1) (loc_of_shr_record mrs1)).
  pose proof (round_nearest_even_bounds (shr_m mrs1) (loc_of_shr_record mrs1)) as Hr.
  fold m1 in Hr.
  assert (0 <= 2 ^ Z.max 0 n1) as Hp1 by (apply Z.pow_nonneg; lia).
  assert (0 < 2 ^ Z.max 0 n1) as Hp1' by (apply Z.pow_pos_nonneg; lia).
  assert (0 <= shr_m mrs1) as Hm0pos by (rewrite Hm0; apply Z.div_pos; lia).
  set (n2 := fexp prec emax (Zdigits2 m1 + (ex + Z.max 0 n1)) - (ex + Z.max 0 n1)).
  pose proof (shr_spec (shr_record_of_loc m1 loc_Exact) (ex + Z.max 0 n1) n2) as H2.
  rewrite shr_record_of_loc_m in H2. specialize (H2 ltac:(lia)).
  destruct (shr (shr_record_of_loc m1 loc_Exact) (ex + Z.max 0 n1) n2) as [mrs2 e2].
  cbn [fst snd] in H2. destruct H2 as [-> Hm2].
  assert (0 < 2 ^ Z.max 0 n2) as Hp2 by (apply Z.pow_pos_nonneg; lia).
  exists (Z.max 0 n1 + Z.max 0 n2), (shr_m mrs2).
  split; [lia|]. split; [rewrite Hm2; apply Z.div_pos; lia|].
  split.
  - rewrite Z.pow_add_r by lia.
    pose proof (Z.mul_div_le m1 (2 ^ Z.max 0 n2) Hp2) as Ha.
    pose proof (Z.mul_div_le mx (2 ^ Z.max 0 n1) Hp1') as Hb.
    rewrite <- Hm2 in Ha. rewrite <- Hm0 in Hb. nia.
  - rewrite Z.add_assoc. reflexivity.
Qed.

(** A value strictly below one converts to the integer zero. *)
Lemma to_int64_below_one s N m2 ex :
  0 <= N -> 0 <= m2 -> ex < 0 ->
  m2 * 2 ^ N < 2 ^ (- ex) ->
  to_int64 match m2 with
           | Z0 => S754_zero s
           | Zpos m => if ex + N <=? emax - prec then S754_finite s m (ex + N)
                       else S754_infinity s
           | Zneg _ => S754_nan
           end = 0.
Proof.
  intros HN Hm2 Hex Hlt. destruct m2 as [|m|m]; [done| |lia].
  assert (N < - ex) as HNex.
  { apply (Z.pow_lt_mono_r_iff 2); [lia|lia|].
    assert (1 <= Zpos m) by lia.
    assert (0 < 2 ^ N) by (apply Z.pow_pos_nonneg; lia). nia. }
  replace (ex + N <=? emax - prec) with true
    by (symmetry; apply Z.leb_le; unfold emax, prec; lia).
  unfold to_int64.
  destruct (ex + N) as [|q|q] eqn:Hq; [lia|lia|].
  assert (Zpos m / 2 ^ Zpos q = 0) as ->.
  { apply Z.div_small. split; [lia|].
    replace (- ex) with (Zpos q + N) in Hlt by lia.
    rewrite Z.pow_add_r in Hlt by lia.
    assert (0 < 2 ^ N) by (apply Z.pow_pos_nonneg; lia). nia. }
  by destruct s.
Qed.

Lemma iter_xO p d : Zpos (Pos.iter xO p d) = Zpos p * 2 ^ Zpos d.
Proof.
  induction d as [|d IH] using Pos.peano_ind.
  - simpl. lia.
  - rewrite Pos.iter_succ, Pos2Z.inj_xO, IH, Pos2Z.inj_succ, Z.pow_succ_r by lia. lia.
Qed.

(** An integer of at most 53 bits converts exactly: the mantissa is the
    integer shifted up to 53 bits. *)
Lemma binary_round_exact s p :
  let dg := Zdigits2 (Zpos p) in
  dg <= 53 ->
  exists mz,
    Zpos mz = Zpos p * 2 ^ (53 - dg) /\
    Zdigits2 (Zpos mz) = 53 /\
    binary_round prec emax s p 0 = S754_finite s mz (dg - 53).
Proof.
  intros dg Hdg.
  pose proof (Zdigits2_bounds (Zpos p) ltac:(lia)) as Hb. fold dg in Hb.
  assert (1 <= dg) as Hdg1 by (unfold dg; simpl; lia).
  unfold binary_round.
  change (Zpos (digits2_pos p)) with dg.
  assert (fexp prec emax (dg + 0) = dg - 53) as ->
    by (unfold fexp, emin, prec, emax; lia).
  assert (exists mz, Zpos mz = Zpos p * 2 ^ (53 - dg) /\
                     shl_align p 0 (dg - 53) = (mz, dg - 53)) as (mz & Hmz & ->).
  { unfold shl_align. destruct (dg - 53 - 0) as [|q|q] eqn:Hq; [|lia|].
    - exists p. replace (53 - dg) with 0 by lia. replace (dg - 53) with 0 by lia.
      split; [lia|done].
    - exists (Pos.iter xO p q). rewrite iter_xO.
      replace (53 - dg) with (Zpos q) by lia. done. }
  exists mz. split; [done|].
  assert (Zdigits2 (Zpos mz) = 53) as Hd53; [|split; [done|]].
  { apply Zdigits2_unique; [lia|]. rewrite Hmz.
    assert (2 ^ (53 - 1) = 2 ^ (dg - 1) * 2 ^ (53 - dg)) as E1
      by (rewrite <- Z.pow_add_r by lia; f_equal; lia).
    assert (2 ^ 53 = 2 ^ dg * 2 ^ (53 - dg)) as E2
      by (rewrite <- Z.pow_add_r by lia; f_equal; lia).
    rewrite E1, E2.
    assert (0 < 2 ^ (53 - dg)) by (apply Z.pow_pos_nonneg; lia). nia. }
  unfold binary_round_aux, shr_fexp. rewrite Hd53.
  assert (fexp prec emax (53 + (dg - 53)) - (dg - 53) = 0) as ->
    by (unfold fexp, emin, prec, emax; lia).
  cbn [shr shr_record_of_loc shr_m loc_of_shr_record round_nearest_even].
  rewrite Hd53.
  assert (fexp prec emax (53 + (dg - 53)) - (dg - 53) = 0) as ->
    by (unfold fexp, emin, prec, emax; lia).
  cbn [shr shr_record_of_loc shr_m].
  replace (dg - 53 <=? emax - prec) with true
    by (symmetry; apply Z.leb_le; unfold emax, prec; lia).
  done.
Qed.

(** The quotient of two normal numbers before rounding. *)
Lemma SFdiv_normal sx mx ex sy my ey :
  Zdigits2 (Zpos mx) = 53 -> Zdigits2 (Zpos my) = 53 ->
  emin prec emax <= ex - ey - 53 ->
  exists lz,
    SFdiv prec emax (S754_finite sx mx ex) (S754_finite sy my ey) =
      binary_round_aux prec emax (xorb sx sy)
        (Zpos mx * 2 ^ 53 / Zpos my) (ex - ey - 53) lz.
Proof.
  intros Hdx Hdy Hmin. unfold SFdiv, SFdiv_core_binary.
  rewrite Hdx, Hdy.
  assert (Z.min (fexp prec emax (53 + ex - (53 + ey))) (ex - ey) = ex - ey - 53) as ->
    by (unfold fexp, prec in *; lia).
  replace (ex - ey - (ex - ey - 53)) with 53 by lia.
  rewrite Z.shiftl_mul_pow2 by lia.
  unfold Z.div.
  destruct (Z.div_eucl (Zpos mx * 2 ^ 53) (Zpos my)) as [q r].
  eexists. reflexivity.
Qed.

Lemma add_zero_l y : to_int64 (add (S754_zero false) y) = to_int64 y.
Proof. by destruct y as [[|]| | |]. Qed.

(** A whole number of nanoseconds below one second, divided by [1e9], is
    a float below one. *)
Lemma nanoseconds_below_one s p :
  Zpos p < time.Second ->
  to_int64 (div (binary_round prec emax s p 0) (of_int 1000000000)) = 0.
Proof.
  intros Hp. change time.Second with 1000000000 in Hp.
  set (dg := Zdigits2 (Zpos p)).
  pose proof (Zdigits2_bounds (Zpos p) ltac:(lia)) as Hb. fold dg in Hb.
  assert (1 <= dg) as Hdg1 by (unfold dg; simpl; lia).
  assert (dg <= 30) as Hdg30.
  { assert (dg - 1 < 30); [|lia].
    apply (Z.pow_lt_mono_r_iff 2); [lia|lia|]. change (2 ^ 30) with 1073741824. lia. }
  destruct (binary_round_exact s p ltac:(fold dg; lia)) as (mx & Hmx & Hdx & ->).
  fold dg in Hmx |- *.
  assert (of_int 1000000000 = S754_finite false 8388608000000000 (-23)) as ->
    by (vm_compute; reflexivity).
  destruct (SFdiv_normal s mx (dg - 53) false 8388608000000000 (-23) Hdx eq_refl)
    as [lz Hdiv]; [unfold emin, prec, emax; lia|].
  unfold div. rewrite Hdiv. clear Hdiv.
  set (P := 2 ^ (53 - dg)) in *.
  assert (2 ^ 23 <= P) as HP.
  { unfold P. apply Z.pow_le_mono_r; lia. }
  set (q := Zpos mx * 2 ^ 53 / 8388608000000000).
  assert (0 <= q) as Hq0 by (apply Z.div_pos; lia).
  assert (q * 1000000000 <= Zpos p * (P * 2 ^ 30)) as Hq.
  { pose proof (Z.mul_div_le (Zpos mx * 2 ^ 53) 8388608000000000 ltac:(lia)) as H.
    fold q in H. rewrite Hmx in H.
    change (2 ^ 53) with (2 ^ 30 * 8388608) in H.
    change (2 ^ 30) with 1073741824 in *. lia. }
  assert (q < 2 ^ 54) as Hq54.
  { assert (Zpos mx < 2 ^ 53) as Hmx53.
    { pose proof (Zdigits2_bounds (Zpos mx) ltac:(lia)) as H. rewrite Hdx in H. lia. }
    pose proof (Z.mul_div_le (Zpos mx * 2 ^ 53) 8388608000000000 ltac:(lia)) as H.
    fold q in H. change (2 ^ 53) with 9007199254740992 in *.
    change (2 ^ 54) with 18014398509481984. nia. }
  assert (Zdigits2 q <= 54) as Hdq.
  { destruct (Z.eq_dec q 0) as [->|Hne]; [simpl; lia|].
    pose proof (Zdigits2_bounds q ltac:(lia)) as H.
    assert (Zdigits2 q - 1 < 54); [|lia].
    apply (Z.pow_lt_mono_r_iff 2); lia. }
  destruct (binary_round_aux_bound (xorb s false) q (dg - 53 - -23 - 53) lz Hq0)
    as (N & m2 & HN & Hm2 & Hbound & ->).
  apply to_int64_below_one; [done|done|lia|].
  eapply Z.le_lt_trans; [exact Hbound|].
  assert (2 ^ Z.max 0 (fexp prec emax (Zdigits2 q + (dg - 53 - -23 - 53))
                         - (dg - 53 - -23 - 53)) <= 2) as Hn1.
  { change 2 with (2 ^ 1) at 2. apply Z.pow_le_mono_r; [lia|].
    unfold fexp, emin, prec, emax. lia. }
  assert (2 ^ (- (dg - 53 - -23 - 53)) = P * 2 ^ 30) as ->.
  { unfold P. rewrite <- Z.pow_add_r by lia. f_equal. lia. }
  change (2 ^ 30) with 1073741824 in *. change (2 ^ 23) with 8388608 in *.
  nia.
Qed.

(** [int64(d.Seconds())] is zero for every duration strictly between minus
    one second and one second. *)
Lemma Seconds_below_one d :
  - time.Second < d < time.Second ->
  to_int64 (time.Seconds d) = 0.
Proof.
  intros Hd. unfold time.Seconds. change time.Second with 1000000000 in *.
  destruct d as [|p|p].
  - vm_compute. reflexivity.
  - rewrite Z.quot_small, Z.rem_small by lia.
    rewrite add_zero_l. apply nanoseconds_below_one.
    change time.Second with 1000000000. lia.
  - change (Zneg p) with (- Zpos p).
    rewrite Z.quot_opp_l, Z.rem_opp_l by done.
    rewrite Z.quot_small, Z.rem_small by lia.
    rewrite add_zero_l. apply nanoseconds_below_one.
    change time.Second with 1000000000. lia.
Qed.

End FloatProperties.

(** * Properties of the lock *)

Section LockProperties.

Import redis context cache.

Implicit Types (w : World) (ctx : Context) (call : Call) (lock : DistributedLock).

(** *** The server primitives *)

Lemma get_Some_lookup t (d : DB) k v :
  get t d k = Some v <->
  exists e, d !! k = Some e /\ live t e = true /\ redis.value e = v.
Proof.
  unfold get. split.
  - destruct (d !! k) as [e|] eqn:E; [|discriminate].
    destruct (live t e) eqn:L; [|discriminate].
    intros [= <-]. eauto.
  - intros (e & -> & -> & <-). reflexivity.
Qed.

Lemma get_insert_ne t (d : DB) k k' e :
  k <> k' -> get t (<[k := e]> d) k' = get t d k'.
Proof. intros Hne. unfold get. by rewrite lookup_insert_ne. Qed.

Lemma get_delete_ne t (d : DB) k k' :
  k <> k' -> get t (delete k d) k' = get t d k'.
Proof. intros Hne. unfold get. by rewrite lookup_delete_ne. Qed.

(** The unlock script is a compare-and-delete. *)
Lemma eval_unlock_spec t (d : DB) k v :
  eval t d UnlockScript k v None =
    if bool_decide (get t d k = Some v) then (1, delete k d) else (0, d).
Proof.
  unfold eval, del. case_bool_decide as Hg; [|reflexivity].
  by rewrite Hg.
Qed.

(** The extend script is a compare-and-expire. *)
Lemma eval_extend_spec t (d : DB) k v secs :
  eval t d ExtendScript k v (Some secs) =
    if bool_decide (get t d k = Some v)
    then (1, <[k := mkEntry v (Some (t + secs * time.Second))]> d)
    else (0, d).
Proof.
  unfold eval, expire. case_bool_decide as Hg; [|reflexivity].
  apply get_Some_lookup in Hg as (e & -> & -> & <-). reflexivity.
Qed.

(** *** Unlock *)

(** What [Unlock] does when the server sees the command. *)
Lemma Unlock_answered ctx call lock w :
  Done ctx (now w) = false ->
  fault call = None ->
  Unlock ctx call lock w =
    let w' d := mkWorld d (now w + Z.max 0 (latency call))
                  (trace w ++ [Sent (now w) (EVAL UnlockScript (key lock) (value lock) None)])
                  (logged w) in
    if bool_decide (get (now w) (db w) (key lock) = Some (value lock))
    then (None, w' (delete (key lock) (db w)))
    else (Some ErrLockNotOwned, w' (db w)).
Proof.
  intros Hd Hf. unfold Unlock, rdb_Eval, roundtrip.
  rewrite Hd, Hf, eval_unlock_spec.
  by case_bool_decide.
Qed.

(** Whatever the environment does, [Unlock] changes the database only by
    the compare-and-delete. *)
Lemma Unlock_db ctx call lock w :
  db (snd (Unlock ctx call lock w)) = db w \/
  (get (now w) (db w) (key lock) = Some (value lock) /\
   db (snd (Unlock ctx call lock w)) = delete (key lock) (db w)).
Proof.
  unfold Unlock, rdb_Eval, roundtrip.
  destruct (Done ctx (now w)); [by left|].
  rewrite eval_unlock_spec.
  destruct (fault call) as [f|]; [destruct (f_applied f)|];
    try case_bool_decide; simpl; auto.
Qed.

(** C2.  [Unlock] is one EVAL of the compare-and-delete script.  It removes
    the record at the handle's key only if the record's current value is
    the handle's token; if the value differs or the key is absent the
    database is left as it was and, the server having answered, the result
    is [ErrLockNotOwned]; a record holding another owner's token is never
    removed. *)
Theorem Unlock_compare_and_delete ctx call lock w :
  let out := Unlock ctx call lock w in
  (db (snd out) <> db w ->
     get (now w) (db w) (key lock) = Some (value lock) /\
     db (snd out) = delete (key lock) (db w)) /\
  (get (now w) (db w) (key lock) <> Some (value lock) ->
     db (snd out) = db w /\
     (Done ctx (now w) = false -> fault call = None ->
        fst out = Some ErrLockNotOwned)) /\
  (forall k v, get (now w) (db w) k = Some v ->
     (k, v) <> (key lock, value lock) ->
     get (now w) (db (snd out)) k = Some v) /\
  (Done ctx (now w) = false -> fault call = None ->
     get (now w) (db w) (key lock) = Some (value lock) ->
     fst out = None /\ db (snd out) = delete (key lock) (db w)) /\
  (trace (snd out) = trace w \/
   trace (snd out) =
     (trace w ++ [Sent (now w) (EVAL UnlockScript (key lock) (value lock) None)])%list).
Proof.
  intros out. subst out.
  pose proof (Unlock_db ctx call lock w) as Hdb.
  split; [|split; [|split; [|split]]].
  - intros Hne. destruct Hdb as [Heq|[Hg Heq]]; [congruence|by split].
  - intros Hne. split.
    + destruct Hdb as [Heq|[Hg _]]; [done|]. congruence.
    + intros Hd Hf. rewrite Unlock_answered by done.
      by rewrite bool_decide_eq_false_2.
  - intros k v Hg Hne. destruct Hdb as [->|[Hown ->]]; [done|].
    destruct (decide (k = key lock)) as [->|Hk].
    + rewrite Hown in Hg. congruence.
    + by rewrite get_delete_ne.
  - intros Hd Hf Hg. rewrite Unlock_answered by done.
    by rewrite bool_decide_eq_true_2.
  - unfold Unlock, rdb_Eval, roundtrip.
    destruct (Done ctx (now w)); [by left|]. right.
    destruct (fault call); [done|].
    destruct (eval _ _ _ _ _ _) as [n d']. simpl. by destruct (n =? 0).
Qed.

(** A lease of one second runs out, another client acquires the key, and
    the first client then releases its stale handle: the release reports
    [ErrLockNotOwned] and the other client's record stays. *)
Example Unlock_stale_handle :
  let start := mkWorld ∅ 0 [] [] in
  let '(a, w1) := TryLock Background None answered "orders:42" time.Second start in
  let w2 := mkWorld (db w1) (now w1 + 2 * time.Second) (trace w1) (logged w1) in
  let '(b, w3) := TryLock Background None answered "orders:42" time.Second w2 in
  match a, b with
  | Ok stale, Ok fresh =>
      let '(err, w4) := Unlock Background answered stale w3 in
      err = Some ErrLockNotOwned /\
      get (now w4) (db w4) "orders:42" = Some (value fresh) /\
      value fresh <> value stale
  | _, _ => False
  end.
Proof. vm_compute. repeat split. discriminate. Qed.

(** A lease of zero is sent as a plain SETNX: the record has no expiry. *)
Example zero_ttl_never_expires :
  let w1 := snd (TryLock Background None answered "orders:42" 0 (mkWorld ∅ 0 [] [])) in
  db w1 !! "orders:42" = Some (mkEntry "lock_0" None).
Proof. vm_compute. reflexivity. Qed.

(** *** TryLock *)

Import lockspec.

(** The three ways a [TryLock] can leave the world: the context was done
    and nothing was sent; the command was sent and changed nothing; the
    command was sent and wrote the record because the key was absent. *)
Lemma TryLock_cases ctx rand call k ttl w :
  let v := generateLockValue rand (now w) in
  let sent d := mkWorld d (now w + Z.max 0 (latency call))
                  (trace w ++ [Sent (now w) (SETNX k v ttl)]) (logged w) in
  (Done ctx (now w) = true /\
     TryLock ctx rand call k ttl w = (Err (Errorf "failed to acquire lock" (cause ctx)), w)) \/
  (Done ctx (now w) = false /\
     snd (TryLock ctx rand call k ttl w) = sent (db w) /\
     fst (TryLock ctx rand call k ttl w) <> Ok (mkLock k v ttl) /\
     is_Ok (fst (TryLock ctx rand call k ttl w)) = false) \/
  (Done ctx (now w) = false /\
     get (now w) (db w) k = None /\
     (0 <= ttl \/ ttl = KeepTTL) /\
     snd (TryLock ctx rand call k ttl w) =
       sent (<[k := mkEntry v (if (ttl =? 0) || (ttl =? KeepTTL) then None
                               else Some (now w + sent_ttl ttl))]> (db w)) /\
     (fault call = None -> fst (TryLock ctx rand call k ttl w) = Ok (mkLock k v ttl)) /\
     (fault call <> None -> is_Ok (fst (TryLock ctx rand call k ttl w)) = false)).
Proof.
  intros v sent. unfold TryLock, rdb_SetNX, roundtrip. fold v.
  destruct (Done ctx (now w)) eqn:Hd; [by left|]. right.
  unfold setnx.
  destruct ((ttl <? 0) && negb (ttl =? KeepTTL)) eqn:Hbad.
  { left. destruct (fault call) as [f|]; [destruct (f_applied f)|]; simpl; done. }
  assert (0 <= ttl \/ ttl = KeepTTL) as Httl.
  { apply andb_false_iff in Hbad as [H|H]; [left; lia|right].
    apply negb_false_iff in H. lia. }
  destruct (get (now w) (db w) k) as [v'|] eqn:Hg.
  { left. destruct (fault call) as [f|]; [destruct (f_applied f)|]; simpl; done. }
  destruct (fault call) as [f|] eqn:Hf; [destruct (f_applied f)|]; simpl.
  - right. repeat split; try done.
  - left. done.
  - right. repeat split; try done.
Qed.

Lemma reserved_get w k t :
  reserved w k t -> now w <= t -> exists v, get (now w) (db w) k = Some v.
Proof.
  intros (e & He & Hexp) Hle. exists (redis.value e).
  apply get_Some_lookup. exists e. repeat split; [done|].
  unfold live. destruct (expireAt e); [|done]. apply Z.ltb_lt. lia.
Qed.

Lemma span_nonneg reqs : 0 <= span reqs.
Proof. induction reqs as [|q rest IH]; simpl; lia. Qed.

(** While the record is reserved, nobody in the batch acquires the key. *)
Lemma TryLock_each_reserved k reqs : forall w,
  reserved w k (now w + span reqs) ->
  successes (fst (TryLock_each k reqs w)) = 0%nat.
Proof.
  induction reqs as [|q rest IH]; intros w Hres; [reflexivity|].
  simpl in *.
  pose proof (span_nonneg rest) as Hs.
  destruct (reserved_get w k _ Hres ltac:(lia)) as [v' Hg].
  pose proof (TryLock_cases (q_ctx q) (q_rand q) (q_call q) k (q_ttl q) w) as Hc.
  simpl in Hc.
  destruct (TryLock (q_ctx q) (q_rand q) (q_call q) k (q_ttl q) w) as [r w1] eqn:Ht.
  simpl in Hc.
  assert (is_Ok r = false /\ reserved w1 k (now w1 + span rest)) as [Hr Hres1].
  { destruct Hc as [[_ Hc]|[(_ & Hw & _ & Hr)|(_ & Hn & _)]].
    - injection Hc as -> ->. split; [done|].
      destruct Hres as (e & He & Hexp). exists e. split; [done|].
      destruct (expireAt e); [lia|done].
    - subst w1. split; [done|].
      destruct Hres as (e & He & Hexp). exists e. split; [done|].
      simpl. destruct (expireAt e); [lia|done].
    - congruence. }
  specialize (IH w1 Hres1).
  destruct (TryLock_each k rest w1) as [rs w2]. simpl in *.
  unfold successes in *. simpl. rewrite Hr. done.
Qed.

Lemma TryLock_each_at_most_one k reqs : forall S w,
  span reqs <= S ->
  Forall (fun q => 0 < q_ttl q -> S < sent_ttl (q_ttl q)) reqs ->
  (successes (fst (TryLock_each k reqs w)) <= 1)%nat.
Proof.
  induction reqs as [|q rest IH]; intros S w Hspan Hall;
    [unfold successes; simpl; lia|].
  apply Forall_cons in Hall as [Hq Hall]. simpl in Hspan |- *.
  pose proof (span_nonneg rest) as Hs.
  pose proof (TryLock_cases (q_ctx q) (q_rand q) (q_call q) k (q_ttl q) w) as Hc.
  simpl in Hc.
  destruct (TryLock (q_ctx q) (q_rand q) (q_call q) k (q_ttl q) w) as [r w1] eqn:Ht.
  simpl in Hc.
  destruct Hc as [[_ Hc]|[(_ & Hw & _ & Hr)|(_ & Hn & Httl & Hw & _)]].
  - injection Hc as -> ->.
    specialize (IH S w ltac:(lia) Hall).
    destruct (TryLock_each k rest w) as [rs w2]. by unfold successes in *.
  - specialize (IH S w1 ltac:(lia) Hall).
    destruct (TryLock_each k rest w1) as [rs w2].
    unfold successes in *. simpl in *. by rewrite Hr.
  - assert (reserved w1 k (now w1 + span rest)) as Hres.
    { subst w1. eexists. simpl. rewrite lookup_insert_eq. split; [done|]. simpl.
      destruct ((q_ttl q =? 0) || (q_ttl q =? KeepTTL)) eqn:Hp; [done|].
      apply orb_false_iff in Hp as [H0 H1].
      apply Z.eqb_neq in H0, H1.
      assert (0 < q_ttl q) as Hpos by lia.
      specialize (Hq Hpos). lia. }
    pose proof (TryLock_each_reserved k rest w1 Hres) as H0.
    destruct (TryLock_each k rest w1) as [rs w2].
    unfold successes in *. simpl in *. destruct (is_Ok r); simpl; lia.
Qed.

(** What [TryLock] does when the server answers. *)
Lemma TryLock_answered ctx rand call k ttl w :
  Done ctx (now w) = false ->
  fault call = None ->
  0 <= ttl \/ ttl = KeepTTL ->
  let v := generateLockValue rand (now w) in
  let sent d := mkWorld d (now w + Z.max 0 (latency call))
                  (trace w ++ [Sent (now w) (SETNX k v ttl)]) (logged w) in
  TryLock ctx rand call k ttl w =
    match get (now w) (db w) k with
    | Some _ => (Err ErrLockNotAcquired, sent (db w))
    | None =>
        (Ok (mkLock k v ttl),
         sent (<[k := mkEntry v (if (ttl =? 0) || (ttl =? KeepTTL) then None
                                 else Some (now w + sent_ttl ttl))]> (db w)))
    end.
Proof.
  intros Hd Hf Httl v sent. unfold TryLock, rdb_SetNX, roundtrip. fold v.
  rewrite Hd, Hf. unfold setnx.
  replace ((ttl <? 0) && negb (ttl =? KeepTTL)) with false; cycle 1.
  { symmetry. apply andb_false_iff. destruct Httl as [H| ->]; [left|right; done].
    apply Z.ltb_ge. lia. }
  by destruct (get (now w) (db w) k).
Qed.

Lemma Done_never ctx t : doneAt ctx = None -> Done ctx t = false.
Proof. unfold Done. by intros ->. Qed.

Lemma TryLock_each_contention k reqs : forall w,
  Forall2 (fun q r => answers q -> is_Ok r = false -> r = Err ErrLockNotAcquired)
    reqs (fst (TryLock_each k reqs w)).
Proof.
  induction reqs as [|q rest IH]; intros w; simpl; [constructor|].
  destruct (TryLock (q_ctx q) (q_rand q) (q_call q) k (q_ttl q) w) as [r w1] eqn:Ht.
  specialize (IH w1). destruct (TryLock_each k rest w1) as [rs w2]. simpl in *.
  constructor; [|done].
  intros (Hctx & Hf & Httl) Hr.
  rewrite TryLock_answered in Ht by auto using Done_never.
  destruct (get (now w) (db w) k); injection Ht as <- <-; done.
Qed.

(** *** The state machine *)

(** Every operation changes the database in at most one of three ways, and
    never turns the clock back. *)
Lemma run_effect op w :
  now w <= now (run op w) /\
  (db (run op w) = db w \/
   (exists ctx rand call k ttl exp,
      op = DoTryLock ctx rand call k ttl /\ get (now w) (db w) k = None /\
      db (run op w) = <[k := mkEntry (generateLockValue rand (now w)) exp]> (db w)) \/
   (exists ctx call lock,
      op = DoUnlock ctx call lock /\
      get (now w) (db w) (key lock) = Some (value lock) /\
      db (run op w) = delete (key lock) (db w)) \/
   (exists ctx call lock ttl exp,
      op = DoExtend ctx call lock ttl /\
      get (now w) (db w) (key lock) = Some (value lock) /\
      db (run op w) = <[key lock := mkEntry (value lock) exp]> (db w))).
Proof.
  destruct op as [ctx rand call k ttl|ctx call lock|ctx call lock ttl|ctx call lock|dt];
    simpl.
  - pose proof (TryLock_cases ctx rand call k ttl w) as Hc. simpl in Hc.
    destruct Hc as [[_ ->]|[(_ & -> & _)|(_ & Hn & _ & -> & _)]]; simpl.
    + split; [lia|by left].
    + split; [lia|by left].
    + split; [lia|]. right; left. by repeat eexists.
  - split.
    + unfold Unlock, rdb_Eval, roundtrip.
      destruct (Done ctx (now w)); simpl; [lia|].
      destruct (fault call); simpl; [lia|].
      destruct (eval _ _ _ _ _ _) as [n d']. simpl.
      destruct (n =? 0); simpl; lia.
    + destruct (Unlock_db ctx call lock w) as [H|[Hg H]]; [by left|].
      right; right; left. by repeat eexists.
  - unfold Extend, rdb_Eval, roundtrip.
    destruct (Done ctx (now w)); simpl; [split; [lia|by left]|].
    rewrite eval_extend_spec.
    destruct (fault call) as [f|]; [destruct (f_applied f)|];
      try case_bool_decide; simpl; (split; [try lia|]); try (by left).
    + right; right; right. by repeat eexists.
    + right; right; right. by repeat eexists.
  - unfold IsLocked, rdb_Get, roundtrip.
    destruct (Done ctx (now w)); [|destruct (fault call) as [f|]];
      try destruct (get (now w) (db w) (key lock));
      try destruct (f_applied f);
      repeat (match goal with
              | |- context [if ?b then _ else _] => destruct b
              end);
      simpl; (split; [lia|by left]).
  - split; [lia|by left].
Qed.

(** A record that is gone stays gone while the database is untouched. *)
Lemma get_None_later t t' (d : DB) k :
  t <= t' -> get t d k = None -> get t' d k = None.
Proof.
  unfold get, live. intros Hle. destruct (d !! k) as [e|]; [|done].
  destruct (expireAt e) as [x|]; [|done].
  destruct (t <? x) eqn:H1; [done|]. intros _.
  apply Z.ltb_ge in H1. replace (t' <? x) with false; [done|].
  symmetry. apply Z.ltb_ge. lia.
Qed.

Lemma get_Some_later t t' (d : DB) k v v' :
  get t d k = Some v -> get t' d k = Some v' -> v' = v.
Proof.
  intros (e & He & _ & <-)%get_Some_lookup (e' & He' & _ & <-)%get_Some_lookup.
  congruence.
Qed.

Lemma get_expired t t' (d : DB) k v :
  get t d k = Some v -> get t' d k = None ->
  exists e, d !! k = Some e /\ redis.value e = v /\ live t' e = false.
Proof.
  intros (e & He & _ & <-)%get_Some_lookup. unfold get. rewrite He.
  destruct (live t' e) eqn:L; [done|]. eauto.
Qed.

(** One operation moves a key along the arrows of the specification's
    machine and along no other: it is acquired only by a [TryLock] on that
    key, the owner token is never replaced, and it is cleared only by an
    [Unlock] that presents the owner token or by its expiry. *)
Lemma observe_step op w k :
  match observe w k, observe (run op w) k with
  | UNLOCKED, UNLOCKED => True
  | UNLOCKED, LOCKED tok =>
      exists ctx rand call ttl,
        op = DoTryLock ctx rand call k ttl /\ tok = generateLockValue rand (now w)
  | LOCKED tok, LOCKED tok' => tok' = tok
  | LOCKED tok, UNLOCKED =>
      (exists ctx call lock,
         op = DoUnlock ctx call lock /\ key lock = k /\ value lock = tok) \/
      (exists e, db (run op w) !! k = Some e /\ redis.value e = tok /\
                 live (now (run op w)) e = false)
  end.
Proof.
  unfold observe.
  destruct (run_effect op w) as [Hle Heff].
  destruct (get (now w) (db w) k) as [tok|] eqn:Hg;
    destruct (get (now (run op w)) (db (run op w)) k) as [tok'|] eqn:Hg';
    [| | |done].
  - (* LOCKED tok, LOCKED tok' *)
    destruct Heff as [Hdb|[(ctx & rand & call & k' & ttl & exp & -> & Hn & Hdb)|
      [(ctx & call & lock & -> & Hown & Hdb)|
       (ctx & call & lock & ttl & exp & -> & Hown & Hdb)]]];
      rewrite Hdb in Hg'.
    + eauto using get_Some_later.
    + destruct (decide (k' = k)) as [->|Hne]; [congruence|].
      rewrite get_insert_ne in Hg' by done. eauto using get_Some_later.
    + destruct (decide (key lock = k)) as [<-|Hne].
      * unfold get in Hg'. by rewrite lookup_delete_eq in Hg'.
      * rewrite get_delete_ne in Hg' by done. eauto using get_Some_later.
    + destruct (decide (key lock = k)) as [<-|Hne].
      * apply get_Some_lookup in Hg' as (e & He & _ & <-).
        rewrite lookup_insert_eq in He. injection He as <-. simpl. congruence.
      * rewrite get_insert_ne in Hg' by done. eauto using get_Some_later.
  - (* LOCKED tok, UNLOCKED *)
    destruct Heff as [Hdb|[(ctx & rand & call & k' & ttl & exp & -> & Hn & Hdb)|
      [(ctx & call & lock & -> & Hown & Hdb)|
       (ctx & call & lock & ttl & exp & -> & Hown & Hdb)]]];
      rewrite Hdb in Hg' |- *.
    + right. eauto using get_expired.
    + destruct (decide (k' = k)) as [->|Hne]; [congruence|].
      rewrite get_insert_ne in Hg' by done. rewrite lookup_insert_ne by done.
      right. eauto using get_expired.
    + destruct (decide (key lock = k)) as [<-|Hne].
      * left. exists ctx, call, lock. repeat split; congruence.
      * rewrite get_delete_ne in Hg' by done. rewrite lookup_delete_ne by done.
        right. eauto using get_expired.
    + destruct (decide (key lock = k)) as [<-|Hne].
      * right. rewrite lookup_insert_eq. eexists. split; [done|]. simpl.
        split; [congruence|].
        unfold get in Hg'. rewrite lookup_insert_eq in Hg'.
        by destruct (live _ _).
      * rewrite get_insert_ne in Hg' by done. rewrite lookup_insert_ne by done.
        right. eauto using get_expired.
  - (* UNLOCKED, LOCKED tok' *)
    destruct Heff as [Hdb|[(ctx & rand & call & k' & ttl & exp & -> & Hn & Hdb)|
      [(ctx & call & lock & -> & Hown & Hdb)|
       (ctx & call & lock & ttl & exp & -> & Hown & Hdb)]]];
      rewrite Hdb in Hg'.
    + rewrite (get_None_later _ _ _ _ Hle Hg) in Hg'. done.
    + destruct (decide (k' = k)) as [->|Hne].
      * exists ctx, rand, call, ttl. split; [done|].
        apply get_Some_lookup in Hg' as (e & He & _ & <-).
        rewrite lookup_insert_eq in He. by injection He as <-.
      * rewrite get_insert_ne in Hg' by done.
        rewrite (get_None_later _ _ _ _ Hle Hg) in Hg'. done.
    + destruct (decide (key lock = k)) as [<-|Hne]; [congruence|].
      rewrite get_delete_ne in Hg' by done.
      rewrite (get_None_later _ _ _ _ Hle Hg) in Hg'. done.
    + destruct (decide (key lock = k)) as [<-|Hne]; [congruence|].
      rewrite get_insert_ne in Hg' by done.
      rewrite (get_None_later _ _ _ _ Hle Hg) in Hg'. done.
Qed.

Lemma successes_unique {A : Type} (rs : list (result A)) i j a b :
  (successes rs <= 1)%nat ->
  rs !! i = Some (Ok a) -> rs !! j = Some (Ok b) -> i = j.
Proof.
  unfold successes. revert i j.
  induction rs as [|r rs IH]; intros i j Hle Hi Hj; [done|].
  assert (forall n c, rs !! n = Some (Ok c) ->
                      (1 <= length (List.filter is_Ok rs))%nat) as Hpos.
  { clear. induction rs as [|r rs IH]; intros n c Hn; [done|].
    destruct n as [|n]; simpl in *.
    - injection Hn as ->. simpl. lia.
    - specialize (IH n c Hn). destruct (is_Ok r); simpl; lia. }
  destruct i as [|i], j as [|j]; simpl in *; [done| | |].
  - injection Hi as ->. simpl in Hle. specialize (Hpos j b Hj). lia.
  - injection Hj as ->. simpl in Hle. specialize (Hpos i a Hi). lia.
  - f_equal. apply IH; [|done|done]. destruct (is_Ok r); simpl in Hle; lia.
Qed.

(** C1.  Mutual exclusion per key.  (1) A [TryLock] on a key with a live
    record never succeeds and leaves the database alone; when the server
    answers, it fails with [ErrLockNotAcquired].  (2) Among any batch of
    [TryLock] calls on one key whose leases outlast the batch, at most one
    succeeds, every other call the server answers fails with
    [ErrLockNotAcquired], and so no two handles come out of the batch.
    (3) In every state and for every operation, a key moves only along the
    arrows of the lock's state machine: its owner token is set by a
    [TryLock] on an unlocked key, is never replaced, and is cleared only by
    an [Unlock] presenting that token or by expiry. *)
Theorem TryLock_mutual_exclusion :
  (forall ctx rand call k ttl w v,
      get (now w) (db w) k = Some v ->
      is_Ok (fst (TryLock ctx rand call k ttl w)) = false /\
      db (snd (TryLock ctx rand call k ttl w)) = db w /\
      (Done ctx (now w) = false -> fault call = None ->
       0 <= ttl \/ ttl = KeepTTL ->
       fst (TryLock ctx rand call k ttl w) = Err ErrLockNotAcquired)) /\
  (forall k reqs w,
      leases_outlast reqs ->
      let rs := fst (TryLock_each k reqs w) in
      (successes rs <= 1)%nat /\
      Forall2 (fun q r => answers q -> is_Ok r = false -> r = Err ErrLockNotAcquired)
        reqs rs /\
      (forall i j h1 h2, rs !! i = Some (Ok h1) -> rs !! j = Some (Ok h2) -> i = j)) /\
  (forall op w k,
      match observe w k, observe (run op w) k with
      | UNLOCKED, UNLOCKED => True
      | UNLOCKED, LOCKED tok =>
          exists ctx rand call ttl,
            op = DoTryLock ctx rand call k ttl /\
            tok = generateLockValue rand (now w)
      | LOCKED tok, LOCKED tok' => tok' = tok
      | LOCKED tok, UNLOCKED =>
          (exists ctx call lock,
              op = DoUnlock ctx call lock /\ key lock = k /\ value lock = tok) \/
          (exists e, db (run op w) !! k = Some e /\ redis.value e = tok /\
                     live (now (run op w)) e = false)
      end).
Proof.
  split; [|split].
  - intros ctx rand call k ttl w v Hg.
    pose proof (TryLock_cases ctx rand call k ttl w) as Hc. simpl in Hc.
    split; [|split].
    + destruct Hc as [[_ ->]|[(_ & _ & _ & Hr)|(_ & Hn & _)]]; [done|done|congruence].
    + destruct Hc as [[_ ->]|[(_ & -> & _)|(_ & Hn & _)]]; [done|done|congruence].
    + intros Hd Hf Httl. rewrite TryLock_answered by done. by rewrite Hg.
  - intros k reqs w Hout rs.
    assert (successes rs <= 1)%nat as Hone.
    { apply (TryLock_each_at_most_one k reqs (span reqs)); [lia|done]. }
    split; [done|]. split; [apply TryLock_each_contention|].
    intros i j h1 h2. by apply successes_unique.
  - apply observe_step.
Qed.

(** Three clients race for a free key at the same instant: the first
    command the server runs wins, the others are told the key is taken. *)
Example three_clients_one_winner :
  let q := mkRequest Background None answered (30 * time.Second) in
  fst (TryLock_each "orders:42" [q; q; q] (mkWorld ∅ 1000 [] [])) =
    [Ok (mkLock "orders:42" "lock_1000" (30 * time.Second));
     Err ErrLockNotAcquired; Err ErrLockNotAcquired].
Proof. vm_compute. reflexivity. Qed.

(** *** The retry loop *)

Lemma wrap64_small z : time.MinInt64 <= z <= time.MaxInt64 -> time.wrap64 z = z.
Proof.
  unfold time.wrap64, time.MinInt64, time.MaxInt64. intros Hz.
  rewrite Z.mod_small by lia. lia.
Qed.

(** An attempt under a context that is not done sends exactly one SETNX. *)
Lemma TryLock_sent ctx rand call k ttl w :
  Done ctx (now w) = false ->
  exists d,
    snd (TryLock ctx rand call k ttl w) =
      mkWorld d (now w + Z.max 0 (latency call))
        (trace w ++ [Sent (now w) (SETNX k (generateLockValue rand (now w)) ttl)])
        (logged w).
Proof.
  intros Hd.
  pose proof (TryLock_cases ctx rand call k ttl w) as Hc. simpl in Hc.
  destruct Hc as [[Hd' _]|[(_ & -> & _)|(_ & _ & _ & -> & _)]];
    [congruence|eauto|eauto].
Qed.

Lemma select_wait_cases lockCtx t delay tf :
  (select_wait lockCtx t delay tf = (ByTimer, t + Z.max 0 delay) /\
   forall d, doneAt lockCtx = Some d -> t + Z.max 0 delay <= Z.max t d) \/
  (exists u, select_wait lockCtx t delay tf = (ByDone, u) /\
             t <= u <= t + Z.max 0 delay /\ Done lockCtx u = true /\
             forall d, doneAt lockCtx = Some d -> u <= Z.max t d).
Proof.
  unfold select_wait, Done. destruct (doneAt lockCtx) as [d|]; [|by left].
  destruct (Z.max t d <? t + Z.max 0 delay) eqn:H1.
  { right. eexists. split; [done|]. apply Z.ltb_lt in H1.
    split; [lia|]. split; [apply Z.leb_le; lia|]. intros ? [= <-]. lia. }
  apply Z.ltb_ge in H1.
  destruct (t + Z.max 0 delay <? Z.max t d) eqn:H2.
  { left. split; [done|]. intros ? [= <-]. lia. }
  apply Z.ltb_ge in H2.
  destruct tf.
  - left. split; [done|]. intros ? [= <-]. lia.
  - right. eexists. split; [done|]. split; [lia|].
    split; [apply Z.leb_le; lia|]. intros ? [= <-]. lia.
Qed.

Lemma attempts_app tr tr' : attempts (tr ++ tr') = (attempts tr + attempts tr')%nat.
Proof. unfold attempts. by rewrite List.filter_app, length_app. Qed.

Lemma waits_app tr tr' : waits (tr ++ tr') = (waits tr + waits tr')%nat.
Proof. unfold waits. by rewrite List.filter_app, length_app. Qed.

(** The loop returns, after at most [MaxRetries - retries + 1] attempts and
    [MaxRetries - retries] waits; every event of the run is in order; and
    nothing follows a wait at whose end the context is done. *)
Lemma Lock_loop_run lockCtx env k o : forall fuel i lastErr retries w,
  0 <= retries <= Z.max 0 (MaxRetries o) ->
  MaxRetries o < time.MaxInt64 ->
  (Z.to_nat (MaxRetries o - retries) < fuel)%nat ->
  exists r w' evs,
    Lock_loop fuel lockCtx env k o i lastErr retries w = Some (r, w') /\
    trace w' = (trace w ++ evs)%list /\
    (attempts evs <= Z.to_nat (MaxRetries o - retries) + 1)%nat /\
    (waits evs <= Z.to_nat (MaxRetries o - retries))%nat /\
    Forall (event_ok lockCtx (RetryDelay o) r) evs /\
    (Done lockCtx (now w) = true -> evs = []) /\
    (forall evs0 a b evs1,
        evs = (evs0 ++ Waited a b :: evs1)%list ->
        Done lockCtx b = true -> evs1 = []).
Proof.
  induction fuel as [|fuel IH]; intros i lastErr retries w Hr Hmax Hfuel; [lia|].
  simpl.
  destruct (Done lockCtx (now w)) eqn:Hd.
  { destruct lastErr; do 2 eexists; exists []; rewrite app_nil_r;
      (repeat split;
       [unfold attempts; simpl; lia|unfold waits; simpl; lia|constructor|
        by intros [|??] ???? [=]]). }
  destruct (TryLock_sent lockCtx (a_rand (env i)) (a_call (env i)) k (TTL o)
              (interfere (a_others (env i)) w) Hd) as [d Hw1].
  destruct (TryLock lockCtx _ _ k (TTL o) _) as [r w1]. simpl in Hw1. subst w1.
  simpl in *.
  set (sent := Sent (now w) _).
  set (t1 := now w + Z.max 0 (latency (a_call (env i)))).
  assert (forall r', event_ok lockCtx (RetryDelay o) r' sent) as Hsent by (intros; exact Hd).
  assert (forall evs0 a b evs1,
             [sent] = (evs0 ++ Waited a b :: evs1)%list -> evs1 = []) as Hone.
  { intros [|? [|??]] ??? [=]. }
  destruct r as [lock|err].
  { do 2 eexists; exists [sent]. repeat split; simpl;
      [unfold attempts; simpl; lia|unfold waits; simpl; lia|by constructor|done|eauto]. }
  destruct (negb (errors_Is err ErrLockNotAcquired)).
  { do 2 eexists; exists [sent]. repeat split; simpl;
      [unfold attempts; simpl; lia|unfold waits; simpl; lia|by constructor|done|eauto]. }
  rewrite wrap64_small by (unfold time.MinInt64, time.MaxInt64 in *; lia).
  destruct (retries + 1 >? MaxRetries o) eqn:Hgt.
  { do 2 eexists; exists [sent]. repeat split; simpl;
      [unfold attempts; simpl; lia|unfold waits; simpl; lia|by constructor|done|eauto]. }
  assert (retries + 1 <= MaxRetries o) as Hle by lia.
  destruct (select_wait_cases lockCtx t1 (RetryDelay o) (a_timer_first (env i)))
    as [[Hsel Hbound]|(u & Hsel & Hu & Hdu & Hbound)]; rewrite Hsel.
  - edestruct (IH (S i) (Some err) (retries + 1))
      as (r & w' & evs & Hrun & Htr & Ha & Hwt & Hev & Hnil & Hlast);
      [lia|done|lia| ].
    set (wt := Waited t1 (t1 + Z.max 0 (RetryDelay o))) in *.
    rewrite Hrun. exists r, w', (sent :: wt :: evs).
    split; [done|]. simpl in Htr. rewrite Htr.
    split; [by rewrite <- !app_assoc|].
    replace (Z.to_nat (MaxRetries o - retries))
      with (S (Z.to_nat (MaxRetries o - (retries + 1)))) by lia.
    split; [|split; [|split; [|split]]].
    + change (sent :: wt :: evs) with ([sent; wt] ++ evs)%list.
      rewrite attempts_app. unfold attempts at 1. simpl. lia.
    + change (sent :: wt :: evs) with ([sent; wt] ++ evs)%list.
      rewrite waits_app. unfold waits at 1. simpl. lia.
    + constructor; [done|]. constructor; [|done].
      simpl. split; [lia|]. split; [done|by left].
    + done.
    + intros [|e0 [|e1 evs0]] a b evs1 Heq Hdb; simpl in Heq.
      * discriminate.
      * subst wt. injection Heq as _ _ <- <-. by apply Hnil.
      * injection Heq as _ _ Heq. by eapply Hlast.
  - do 2 eexists; exists [sent; Waited t1 u]. split; [done|]. simpl.
    split; [by rewrite <- app_assoc|].
    split; [unfold attempts; simpl; lia|].
    split; [unfold waits; simpl; lia|].
    split; [|split; [done|]].
    + constructor; [done|]. constructor; [|done]. simpl.
      split; [lia|]. split; [done|].
      destruct (decide (u = t1 + Z.max 0 (RetryDelay o))); [by left|right].
      repeat split; [lia|done].
    + intros [|e0 [|e1 [|??]]] a b evs1 [=]; done.
Qed.

(** An attempt that fails for another reason than contention reports the
    store's error, wrapped once. *)
Lemma TryLock_error_shape ctx rand call k ttl w err w1 :
  Done ctx (now w) = false ->
  TryLock ctx rand call k ttl w = (Err err, w1) ->
  err = ErrLockNotAcquired \/
  exists e, err = Errorf "failed to acquire lock" e /\
            errors_Is err ErrLockNotAcquired = false /\
            (e = RedisError "ERR invalid expire time in 'set' command" \/
             exists f, fault call = Some f /\ e = fault_error f).
Proof.
  intros Hd. unfold TryLock, rdb_SetNX, roundtrip. rewrite Hd.
  destruct (fault call) as [f|].
  - intros [= <- <-]. right. eexists. split; [done|]. split; [|eauto].
    unfold fault_error. by destruct (f_kind f).
  - unfold setnx. destruct (_ && _); simpl.
    + intros [= <- <-]. right. eexists. split; [done|]. split; [done|]. by left.
    + destruct (get _ _ _); simpl; intros [= <- <-]. by left.
Qed.

(** C8.  At any iteration of [Lock]'s loop, an attempt that fails with
    anything but the contention outcome ends the acquisition there: [Lock]
    returns exactly the error [TryLock] built, which wraps the store's
    error with context; the history ends with that attempt, so there is no
    wait and no further attempt. *)
Theorem Lock_aborts_on_store_error fuel lockCtx env k o i lastErr retries w err w1 :
  Done lockCtx (now w) = false ->
  TryLock lockCtx (a_rand (env i)) (a_call (env i)) k (TTL o)
    (interfere (a_others (env i)) w) = (Err err, w1) ->
  err <> ErrLockNotAcquired ->
  Lock_loop (S fuel) lockCtx env k o i lastErr retries w = Some (Err err, w1) /\
  (exists e, err = Errorf "failed to acquire lock" e /\ root_cause err = e /\
             (e = RedisError "ERR invalid expire time in 'set' command" \/
              exists f, fault (a_call (env i)) = Some f /\ e = fault_error f)) /\
  trace w1 =
    (trace w ++ [Sent (now w)
                   (SETNX k (generateLockValue (a_rand (env i)) (now w)) (TTL o))])%list.
Proof.
  intros Hd Ht Hne.
  destruct (TryLock_error_shape lockCtx _ _ _ _ (interfere (a_others (env i)) w)
              _ _ Hd Ht) as [?|(e & -> & His & He)]; [done|].
  split; [|split].
  - simpl. rewrite Hd, Ht. by rewrite His.
  - exists e. split; [done|]. split; [|done].
    destruct He as [->|(f & _ & ->)]; [done|].
    unfold fault_error. by destruct (f_kind f).
  - destruct (TryLock_sent lockCtx (a_rand (env i)) (a_call (env i)) k (TTL o)
                (interfere (a_others (env i)) w) Hd) as [d Hw1].
    rewrite Ht in Hw1. simpl in Hw1. by subst w1.
Qed.

(** The connection breaks on the first attempt of a loop that was about to
    retry. *)
Lemma Lock_aborts_on_store_error_witness :
  let lockCtx := WithTimeout Background 0 (1 * time.Second) in
  let env := fun _ : nat =>
    mkAttempt (fun d => d) None (mkCall (Some scenario.broken_pipe) 0) true in
  let err := Errorf "failed to acquire lock" (RedisError "write: broken pipe") in
  let sent := Sent 0 (SETNX "orders:42" "lock_0" (30 * time.Second)) in
  let w1 := mkWorld (db scenario.held) 0 [sent] [] in
  Lock_loop 1 lockCtx env "orders:42" scenario.three_retries 0 None 0 scenario.held
    = Some (Err err, w1) /\
  (exists e, err = Errorf "failed to acquire lock" e /\ root_cause err = e /\
             (e = RedisError "ERR invalid expire time in 'set' command" \/
              exists f, fault (a_call (env 0%nat)) = Some f /\ e = fault_error f)) /\
  trace w1 = [sent].
Proof.
  intros lockCtx env err sent w1.
  apply (Lock_aborts_on_store_error 0 lockCtx env "orders:42" scenario.three_retries
           0 None 0 scenario.held err w1); [reflexivity|reflexivity|discriminate].
Defined.

(** The same through [Lock]: two contended attempts, then the connection
    breaks; [Lock] stops at the third attempt and reports it. *)
Example Lock_stops_at_broken_pipe :
  exists w',
    Lock Background scenario.breaks_on_third "orders:42" [scenario.three_retries]
      scenario.held
    = Some (Err (Errorf "failed to acquire lock" (RedisError "write: broken pipe")), w') /\
    attempts (trace w') = 3%nat /\ waits (trace w') = 2%nat.
Proof. eexists. vm_compute. repeat split. Qed.

(** The context [Lock] works under ends no later than the budget. *)
Lemma WithTimeout_deadline ctx t timeout :
  exists d, doneAt (WithTimeout ctx t timeout) = Some d /\ d <= t + timeout.
Proof.
  unfold WithTimeout. destruct (doneAt ctx) as [p|] eqn:Hp; [|eauto with lia].
  destruct (p <? t + timeout) eqn:Hlt; [|simpl; eauto with lia].
  exists p. split; [done|]. apply Z.ltb_lt in Hlt. lia.
Qed.

(** The history of a run of the loop is paced, and it begins with an
    attempt sent at the instant the loop was entered. *)
Lemma Lock_loop_paced lockCtx env k o : forall fuel i lastErr retries w r w',
  Lock_loop fuel lockCtx env k o i lastErr retries w = Some (r, w') ->
  exists evs,
    trace w' = (trace w ++ evs)%list /\
    paced (RetryDelay o) evs /\
    match evs with
    | [] => True
    | Sent t _ :: _ => t = now w
    | Waited _ _ :: _ => False
    end.
Proof.
  induction fuel as [|fuel IH]; intros i lastErr retries w r w'; [done|].
  simpl.
  destruct (Done lockCtx (now w)) eqn:Hd.
  { destruct lastErr; intros [= <- <-]; exists []; by rewrite app_nil_r. }
  destruct (TryLock_sent lockCtx (a_rand (env i)) (a_call (env i)) k (TTL o)
              (interfere (a_others (env i)) w) Hd) as [d Hw1].
  destruct (TryLock lockCtx _ _ k (TTL o) _) as [r1 w1]. simpl in Hw1. subst w1.
  simpl.
  set (sent := Sent (now w) _).
  set (t1 := now w + Z.max 0 (latency (a_call (env i)))).
  destruct r1 as [lock|err].
  { intros [= <- <-]. by exists [sent]. }
  destruct (negb (errors_Is err ErrLockNotAcquired)).
  { intros [= <- <-]. by exists [sent]. }
  destruct (time.wrap64 (retries + 1) >? MaxRetries o).
  { intros [= <- <-]. by exists [sent]. }
  destruct (select_wait_cases lockCtx t1 (RetryDelay o) (a_timer_first (env i)))
    as [[Hsel _]|(u & Hsel & Hu & _)]; rewrite Hsel.
  - intros Hrun. apply IH in Hrun as (evs & Htr & Hp & Hhd). simpl in Htr, Hhd.
    exists (sent :: Waited t1 (t1 + Z.max 0 (RetryDelay o)) :: evs).
    split; [by rewrite Htr, <- !app_assoc|]. split; [|done].
    simpl. split; [lia|]. split; [|done].
    destruct evs as [|[t c|a b] evs]; [lia|done|done].
  - intros [= <- <-]. exists [sent; Waited t1 u]. simpl.
    split; [by rewrite <- app_assoc|]. split; [|done]. split; [lia|done].
Qed.

(** The loop reports exhausted retries only after [MaxRetries - retries + 1]
    attempts with [MaxRetries - retries] sleeps between them. *)
Lemma Lock_loop_exhausted lockCtx env k o : forall fuel i lastErr retries w w',
  0 <= retries <= Z.max 0 (MaxRetries o) ->
  MaxRetries o < time.MaxInt64 ->
  Lock_loop fuel lockCtx env k o i lastErr retries w
    = Some (Err retries_exhausted, w') ->
  exists evs,
    trace w' = (trace w ++ evs)%list /\
    attempts evs = (Z.to_nat (MaxRetries o - retries) + 1)%nat /\
    waits evs = Z.to_nat (MaxRetries o - retries).
Proof.
  induction fuel as [|fuel IH]; intros i lastErr retries w w' Hr Hmax; [done|].
  simpl.
  destruct (Done lockCtx (now w)) eqn:Hd.
  { destruct lastErr; intros [=]. }
  destruct (TryLock_sent lockCtx (a_rand (env i)) (a_call (env i)) k (TTL o)
              (interfere (a_others (env i)) w) Hd) as [d Hw1].
  destruct (TryLock lockCtx _ _ k (TTL o) _) as [r1 w1]. simpl in Hw1. subst w1.
  simpl.
  set (sent := Sent (now w) _).
  set (t1 := now w + Z.max 0 (latency (a_call (env i)))).
  destruct r1 as [lock|err]; [done|].
  destruct (negb (errors_Is err ErrLockNotAcquired)) eqn:His.
  { intros [= -> _]. done. }
  rewrite wrap64_small by (unfold time.MinInt64, time.MaxInt64 in *; lia).
  destruct (retries + 1 >? MaxRetries o) eqn:Hgt.
  { intros [= <-]. exists [sent]. split; [done|].
    replace (Z.to_nat (MaxRetries o - retries)) with 0%nat by lia. done. }
  destruct (select_wait lockCtx t1 (RetryDelay o) (a_timer_first (env i)))
    as [[|] u]; [intros [=]|].
  intros Hrun. apply IH in Hrun as (evs & Htr & Ha & Hw); [|lia|done].
  simpl in Htr.
  exists ([sent; Waited t1 u] ++ evs)%list.
  split; [by rewrite Htr, <- !app_assoc|].
  rewrite attempts_app, waits_app, Ha, Hw. unfold attempts, waits. simpl.
  split; lia.
Qed.

(** The check before an attempt: once the context is done the loop
    returns the timeout, wrapping the last error if there is one, and
    leaves the world as it found it. *)
Lemma Lock_loop_done lockCtx env k o fuel i lastErr retries w :
  Done lockCtx (now w) = true ->
  Lock_loop (S fuel) lockCtx env k o i lastErr retries w
    = Some (Err (timeout_before_attempt (default (cause lockCtx) lastErr)), w).
Proof. intros Hd. simpl. rewrite Hd. by destruct lastErr. Qed.

(** A contended attempt with retries left, when the context is still open
    at the end of the delay: the loop sleeps the whole delay and goes
    round again. *)
Lemma Lock_loop_retries lockCtx env k o fuel i lastErr retries w w1 :
  MaxRetries o < time.MaxInt64 ->
  Done lockCtx (now w) = false ->
  TryLock lockCtx (a_rand (env i)) (a_call (env i)) k (TTL o)
    (interfere (a_others (env i)) w) = (Err ErrLockNotAcquired, w1) ->
  0 <= retries < MaxRetries o ->
  Done lockCtx (now w1 + Z.max 0 (RetryDelay o)) = false ->
  Lock_loop (S fuel) lockCtx env k o i lastErr retries w =
  Lock_loop fuel lockCtx env k o (S i) (Some ErrLockNotAcquired) (retries + 1)
    (block_until (now w1 + Z.max 0 (RetryDelay o)) w1).
Proof.
  intros Hmax Hd Ht Hr Hopen. simpl. rewrite Hd, Ht. simpl.
  rewrite wrap64_small by (unfold time.MinInt64, time.MaxInt64 in *; lia).
  replace (retries + 1 >? MaxRetries o) with false by lia.
  unfold select_wait. unfold Done in Hopen.
  destruct (doneAt lockCtx) as [d|]; [|done].
  apply Z.leb_gt in Hopen.
  replace (Z.max (now w1) d <? now w1 + Z.max 0 (RetryDelay o)) with false by lia.
  by replace (now w1 + Z.max 0 (RetryDelay o) <? Z.max (now w1) d) with true by lia.
Qed.

(** The check during the wait: a contended attempt with retries left,
    when the context ends before the (positive) delay has passed: the loop
    returns the timeout of the wait at that instant, without another
    attempt. *)
Lemma Lock_loop_cut_short lockCtx env k o fuel i lastErr retries w w1 d :
  MaxRetries o < time.MaxInt64 ->
  Done lockCtx (now w) = false ->
  TryLock lockCtx (a_rand (env i)) (a_call (env i)) k (TTL o)
    (interfere (a_others (env i)) w) = (Err ErrLockNotAcquired, w1) ->
  0 <= retries < MaxRetries o ->
  doneAt lockCtx = Some d ->
  0 < RetryDelay o ->
  d < now w1 + RetryDelay o ->
  Lock_loop (S fuel) lockCtx env k o i lastErr retries w =
  Some (Err (timeout_during_retry (cause lockCtx)),
        block_until (Z.max (now w1) d) w1).
Proof.
  intros Hmax Hd Ht Hr Hdone Hpos Hcut. simpl. rewrite Hd, Ht. simpl.
  rewrite wrap64_small by (unfold time.MinInt64, time.MaxInt64 in *; lia).
  replace (retries + 1 >? MaxRetries o) with false by lia.
  unfold select_wait. rewrite Hdone.
  by replace (Z.max (now w1) d <? now w1 + Z.max 0 (RetryDelay o)) with true by lia.
Qed.

(** C5, as the code has it.  [Lock] always returns.  It makes at most
    [MaxRetries + 1] attempts (the first one and at most [MaxRetries]
    retries) and sleeps at most [MaxRetries] times; every attempt starts
    inside the [LockTimeout] budget.  Attempts and sleeps alternate: between
    two attempts [Lock] sleeps exactly [RetryDelay], counted from the reply
    to the failed attempt, and only a sleep that the budget cuts short, which
    ends the run, is shorter.  The retries-exhausted failure is returned
    only after exactly [MaxRetries + 1] attempts and [MaxRetries] sleeps.
    With [MaxRetries = 0], a key that is held and a server that answers,
    [Lock] returns that failure after one attempt and no sleep.  And at any
    iteration of the loop, a contended attempt with retries left and the
    budget still open at the end of the delay is followed by a sleep of the
    whole delay and the next iteration. *)
Theorem Lock_bounded_retries ctx env k opts w :
  let o := options_of opts in
  let lockCtx := WithTimeout ctx (now w) (LockTimeout o) in
  MaxRetries o < time.MaxInt64 ->
  (exists r w' evs,
    Lock ctx env k opts w = Some (r, w') /\
    trace w' = (trace w ++ evs)%list /\
    (attempts evs <= Z.to_nat (MaxRetries o) + 1)%nat /\
    (waits evs <= Z.to_nat (MaxRetries o))%nat /\
    (forall t c, In (Sent t c) evs -> t < now w + LockTimeout o) /\
    Forall (event_ok lockCtx (RetryDelay o) r) evs /\
    paced (RetryDelay o) evs /\
    (r = Err retries_exhausted ->
     attempts evs = (Z.to_nat (MaxRetries o) + 1)%nat /\
     waits evs = Z.to_nat (MaxRetries o)) /\
    (MaxRetries o = 0 ->
     Done lockCtx (now w) = false ->
     is_Some (get (now w) (a_others (env 0%nat) (db w)) k) ->
     fault (a_call (env 0%nat)) = None ->
     0 <= TTL o \/ TTL o = KeepTTL ->
     r = Err retries_exhausted /\ attempts evs = 1%nat /\ waits evs = 0%nat)) /\
  (forall fuel i lastErr retries w0 w1,
     Done lockCtx (now w0) = false ->
     TryLock lockCtx (a_rand (env i)) (a_call (env i)) k (TTL o)
       (interfere (a_others (env i)) w0) = (Err ErrLockNotAcquired, w1) ->
     0 <= retries < MaxRetries o ->
     Done lockCtx (now w1 + Z.max 0 (RetryDelay o)) = false ->
     Lock_loop (S fuel) lockCtx env k o i lastErr retries w0 =
     Lock_loop fuel lockCtx env k o (S i) (Some ErrLockNotAcquired) (retries + 1)
       (block_until (now w1 + Z.max 0 (RetryDelay o)) w1)).
Proof.
  intros o lockCtx Hmax.
  split; [|intros; by apply Lock_loop_retries].
  destruct (Lock_loop_run lockCtx env k o (Lock_fuel o) 0 None 0 w)
    as (r & w' & evs & Hrun & Htr & Ha & Hw & Hev & _);
    [lia|done|unfold Lock_fuel; lia|].
  rewrite Z.sub_0_r in Ha, Hw.
  exists r, w', evs. split; [exact Hrun|]. split; [done|].
  split; [done|]. split; [done|].
  split; [|split; [done|split; [|split]]].
  - intros t c Hin. rewrite Forall_forall in Hev.
    specialize (Hev _ (proj2 (list_elem_of_In _ _) Hin)). simpl in Hev.
    destruct (WithTimeout_deadline ctx (now w) (LockTimeout o)) as (d & Hd & Hle).
    unfold Done in Hev. fold lockCtx in Hd. rewrite Hd in Hev.
    apply Z.leb_gt in Hev. lia.
  - destruct (Lock_loop_paced _ _ _ _ _ _ _ _ _ _ _ Hrun) as (evs' & Htr' & Hp & _).
    rewrite Htr in Htr'. apply app_inv_head in Htr'. by subst evs'.
  - intros ->.
    destruct (Lock_loop_exhausted lockCtx env k o (Lock_fuel o) 0 None 0 w w')
      as (evs' & Htr' & Ha' & Hw'); [lia|done|done|].
    rewrite Htr in Htr'. apply app_inv_head in Htr'. subst evs'.
    by rewrite Z.sub_0_r in Ha', Hw'.
  - intros H0 Hd [v Hg] Hf Httl.
    revert Hrun. unfold Lock. fold o lockCtx. unfold Lock_fuel. rewrite H0. simpl.
    rewrite Hd.
    rewrite TryLock_answered by done. simpl. rewrite Hg. simpl.
    rewrite H0. simpl. intros [= <- <-]. split; [done|].
    simpl in Htr. apply app_inv_head in Htr. subst evs. done.
Qed.

(** Three retries under sustained contention. *)
Lemma Lock_bounded_retries_witness :
  let o := options_of [scenario.three_retries] in
  let lockCtx := WithTimeout Background (now scenario.held) (LockTimeout o) in
  let env := scenario.quiet in
  (exists r w' evs,
    Lock Background env "orders:42" [scenario.three_retries] scenario.held
      = Some (r, w') /\
    trace w' = (trace scenario.held ++ evs)%list /\
    (attempts evs <= Z.to_nat (MaxRetries o) + 1)%nat /\
    (waits evs <= Z.to_nat (MaxRetries o))%nat /\
    (forall t c, In (Sent t c) evs -> t < now scenario.held + LockTimeout o) /\
    Forall (event_ok lockCtx (RetryDelay o) r) evs /\
    paced (RetryDelay o) evs /\
    (r = Err retries_exhausted ->
     attempts evs = (Z.to_nat (MaxRetries o) + 1)%nat /\
     waits evs = Z.to_nat (MaxRetries o)) /\
    (MaxRetries o = 0 ->
     Done lockCtx (now scenario.held) = false ->
     is_Some (get (now scenario.held) (a_others (env 0%nat) (db scenario.held))
                "orders:42") ->
     fault (a_call (env 0%nat)) = None ->
     0 <= TTL o \/ TTL o = KeepTTL ->
     r = Err retries_exhausted /\ attempts evs = 1%nat /\ waits evs = 0%nat)) /\
  (forall fuel i lastErr retries w0 w1,
     Done lockCtx (now w0) = false ->
     TryLock lockCtx (a_rand (env i)) (a_call (env i)) "orders:42" (TTL o)
       (interfere (a_others (env i)) w0) = (Err ErrLockNotAcquired, w1) ->
     0 <= retries < MaxRetries o ->
     Done lockCtx (now w1 + Z.max 0 (RetryDelay o)) = false ->
     Lock_loop (S fuel) lockCtx env "orders:42" o i lastErr retries w0 =
     Lock_loop fuel lockCtx env "orders:42" o (S i) (Some ErrLockNotAcquired)
       (retries + 1) (block_until (now w1 + Z.max 0 (RetryDelay o)) w1)).
Proof.
  intros o lockCtx env.
  apply (Lock_bounded_retries Background scenario.quiet "orders:42"
           [scenario.three_retries] scenario.held).
  reflexivity.
Defined.

(** With [MaxRetries = 0] and the key held, [Lock] makes one attempt: one
    more than [MaxRetries]. *)
Lemma Lock_attempts_exceed_MaxRetries :
  match Lock Background scenario.quiet "orders:42" [scenario.no_retry] scenario.held with
  | Some (r, w') =>
      r = Err retries_exhausted /\
      attempts (trace w') = 1%nat /\ waits (trace w') = 0%nat /\
      Z.of_nat (attempts (trace w')) > MaxRetries scenario.no_retry
  | None => False
  end.
Proof. vm_compute. repeat split. Qed.

(** The scenario of the specification: with three retries under sustained
    contention [Lock] makes four attempts, sleeps three times a hundred
    milliseconds, and fails with the retries-exhausted reason. *)
Example Lock_three_retries :
  Lock Background scenario.quiet "orders:42" [scenario.three_retries] scenario.held
  = Some (Err retries_exhausted,
          mkWorld (db scenario.held) (300 * time.Millisecond)
            [Sent 0 (SETNX "orders:42" "lock_0" (30 * time.Second));
             Waited 0 (100 * time.Millisecond);
             Sent (100 * time.Millisecond)
               (SETNX "orders:42" "lock_100000000" (30 * time.Second));
             Waited (100 * time.Millisecond) (200 * time.Millisecond);
             Sent (200 * time.Millisecond)
               (SETNX "orders:42" "lock_200000000" (30 * time.Second));
             Waited (200 * time.Millisecond) (300 * time.Millisecond);
             Sent (300 * time.Millisecond)
               (SETNX "orders:42" "lock_300000000" (30 * time.Second))]
            []).
Proof. vm_compute. reflexivity. Qed.

(** C4.  Let [d] be the overall deadline, the end of the context [Lock]
    works under.  At any iteration of the loop: when [d] has been reached
    on entry, the loop returns the timeout and sends nothing; and when a
    contended attempt with retries left is followed by a wait (of a
    positive delay) during which [d] elapses, the loop returns the timeout of the wait at that instant,
    without another attempt.  For the whole run, which always returns:
    every attempt leaves before [d], and when [d] has passed at the start
    nothing is sent at all; no wait runs past [d]; a wait during which [d]
    elapses ends at [d], is the last event of the run and makes [Lock]
    return the timeout of the wait; and when the first attempt finds the
    key held, a retry is allowed and [d] falls before the end of the first
    wait (the delay being positive), the run is that attempt and that wait, and the result is the
    timeout of the wait.  That error does not wrap [ErrLockNotAcquired],
    while the retries-exhausted error does, so the two are told apart. *)
Theorem Lock_deadline_checks ctx env k opts w :
  let o := options_of opts in
  let lockCtx := WithTimeout ctx (now w) (LockTimeout o) in
  MaxRetries o < time.MaxInt64 ->
  exists d,
    doneAt lockCtx = Some d /\ d <= now w + LockTimeout o /\
    (forall fuel i lastErr retries w0,
        d <= now w0 ->
        Lock_loop (S fuel) lockCtx env k o i lastErr retries w0 =
        Some (Err (timeout_before_attempt (default (cause lockCtx) lastErr)), w0)) /\
    (forall fuel i lastErr retries w0 w1,
        now w0 < d ->
        TryLock lockCtx (a_rand (env i)) (a_call (env i)) k (TTL o)
          (interfere (a_others (env i)) w0) = (Err ErrLockNotAcquired, w1) ->
        0 <= retries < MaxRetries o ->
        0 < RetryDelay o ->
        d < now w1 + RetryDelay o ->
        Lock_loop (S fuel) lockCtx env k o i lastErr retries w0 =
        Some (Err (timeout_during_retry (cause lockCtx)),
              block_until (Z.max (now w1) d) w1)) /\
    (exists r w' evs,
        Lock ctx env k opts w = Some (r, w') /\
        trace w' = (trace w ++ evs)%list /\
        (forall t c, In (Sent t c) evs -> t < d) /\
        (d <= now w -> evs = [] /\ r = Err (timeout_before_attempt (cause lockCtx))) /\
        (forall a b, In (Waited a b) evs -> a <= b <= Z.max a d) /\
        (forall evs0 a b evs1,
            evs = (evs0 ++ Waited a b :: evs1)%list ->
            a <= d < a + Z.max 0 (RetryDelay o) ->
            b = d /\ evs1 = [] /\ r = Err (timeout_during_retry (cause lockCtx))) /\
        (now w < d ->
         is_Some (get (now w) (a_others (env 0%nat) (db w)) k) ->
         fault (a_call (env 0%nat)) = None ->
         0 <= TTL o \/ TTL o = KeepTTL ->
         1 <= MaxRetries o ->
         0 < RetryDelay o ->
         let t1 := now w + Z.max 0 (latency (a_call (env 0%nat))) in
         d < t1 + RetryDelay o ->
         r = Err (timeout_during_retry (cause lockCtx)) /\
         now w' = Z.max t1 d /\
         evs = [Sent (now w)
                  (SETNX k (generateLockValue (a_rand (env 0%nat)) (now w)) (TTL o));
                Waited t1 (Z.max t1 d)])) /\
    errors_Is (timeout_during_retry (cause lockCtx)) ErrLockNotAcquired = false /\
    errors_Is retries_exhausted ErrLockNotAcquired = true /\
    timeout_during_retry (cause lockCtx) <> retries_exhausted.
Proof.
  intros o lockCtx Hmax.
  destruct (WithTimeout_deadline ctx (now w) (LockTimeout o)) as (d & Hd & Hle).
  fold lockCtx in Hd.
  assert (forall t, Done lockCtx t = (d <=? t)) as HDone.
  { intros t. unfold Done. by rewrite Hd. }
  exists d. split; [done|]. split; [done|].
  split; [|split; [|split; [|split; [|split]]]].
  - intros fuel i lastErr retries w0 Hpast.
    apply Lock_loop_done. rewrite HDone. by apply Z.leb_le.
  - intros fuel i lastErr retries w0 w1 Hopen Ht Hr Hpos Hcut.
    apply Lock_loop_cut_short; try done. rewrite HDone. by apply Z.leb_gt.
  - destruct (Lock_loop_run lockCtx env k o (Lock_fuel o) 0 None 0 w)
      as (r & w' & evs & Hrun & Htr & _ & _ & Hev & Hnil & Hlast);
      [lia|done|unfold Lock_fuel; lia|].
    rewrite Forall_forall in Hev.
    exists r, w', evs. split; [exact Hrun|]. split; [done|].
    split; [|split; [|split; [|split]]].
    + intros t c Hin. specialize (Hev _ (proj2 (list_elem_of_In _ _) Hin)).
      simpl in Hev. rewrite HDone in Hev. apply Z.leb_gt in Hev. lia.
    + intros Hpast.
      assert (Done lockCtx (now w) = true) as Hdone.
      { rewrite HDone. by apply Z.leb_le. }
      split; [by apply Hnil|].
      revert Hrun. unfold Lock_fuel. simpl. rewrite Hdone. by intros [= <- _].
    + intros a b Hin. specialize (Hev _ (proj2 (list_elem_of_In _ _) Hin)).
      simpl in Hev. destruct Hev as (Hab & Hb & _). specialize (Hb d Hd). lia.
    + intros evs0 a b evs1 Heq Hmid.
      assert (Waited a b ∈ evs) as Hin.
      { rewrite Heq. apply list_elem_of_In, in_or_app. right. by left. }
      specialize (Hev _ Hin). simpl in Hev. destruct Hev as (Hab & Hb & Hcut).
      specialize (Hb d Hd).
      destruct Hcut as [Hfull|(Hlt & Hdone & Hr)]; [lia|].
      assert (b = d) as Hbd.
      { rewrite HDone in Hdone. apply Z.leb_le in Hdone. lia. }
      split; [done|]. split; [|done]. by eapply Hlast.
    + intros Hopen [v Hg] Hf Httl Hretry Hpos t1 Hcut.
      assert (Done lockCtx (now w) = false) as Hnd.
      { rewrite HDone. by apply Z.leb_gt. }
      pose proof (TryLock_answered lockCtx (a_rand (env 0%nat)) (a_call (env 0%nat))
                    k (TTL o) (interfere (a_others (env 0%nat)) w) Hnd Hf Httl) as Ht.
      simpl in Ht. rewrite Hg in Ht.
      revert Hrun. unfold Lock. fold o lockCtx. unfold Lock_fuel.
      erewrite Lock_loop_cut_short; [|done|done|exact Ht|lia|exact Hd|done|simpl; lia].
      simpl. intros [= <- <-]. simpl in Htr.
      split; [done|]. split; [done|].
      rewrite <- app_assoc in Htr. by apply app_inv_head in Htr.
  - unfold cause. by destruct (canceled lockCtx).
  - done.
  - unfold timeout_during_retry, retries_exhausted. congruence.
Qed.

(** A budget of fifty milliseconds and a retry delay of a hundred, under
    sustained contention: the deadline elapses during the first wait. *)
Lemma Lock_deadline_checks_witness :
  let o := options_of [scenario.short_budget] in
  let lockCtx := WithTimeout Background (now scenario.held) (LockTimeout o) in
  let env := scenario.quiet in
  let w := scenario.held in
  exists d,
    doneAt lockCtx = Some d /\ d <= now w + LockTimeout o /\
    (forall fuel i lastErr retries w0,
        d <= now w0 ->
        Lock_loop (S fuel) lockCtx env "orders:42" o i lastErr retries w0 =
        Some (Err (timeout_before_attempt (default (cause lockCtx) lastErr)), w0)) /\
    (forall fuel i lastErr retries w0 w1,
        now w0 < d ->
        TryLock lockCtx (a_rand (env i)) (a_call (env i)) "orders:42" (TTL o)
          (interfere (a_others (env i)) w0) = (Err ErrLockNotAcquired, w1) ->
        0 <= retries < MaxRetries o ->
        0 < RetryDelay o ->
        d < now w1 + RetryDelay o ->
        Lock_loop (S fuel) lockCtx env "orders:42" o i lastErr retries w0 =
        Some (Err (timeout_during_retry (cause lockCtx)),
              block_until (Z.max (now w1) d) w1)) /\
    (exists r w' evs,
        Lock Background env "orders:42" [scenario.short_budget] w = Some (r, w') /\
        trace w' = (trace w ++ evs)%list /\
        (forall t c, In (Sent t c) evs -> t < d) /\
        (d <= now w -> evs = [] /\ r = Err (timeout_before_attempt (cause lockCtx))) /\
        (forall a b, In (Waited a b) evs -> a <= b <= Z.max a d) /\
        (forall evs0 a b evs1,
            evs = (evs0 ++ Waited a b :: evs1)%list ->
            a <= d < a + Z.max 0 (RetryDelay o) ->
            b = d /\ evs1 = [] /\ r = Err (timeout_during_retry (cause lockCtx))) /\
        (now w < d ->
         is_Some (get (now w) (a_others (env 0%nat) (db w)) "orders:42") ->
         fault (a_call (env 0%nat)) = None ->
         0 <= TTL o \/ TTL o = KeepTTL ->
         1 <= MaxRetries o ->
         0 < RetryDelay o ->
         let t1 := now w + Z.max 0 (latency (a_call (env 0%nat))) in
         d < t1 + RetryDelay o ->
         r = Err (timeout_during_retry (cause lockCtx)) /\
         now w' = Z.max t1 d /\
         evs = [Sent (now w)
                  (SETNX "orders:42" (generateLockValue (a_rand (env 0%nat)) (now w))
                     (TTL o));
                Waited t1 (Z.max t1 d)])) /\
    errors_Is (timeout_during_retry (cause lockCtx)) ErrLockNotAcquired = false /\
    errors_Is retries_exhausted ErrLockNotAcquired = true /\
    timeout_during_retry (cause lockCtx) <> retries_exhausted.
Proof.
  intros o lockCtx env w.
  apply (Lock_deadline_checks Background scenario.quiet "orders:42"
           [scenario.short_budget] scenario.held).
  reflexivity.
Defined.

(** The run of that scenario: one attempt, a wait cut at fifty
    milliseconds, the timeout of the wait. *)
Example Lock_times_out_during_wait :
  Lock Background scenario.quiet "orders:42" [scenario.short_budget] scenario.held
  = Some (Err (timeout_during_retry DeadlineExceeded),
          mkWorld (db scenario.held) (50 * time.Millisecond)
            [Sent 0 (SETNX "orders:42" "lock_0" (30 * time.Second));
             Waited 0 (50 * time.Millisecond)]
            []).
Proof. vm_compute. reflexivity. Qed.

(** *** WithLock *)

(** The handle [Lock] returns is for the key asked for. *)
Lemma Lock_loop_key lockCtx env k o : forall fuel i lastErr retries w lock w',
  Lock_loop fuel lockCtx env k o i lastErr retries w = Some (Ok lock, w') ->
  key lock = k.
Proof.
  induction fuel as [|fuel IH]; intros i lastErr retries w lock w'; [done|].
  simpl. destruct (Done lockCtx (now w)); [by destruct lastErr|].
  destruct (TryLock lockCtx _ _ k (TTL o) _) as [[l|err] w1] eqn:Ht.
  - intros [= <- <-]. revert Ht. unfold TryLock.
    destruct (rdb_SetNX _ _ _ _ _ _) as [[[|]|] ?]; by intros [= <- _].
  - destruct (negb _); [done|]. destruct (_ >? _); [done|].
    destruct (select_wait _ _ _ _) as [[|] t]; [done|]. apply IH.
Qed.

(** C9, what the code does.  When [Lock] fails, [WithLock] returns that
    error and runs neither the critical section nor [Unlock].  When [Lock]
    succeeds, [WithLock] runs the critical section and then [Unlock] with
    the handle it acquired, however the critical section ended (the release
    script is sent unless the caller's context is done by then), and its
    outcome is the critical section's.  The last conjunct is the defect: the
    deferred closure is commented "Log the unlock error but don't return
    it", but the branch that receives the error is empty, so whatever
    [Unlock] returns, nothing is handed to the logger: a failed release is
    reported nowhere. *)
Theorem WithLock_forwards_outcome ctx env unlock_call k fn opts w :
  match Lock ctx env k opts w with
  | None => WithLock ctx env unlock_call k fn opts w = None
  | Some (Err err, w1) =>
      WithLock ctx env unlock_call k fn opts w = Some (Returns (Some err), w1)
  | Some (Ok lock, w1) =>
      let out := fst (fn w1) in
      let w2 := snd (fn w1) in
      let released := Unlock ctx unlock_call lock w2 in
      WithLock ctx env unlock_call k fn opts w = Some (out, snd released) /\
      key lock = k /\
      (Done ctx (now w2) = false ->
       trace (snd released) =
         (trace w2 ++ [Sent (now w2) (EVAL UnlockScript k (value lock) None)])%list) /\
      logged (snd released) = logged w2
  end.
Proof.
  unfold WithLock. destruct (Lock ctx env k opts w) as [[[lock|err] w1]|] eqn:HL;
    [|done|done].
  apply Lock_loop_key in HL as Hk.
  destruct (fn w1) as [out w2]. simpl.
  split; [|split; [done|split]].
  - destruct (Unlock ctx unlock_call lock w2) as [[e|] w3]; done.
  - intros Hd. unfold Unlock, rdb_Eval, roundtrip. rewrite Hd, Hk.
    destruct (fault unlock_call); [done|].
    destruct (eval _ _ _ _ _ _) as [n d']. simpl. by destruct (n =? 0).
  - unfold Unlock, rdb_Eval, roundtrip.
    destruct (Done ctx (now w2)); [done|].
    destruct (fault unlock_call); [done|].
    destruct (eval _ _ _ _ _ _) as [n d']. simpl. by destruct (n =? 0).
Qed.

(** The failing run: the critical section outlives the lease, the release
    fails with [ErrLockNotOwned], [WithLock] returns the critical section's
    nil, and nothing has been logged: the failed release left no sign. *)
Lemma WithLock_drops_unlock_error :
  match Lock Background scenario.quiet "orders:42" [scenario.brief_lease]
          scenario.empty with
  | Some (Ok lock, w1) =>
      let w2 := snd (scenario.overruns w1) in
      fst (Unlock Background answered lock w2) = Some ErrLockNotOwned /\
      match WithLock Background scenario.quiet answered "orders:42"
              scenario.overruns [scenario.brief_lease] scenario.empty with
      | Some (out, w') => out = Returns None /\ logged w' = []
      | None => False
      end
  | _ => False
  end.
Proof. vm_compute. repeat split. Qed.

(** The lock is released after a critical section that fails or panics: a
    later [TryLock] on the key succeeds. *)
Example WithLock_releases_after_failure :
  match WithLock Background scenario.quiet answered "orders:42"
          scenario.fails [scenario.three_retries] scenario.empty with
  | Some (out, w') =>
      out = Returns (Some (RedisError "insufficient stock")) /\
      is_Ok (fst (TryLock Background None answered "orders:42" time.Second w')) = true
  | None => False
  end.
Proof. vm_compute. repeat split. Qed.

Example WithLock_releases_after_panic :
  match WithLock Background scenario.quiet answered "orders:42"
          scenario.panics [scenario.three_retries] scenario.empty with
  | Some (out, w') =>
      out = Panics "index out of range" /\
      is_Ok (fst (TryLock Background None answered "orders:42" time.Second w')) = true
  | None => False
  end.
Proof. vm_compute. repeat split. Qed.

(** *** Extend *)

(** C10, as the code has it.  [Extend] sends the script one expiry
    argument, [int64(ttl.Seconds())]: the float64 number of seconds with its
    fraction discarded.  For every [ttl] strictly between minus one second
    and one second that argument is 0.  On success the handle records the
    full [ttl]; on failure the handle is unchanged. *)
Theorem Extend_sends_whole_seconds ctx call lock ttl w :
  Done ctx (now w) = false ->
  let secs := float64.to_int64 (time.Seconds ttl) in
  let out := Extend ctx call lock ttl w in
  trace (snd out) =
    (trace w ++ [Sent (now w) (EVAL ExtendScript (key lock) (value lock) (Some secs))])%list /\
  (- time.Second < ttl < time.Second -> secs = 0) /\
  (fst (fst out) = None -> cache.ttl (snd (fst out)) = ttl) /\
  (fst (fst out) <> None -> snd (fst out) = lock) /\
  (fault call = None -> get (now w) (db w) (key lock) = Some (value lock) ->
     fst (fst out) = None /\
     db (snd out) =
       <[key lock := mkEntry (value lock) (Some (now w + secs * time.Second))]> (db w)).
Proof.
  intros Hd secs out. subst out.
  unfold Extend, rdb_Eval, roundtrip. rewrite Hd. fold secs.
  rewrite eval_extend_spec.
  split; [|split; [apply Seconds_below_one|]].
  - destruct (fault call) as [f|]; [done|].
    case_bool_decide; done.
  - destruct (fault call) as [f|]; [by repeat split|].
    case_bool_decide as Hg; simpl; repeat split; try done.
Qed.

(** The owner extends a held lock by half a second. *)
Lemma Extend_sends_whole_seconds_witness :
  let lock := mkLock "orders:42" "someone-else" (30 * time.Second) in
  let ttl := 500 * time.Millisecond in
  let w := scenario.held in
  let secs := float64.to_int64 (time.Seconds ttl) in
  let out := Extend Background answered lock ttl w in
  trace (snd out) =
    (trace w ++ [Sent (now w) (EVAL ExtendScript (key lock) (value lock) (Some secs))])%list /\
  (- time.Second < ttl < time.Second -> secs = 0) /\
  (fst (fst out) = None -> cache.ttl (snd (fst out)) = ttl) /\
  (fst (fst out) <> None -> snd (fst out) = lock) /\
  (fault answered = None -> get (now w) (db w) (key lock) = Some (value lock) ->
     fst (fst out) = None /\
     db (snd out) =
       <[key lock := mkEntry (value lock) (Some (now w + secs * time.Second))]> (db w)).
Proof.
  intros lock ttl w.
  apply (Extend_sends_whole_seconds Background answered lock ttl w).
  reflexivity.
Defined.

(** A lease of minus two seconds is under one second, and the store is sent
    the expiry -2, not 0. *)
Lemma Extend_negative_ttl_not_zero :
  let lock := mkLock "orders:42" "someone-else" (30 * time.Second) in
  - 2 * time.Second < time.Second /\
  trace (snd (Extend Background answered lock (- 2 * time.Second) scenario.held)) =
    [Sent 0 (EVAL ExtendScript "orders:42" "someone-else" (Some (-2)))].
Proof. vm_compute. split; reflexivity. Qed.

(** What the store is sent for some leases.  The last one shows the float64
    sum rounding up to the next whole second. *)
Example whole_seconds_sent :
  map (fun d => float64.to_int64 (time.Seconds d))
    [30 * time.Second; 1500 * time.Millisecond; 999999999; -999999999;
     -1500 * time.Millisecond; 16777216 * time.Second + 999999999]
  = [30; 1; 0; 0; -1; 16777217].
Proof. vm_compute. reflexivity. Qed.

(** After the owner extends by half a second the handle says 500ms, the
    store was sent 0, and the record is past its expiry. *)
Example Extend_subsecond_releases :
  let lock := mkLock "orders:42" "someone-else" (30 * time.Second) in
  let out := Extend Background answered lock (500 * time.Millisecond) scenario.held in
  fst (fst out) = None /\
  cache.ttl (snd (fst out)) = 500 * time.Millisecond /\
  get (now (snd out)) (db (snd out)) "orders:42" = None.
Proof. vm_compute. repeat split. Qed.

End LockProperties.

(** * Further properties of the lock *)

(** Arithmetic over the named durations. *)
Ltac time_lia :=
  unfold time.MinInt64, time.MaxInt64, time.Hour, time.Minute, time.Second,
    time.Millisecond, time.Microsecond, time.Nanosecond in *;
  lia.

Section LockCoverage.

Import redis context cache lockspec lockops.

(** *** IsLocked *)

Lemma cause_not_Nil ctx : errors_Is (cause ctx) RedisNil = false.
Proof. unfold cause. by destruct (canceled ctx). Qed.

Lemma fault_error_not_Nil f : errors_Is (fault_error f) RedisNil = false.
Proof. unfold fault_error. by destruct (f_kind f). Qed.

Lemma String_eqb_decide (a b : string) : String.eqb a b = bool_decide (a = b).
Proof.
  case_bool_decide as H.
  - by apply String.eqb_eq.
  - by apply String.eqb_neq.
Qed.

(** X1.  [IsLocked] only reads.  It never changes the database or the
    log.  With a context that is already done it sends nothing and returns
    the context's error as it is; a failed round trip returns the client's
    error as it is (neither is wrapped).  When the server answers, the
    result is [true] exactly when the key is live and carries the handle's
    token: a key that is missing, expired or held under another token is
    [false] without an error. *)
Theorem IsLocked_reads_ownership ctx call lock w :
  let out := IsLocked ctx call lock w in
  db (snd out) = db w /\
  logged (snd out) = logged w /\
  (Done ctx (now w) = true -> out = (Err (cause ctx), w)) /\
  (Done ctx (now w) = false ->
     trace (snd out) = (trace w ++ [Sent (now w) (GET (key lock))])%list /\
     match fault call with
     | Some f => fst out = Err (fault_error f)
     | None =>
         fst out =
           Ok (bool_decide (get (now w) (db w) (key lock) = Some (value lock)))
     end).
Proof.
  unfold IsLocked, rdb_Get, roundtrip.
  destruct (Done ctx (now w)) eqn:Hd.
  - rewrite cause_not_Nil. by repeat split.
  - destruct (fault call) as [f|].
    + rewrite fault_error_not_Nil. simpl.
      repeat split; try done.
      by destruct (f_applied f), (get (now w) (db w) (key lock)).
    + destruct (get (now w) (db w) (key lock)) as [v|] eqn:Hg; simpl.
      * repeat split; try done. rewrite String_eqb_decide.
        f_equal. apply bool_decide_ext. split; congruence.
      * repeat split; try done.
Qed.

(** *** The operations and the rest of the database *)

(** X2.  A lock operation touches one key.  Whatever the outcome
    (success, refusal, a lost reply, a context that is done), the records of
    all other keys are what they were, the log is what it was, the clock has
    not gone back, and the history has grown by at most one command, sent at
    the instant the operation started and naming the operation's key. *)
Theorem lock_operations_touch_one_key op w :
  (forall k', target op <> Some k' -> db (run op w) !! k' = db w !! k') /\
  logged (run op w) = logged w /\
  now w <= now (run op w) /\
  (trace (run op w) = trace w \/
   exists cmd, trace (run op w) = (trace w ++ [Sent (now w) cmd])%list /\
               target op = Some (command_key cmd)).
Proof.
  split; [|split; [|split]].
  - intros k' Hk.
    destruct (run_effect op w) as [_ [->|[H|[H|H]]]]; [done| | |].
    + destruct H as (ctx & rand & call & k & ttl & exp & -> & _ & ->).
      simpl in Hk. apply lookup_insert_ne. congruence.
    + destruct H as (ctx & call & lock & -> & _ & ->).
      simpl in Hk. apply lookup_delete_ne. congruence.
    + destruct H as (ctx & call & lock & ttl & exp & -> & _ & ->).
      simpl in Hk. apply lookup_insert_ne. congruence.
  - destruct op as [ctx rand call k ttl|ctx call lock|ctx call lock ttl|ctx call lock|dt];
      simpl; [| | | |done].
    + unfold TryLock, rdb_SetNX, roundtrip.
      destruct (Done ctx (now w)); [done|].
      destruct (fault call); [done|].
      destruct (setnx _ _ _ _ _) as [[[|]|] ?]; done.
    + unfold Unlock, rdb_Eval, roundtrip.
      destruct (Done ctx (now w)); [done|].
      destruct (fault call); [done|].
      destruct (eval _ _ _ _ _ _) as [n ?]. simpl. by destruct (n =? 0).
    + unfold Extend, rdb_Eval, roundtrip.
      destruct (Done ctx (now w)); [done|].
      destruct (fault call); [done|].
      destruct (eval _ _ _ _ _ _) as [n ?]. simpl. by destruct (n =? 0).
    + unfold IsLocked, rdb_Get, roundtrip.
      destruct (Done ctx (now w)); [by rewrite cause_not_Nil|].
      destruct (fault call) as [f|]; [by rewrite fault_error_not_Nil|].
      by destruct (get _ _ _).
  - apply run_effect.
  - destruct op as [ctx rand call k ttl|ctx call lock|ctx call lock ttl|ctx call lock|dt];
      simpl; [| | | |by left].
    + unfold TryLock, rdb_SetNX, roundtrip.
      destruct (Done ctx (now w)); [by left|]. right.
      exists (SETNX k (generateLockValue rand (now w)) ttl). split; [|done].
      destruct (fault call); [done|].
      destruct (setnx _ _ _ _ _) as [[[|]|] ?]; done.
    + unfold Unlock, rdb_Eval, roundtrip.
      destruct (Done ctx (now w)); [by left|]. right.
      exists (EVAL UnlockScript (key lock) (value lock) None). split; [|done].
      destruct (fault call); [done|].
      destruct (eval _ _ _ _ _ _) as [n ?]. simpl. by destruct (n =? 0).
    + unfold Extend, rdb_Eval, roundtrip.
      destruct (Done ctx (now w)); [by left|]. right.
      exists (EVAL ExtendScript (key lock) (value lock)
                (Some (float64.to_int64 (time.Seconds ttl)))).
      split; [|done].
      destruct (fault call); [done|].
      destruct (eval _ _ _ _ _ _) as [n ?]. simpl. by destruct (n =? 0).
    + unfold IsLocked, rdb_Get, roundtrip.
      destruct (Done ctx (now w)).
      { rewrite cause_not_Nil. by left. }
      right. exists (GET (key lock)). split; [|done].
      destruct (fault call) as [f|].
      { by rewrite fault_error_not_Nil. }
      by destruct (get _ _ _).
Qed.

(** *** The life of a lease *)

(** What a successful [TryLock] says about the call and the world. *)
Lemma TryLock_Ok_inv ctx rand call k ttl w lock w1 :
  TryLock ctx rand call k ttl w = (Ok lock, w1) ->
  let v := generateLockValue rand (now w) in
  Done ctx (now w) = false /\ fault call = None /\
  (0 <= ttl \/ ttl = KeepTTL) /\
  get (now w) (db w) k = None /\
  lock = mkLock k v ttl /\
  w1 = mkWorld (<[k := mkEntry v (if (ttl =? 0) || (ttl =? KeepTTL) then None
                                  else Some (now w + sent_ttl ttl))]> (db w))
         (now w + Z.max 0 (latency call))
         (trace w ++ [Sent (now w) (SETNX k v ttl)]) (logged w).
Proof.
  unfold TryLock, rdb_SetNX, roundtrip.
  destruct (Done ctx (now w)); [done|].
  destruct (fault call); [done|].
  unfold setnx.
  destruct ((ttl <? 0) && negb (ttl =? KeepTTL)) eqn:Hbad; [done|].
  destruct (get (now w) (db w) k); [done|].
  intros [= <- <-]. repeat split; try done.
  unfold KeepTTL in *. destruct (ttl <? 0) eqn:Hneg; [|lia].
  destruct (ttl =? -1) eqn:Hk; [lia|done].
Qed.

Lemma sent_ttl_bounds ttl :
  ttl - time.Millisecond < sent_ttl ttl <= Z.max ttl time.Millisecond.
Proof.
  unfold sent_ttl. change time.Millisecond with 1000000.
  destruct (ttl <? 1000000) eqn:H; [lia|].
  pose proof (Z.mul_div_le ttl 1000000 ltac:(lia)).
  pose proof (Z.mod_pos_bound ttl 1000000 ltac:(lia)).
  pose proof (Z.div_mod ttl 1000000 ltac:(lia)). lia.
Qed.

Lemma get_insert_eq t (d : DB) k e :
  get t (<[k := e]> d) k = if live t e then Some (redis.value e) else None.
Proof. unfold get. by rewrite lookup_insert_eq. Qed.

Lemma get_delete_eq t (d : DB) k : get t (delete k d) k = None.
Proof. unfold get. by rewrite lookup_delete_eq. Qed.

(** A key that shows a value refuses every [TryLock], whatever the caller
    asks for and however the round trip goes. *)
Lemma TryLock_refused ctx rand call k ttl w v :
  get (now w) (db w) k = Some v ->
  is_Ok (fst (TryLock ctx rand call k ttl w)) = false /\
  db (snd (TryLock ctx rand call k ttl w)) = db w.
Proof.
  intros Hg.
  destruct (TryLock_cases ctx rand call k ttl w)
    as [[_ ->]|[(_ & -> & _ & ->)|(_ & Hn & _)]]; [done|done|congruence].
Qed.

(** X3.  The life of a lease.  When [TryLock] succeeds with a positive
    [ttl], the record it wrote expires [sent_ttl ttl] after the instant the
    command was sent: the lease is [ttl] cut down to whole milliseconds (at
    least one), so it is shorter than the [ttl] the handle records by less
    than a millisecond.  As long as nobody changes the database, the
    holder's [IsLocked] is [true] strictly before that instant and [false]
    from it on; every [TryLock] on the key before it is refused and leaves
    the database alone, and from it on an answered [TryLock] succeeds. *)
Theorem TryLock_lease_lifetime ctx rand call k ttl w lock w1 :
  0 < ttl ->
  TryLock ctx rand call k ttl w = (Ok lock, w1) ->
  let expiry := now w + sent_ttl ttl in
  lock = mkLock k (generateLockValue rand (now w)) ttl /\
  db w1 = <[k := mkEntry (value lock) (Some expiry)]> (db w) /\
  ttl - time.Millisecond < sent_ttl ttl <= Z.max ttl time.Millisecond /\
  (forall ctx' call' w2,
     db w2 = db w1 -> Done ctx' (now w2) = false -> fault call' = None ->
     fst (IsLocked ctx' call' lock w2) = Ok (now w2 <? expiry)) /\
  (forall ctx' rand' call' ttl' w2,
     db w2 = db w1 -> now w2 < expiry ->
     is_Ok (fst (TryLock ctx' rand' call' k ttl' w2)) = false /\
     db (snd (TryLock ctx' rand' call' k ttl' w2)) = db w2) /\
  (forall ctx' rand' call' ttl' w2,
     db w2 = db w1 -> expiry <= now w2 ->
     Done ctx' (now w2) = false -> fault call' = None ->
     0 <= ttl' \/ ttl' = KeepTTL ->
     is_Ok (fst (TryLock ctx' rand' call' k ttl' w2)) = true).
Proof.
  intros Hpos Hok expiry.
  destruct (TryLock_Ok_inv _ _ _ _ _ _ _ _ Hok) as (_ & _ & _ & _ & -> & ->).
  replace ((ttl =? 0) || (ttl =? KeepTTL)) with false
    by (symmetry; unfold KeepTTL; apply orb_false_iff; split; apply Z.eqb_neq; lia).
  fold expiry. cbn [db cache.value].
  split; [done|]. split; [done|]. split; [apply sent_ttl_bounds|].
  assert (forall t, get t (<[k := mkEntry (generateLockValue rand (now w)) (Some expiry)]>
                             (db w)) k
                    = if t <? expiry then Some (generateLockValue rand (now w)) else None)
    as Hget by (intros t; by rewrite get_insert_eq).
  split; [|split].
  - intros ctx' call' w2 Hdb Hd Hf.
    unfold IsLocked, rdb_Get, roundtrip. rewrite Hd, Hf, Hdb, Hget. cbn [key cache.value].
    destruct (now w2 <? expiry); simpl; [|done].
    by rewrite String.eqb_refl.
  - intros ctx' rand' call' ttl' w2 Hdb Hlt.
    apply (TryLock_refused _ _ _ _ _ _ (generateLockValue rand (now w))).
    rewrite Hdb, Hget. by replace (now w2 <? expiry) with true by (symmetry; apply Z.ltb_lt; lia).
  - intros ctx' rand' call' ttl' w2 Hdb Hge Hd Hf Httl.
    rewrite TryLock_answered by done.
    rewrite Hdb, Hget.
    by replace (now w2 <? expiry) with false by (symmetry; apply Z.ltb_ge; lia).
Qed.

(** A lease of 1.5 ms on a free key. *)
Lemma TryLock_lease_lifetime_witness :
  let ttl := 1500 * time.Microsecond in
  let w := scenario.empty in
  let lock := mkLock "orders:42" "lock_0" ttl in
  let w1 := mkWorld {[ "orders:42" := mkEntry "lock_0" (Some time.Millisecond) ]}
              0 [Sent 0 (SETNX "orders:42" "lock_0" ttl)] [] in
  let expiry := now w + sent_ttl ttl in
  lock = mkLock "orders:42" (generateLockValue None (now w)) ttl /\
  db w1 = <["orders:42" := mkEntry (value lock) (Some expiry)]> (db w) /\
  ttl - time.Millisecond < sent_ttl ttl <= Z.max ttl time.Millisecond /\
  (forall ctx' call' w2,
     db w2 = db w1 -> Done ctx' (now w2) = false -> fault call' = None ->
     fst (IsLocked ctx' call' lock w2) = Ok (now w2 <? expiry)) /\
  (forall ctx' rand' call' ttl' w2,
     db w2 = db w1 -> now w2 < expiry ->
     is_Ok (fst (TryLock ctx' rand' call' "orders:42" ttl' w2)) = false /\
     db (snd (TryLock ctx' rand' call' "orders:42" ttl' w2)) = db w2) /\
  (forall ctx' rand' call' ttl' w2,
     db w2 = db w1 -> expiry <= now w2 ->
     Done ctx' (now w2) = false -> fault call' = None ->
     0 <= ttl' \/ ttl' = KeepTTL ->
     is_Ok (fst (TryLock ctx' rand' call' "orders:42" ttl' w2)) = true).
Proof.
  intros ttl w lock w1.
  apply (TryLock_lease_lifetime Background None answered "orders:42" ttl w lock w1).
  - reflexivity.
  - vm_compute. reflexivity.
Defined.

(** *** Release *)

(** X4.  What a successful [Unlock] means and leaves behind.  [Unlock]
    returns nil only if the key was live under the handle's token, and it
    has then deleted exactly that record.  From then on, as long as nobody
    writes the key, the handle is spent: a second [Unlock] answers
    [ErrLockNotOwned], [IsLocked] answers [false], and an answered
    [TryLock] on the key succeeds. *)
Theorem Unlock_frees_key ctx call lock w :
  fst (Unlock ctx call lock w) = None ->
  let w1 := snd (Unlock ctx call lock w) in
  get (now w) (db w) (key lock) = Some (value lock) /\
  db w1 = delete (key lock) (db w) /\
  (forall ctx' call' w2,
     db w2 = db w1 -> Done ctx' (now w2) = false -> fault call' = None ->
     fst (Unlock ctx' call' lock w2) = Some ErrLockNotOwned /\
     db (snd (Unlock ctx' call' lock w2)) = db w2 /\
     fst (IsLocked ctx' call' lock w2) = Ok false /\
     (forall rand ttl, 0 <= ttl \/ ttl = KeepTTL ->
        is_Ok (fst (TryLock ctx' rand call' (key lock) ttl w2)) = true)).
Proof.
  intros Hnil w1. subst w1. revert Hnil.
  unfold Unlock at 1 2 3, rdb_Eval, roundtrip.
  destruct (Done ctx (now w)); [done|].
  destruct (fault call); [done|].
  rewrite eval_unlock_spec.
  case_bool_decide as Hg; [|done].
  intros _. cbn [snd db]. split; [done|]. split; [done|].
  intros ctx' call' w2 Hdb Hd Hf.
  assert (get (now w2) (db w2) (key lock) = None) as Hfree
    by (rewrite Hdb; apply get_delete_eq).
  rewrite Unlock_answered by done.
  rewrite bool_decide_eq_false_2 by congruence.
  split; [done|]. split; [done|]. split.
  - unfold IsLocked, rdb_Get, roundtrip. by rewrite Hd, Hf, Hfree.
  - intros rand ttl Httl. rewrite TryLock_answered by done. by rewrite Hfree.
Qed.

(** The holder of scenario.held releases it. *)
Lemma Unlock_frees_key_witness :
  let lock := mkLock "orders:42" "someone-else" (30 * time.Second) in
  let w := scenario.held in
  let w1 := snd (Unlock Background answered lock w) in
  get (now w) (db w) (key lock) = Some (value lock) /\
  db w1 = delete (key lock) (db w) /\
  (forall ctx' call' w2,
     db w2 = db w1 -> Done ctx' (now w2) = false -> fault call' = None ->
     fst (Unlock ctx' call' lock w2) = Some ErrLockNotOwned /\
     db (snd (Unlock ctx' call' lock w2)) = db w2 /\
     fst (IsLocked ctx' call' lock w2) = Ok false /\
     (forall rand ttl, 0 <= ttl \/ ttl = KeepTTL ->
        is_Ok (fst (TryLock ctx' rand call' (key lock) ttl w2)) = true)).
Proof.
  intros lock w.
  apply (Unlock_frees_key Background answered lock w).
  reflexivity.
Defined.

(** *** Extend *)

(** [int64(d.Seconds())] is exact on whole seconds: every int64 duration
    that is a multiple of a second converts to its number of seconds. *)
Lemma Seconds_whole n :
  time.MinInt64 <= n * time.Second <= time.MaxInt64 ->
  float64.to_int64 (time.Seconds (n * time.Second)) = n.
Proof.
  intros Hn. unfold time.Seconds.
  change time.Second with 1000000000 in *.
  unfold time.MinInt64, time.MaxInt64 in Hn.
  rewrite Z.quot_mul, Z.rem_mul by done.
  assert (float64.div (float64.of_int 0) (float64.of_int 1000000000) = S754_zero false)
    as -> by (vm_compute; reflexivity).
  assert (forall s p, Zpos p < 2 ^ 34 ->
            float64.to_int64
              (float64.add (binary_round float64.prec float64.emax s p 0) (S754_zero false))
            = if s then Zneg p else Zpos p) as Hexact.
  { intros s p Hp.
    set (dg := Zdigits2 (Zpos p)).
    pose proof (Zdigits2_bounds (Zpos p) ltac:(lia)) as Hb. fold dg in Hb.
    assert (1 <= dg) as Hdg1 by (unfold dg; simpl; lia).
    assert (dg <= 34) as Hdg34.
    { assert (dg - 1 < 34); [|lia]. apply (Z.pow_lt_mono_r_iff 2); lia. }
    destruct (binary_round_exact s p ltac:(fold dg; lia)) as (mz & Hmz & _ & ->).
    fold dg in Hmz |- *. cbn [float64.add SFadd].
    unfold float64.to_int64.
    assert (match dg - 53 with
            | 0 => Zpos mz
            | Zpos _ => Zpos mz * 2 ^ (dg - 53)
            | Zneg q => Zpos mz / 2 ^ Zpos q
            end = Zpos p) as ->.
    { destruct (dg - 53) as [|q|q] eqn:Hq; [lia|lia|].
      rewrite Hmz. replace (53 - dg) with (Zpos q) by lia.
      apply Z.div_mul. apply Z.pow_nonzero; lia. }
    change (2 ^ 34) with 17179869184 in Hp.
    change (2 ^ 63) with 9223372036854775808.
    destruct s;
      match goal with
      | |- (if ?c then _ else _) = _ =>
          replace c with true
            by (symmetry; apply andb_true_iff; split;
                [apply Z.leb_le|apply Z.ltb_lt]; lia)
      end; lia. }
  change (2 ^ 34) with 17179869184 in Hexact.
  change (2 ^ 63) with 9223372036854775808 in Hn.
  destruct n as [|p|p].
  - vm_compute. reflexivity.
  - apply (Hexact false p). lia.
  - apply (Hexact true p). lia.
Qed.

(** X5.  [Extend] compares before it writes.  When the key does not show
    the handle's token (it is free, expired, or held by another token),
    [Extend] changes neither the database nor the handle and returns an
    error, which is [ErrLockNotOwned] whenever the server answers. *)
Theorem Extend_requires_ownership ctx call lock ttl w :
  let out := Extend ctx call lock ttl w in
  (get (now w) (db w) (key lock) <> Some (value lock) ->
     db (snd out) = db w /\ snd (fst out) = lock /\ fst (fst out) <> None /\
     (Done ctx (now w) = false -> fault call = None ->
        fst (fst out) = Some ErrLockNotOwned)) /\
  (fst (fst out) = None -> get (now w) (db w) (key lock) = Some (value lock)) /\
  (forall k', k' <> key lock -> db (snd out) !! k' = db w !! k').
Proof.
  unfold Extend, rdb_Eval, roundtrip.
  destruct (Done ctx (now w)); [by repeat split|].
  rewrite eval_extend_spec.
  destruct (fault call) as [f|].
  - split; [|split]; [|done|].
    + intros Hne. rewrite bool_decide_eq_false_2 by done.
      by destruct (f_applied f).
    + intros k' Hk. destruct (f_applied f); [|done].
      case_bool_decide; [|done]. simpl. by apply lookup_insert_ne.
  - case_bool_decide as Hg; simpl.
    + split; [done|]. split; [done|]. intros k' Hk. by apply lookup_insert_ne.
    + by repeat split.
Qed.

(** X6.  A lease of whole seconds is extended exactly.  When the owner
    extends by [n] seconds (any int64 duration that is a multiple of a
    second), the script is sent [n], the record expires [n] seconds after
    the instant of the call, and the handle records the same lease; for a
    positive [n] the key shows the owner's token at every instant before that
    expiry. *)
Theorem Extend_whole_seconds ctx call lock n w :
  time.MinInt64 <= n * time.Second <= time.MaxInt64 ->
  Done ctx (now w) = false ->
  fault call = None ->
  get (now w) (db w) (key lock) = Some (value lock) ->
  let out := Extend ctx call lock (n * time.Second) w in
  let expiry := now w + n * time.Second in
  fst (fst out) = None /\
  snd (fst out) = mkLock (key lock) (value lock) (n * time.Second) /\
  trace (snd out) =
    (trace w ++ [Sent (now w) (EVAL ExtendScript (key lock) (value lock) (Some n))])%list /\
  db (snd out) = <[key lock := mkEntry (value lock) (Some expiry)]> (db w) /\
  (forall t, get t (db (snd out)) (key lock) =
             if t <? expiry then Some (value lock) else None).
Proof.
  intros Hn Hd Hf Hg out expiry. subst out.
  unfold Extend, rdb_Eval, roundtrip.
  rewrite Hd, Hf, Seconds_whole by done.
  rewrite eval_extend_spec, bool_decide_eq_true_2 by done.
  change (1 =? 0) with false. cbn [fst snd db trace]. repeat split.
  intros t. by rewrite get_insert_eq.
Qed.

(** The holder of scenario.held extends by ten minutes. *)
Lemma Extend_whole_seconds_witness :
  let lock := mkLock "orders:42" "someone-else" (30 * time.Second) in
  let w := scenario.held in
  let out := Extend Background answered lock (600 * time.Second) w in
  let expiry := now w + 600 * time.Second in
  fst (fst out) = None /\
  snd (fst out) = mkLock (key lock) (value lock) (600 * time.Second) /\
  trace (snd out) =
    (trace w ++ [Sent (now w) (EVAL ExtendScript (key lock) (value lock) (Some 600))])%list /\
  db (snd out) = <[key lock := mkEntry (value lock) (Some expiry)]> (db w) /\
  (forall t, get t (db (snd out)) (key lock) =
             if t <? expiry then Some (value lock) else None).
Proof.
  intros lock w.
  apply (Extend_whole_seconds Background answered lock 600 w).
  - time_lia.
  - reflexivity.
  - reflexivity.
  - reflexivity.
Defined.

(** *** The errors of Lock *)

Lemma Lock_loop_errors lockCtx env k o : forall fuel i lastErr retries w e w',
  lastErr = None \/ lastErr = Some ErrLockNotAcquired ->
  Lock_loop fuel lockCtx env k o i lastErr retries w = Some (Err e, w') ->
  (lastErr = None /\ e = timeout_before_attempt (cause lockCtx) /\ w' = w) \/
  e = Errorf "lock acquisition timeout" ErrLockNotAcquired \/
  (exists c, e = Errorf "failed to acquire lock" c /\
             (c = RedisError "ERR invalid expire time in 'set' command" \/
              exists f, c = fault_error f)) \/
  e = retries_exhausted \/
  e = timeout_during_retry (cause lockCtx).
Proof.
  induction fuel as [|fuel IH]; intros i lastErr retries w e w' Hlast; [done|].
  simpl. destruct (Done lockCtx (now w)) eqn:Hd.
  { destruct Hlast as [-> | ->]; intros [= <- <-]; [by left|by right; left]. }
  destruct (TryLock lockCtx _ _ k (TTL o) _) as [[l|err] w1] eqn:Ht; [done|].
  destruct (TryLock_error_shape lockCtx _ _ k (TTL o)
              (interfere (a_others (env i)) w) err w1 Hd Ht)
    as [->|(c & -> & His & Hc)].
  - simpl. destruct (_ >? _); [intros [= <- <-]; by do 3 right; left|].
    destruct (select_wait _ _ _ _) as [[|] t].
    + intros [= <- <-]. by do 4 right.
    + intros Hrun. apply IH in Hrun; [|by right].
      destruct Hrun as [(? & _)|Hrun]; [done|by right].
  - rewrite His. simpl. intros [= <- <-]. do 2 right. left.
    exists c. split; [done|]. destruct Hc as [->|(f & _ & ->)]; eauto.
Qed.

(** X7.  The errors of [Lock].  Whenever [Lock] fails, its error is one of
    five: the timeout found before the first attempt, wrapping the
    context's error (and then nothing has happened); the timeout found at
    the top of a later iteration, which wraps the last failure, that is
    [ErrLockNotAcquired], and not the context's error; the store's or the
    client's error, wrapped by [TryLock]; the exhausted retries; or the
    timeout during a wait, wrapping the context's error.  [Lock] never
    returns [ErrLockNotAcquired] itself, and [errors.Is(err,
    ErrLockNotAcquired)] holds exactly for the second and the fourth. *)
Theorem Lock_error_taxonomy ctx env k opts w e w' :
  Lock ctx env k opts w = Some (Err e, w') ->
  let lockCtx := WithTimeout ctx (now w) (LockTimeout (options_of opts)) in
  ((e = timeout_before_attempt (cause lockCtx) /\ w' = w) \/
   e = Errorf "lock acquisition timeout" ErrLockNotAcquired \/
   (exists c, e = Errorf "failed to acquire lock" c /\
              (c = RedisError "ERR invalid expire time in 'set' command" \/
               exists f, c = fault_error f)) \/
   e = retries_exhausted \/
   e = timeout_during_retry (cause lockCtx)) /\
  e <> ErrLockNotAcquired /\
  (errors_Is e ErrLockNotAcquired = true <->
     e = Errorf "lock acquisition timeout" ErrLockNotAcquired \/
     e = retries_exhausted).
Proof.
  intros Hrun lockCtx. unfold Lock in Hrun. fold lockCtx in Hrun.
  apply Lock_loop_errors in Hrun; [|by left].
  assert (forall msg, errors_Is (Errorf msg (cause lockCtx)) ErrLockNotAcquired = false)
    as Hcause by (intros; unfold cause; by destruct (canceled lockCtx)).
  assert (forall msg f, errors_Is (Errorf msg (fault_error f)) ErrLockNotAcquired = false)
    as Hfault by (intros; unfold fault_error; by destruct (f_kind f)).
  assert (forall msg, Errorf msg (cause lockCtx) <> Errorf msg ErrLockNotAcquired)
    as Hne by (intros; unfold cause; by destruct (canceled lockCtx)).
  destruct Hrun as [(_ & -> & ->)|[->|[(c & -> & Hc)|[->| ->]]]].
  - split; [by left|]. split; [done|].
    unfold timeout_before_attempt. rewrite Hcause.
    split; [done|]. intros [H|H]; [by apply Hne in H|done].
  - split; [by right; left|]. split; [done|]. split; [by left|done].
  - split; [do 2 right; left; eauto|]. split; [done|].
    destruct Hc as [->|(f & ->)].
    + split; [done|]. by intros [|].
    + rewrite Hfault. split; [done|]. by intros [|].
  - split; [by do 3 right; left|]. split; [done|]. split; [by right|done].
  - split; [by do 4 right|]. split; [done|].
    unfold timeout_during_retry. rewrite Hcause.
    split; [done|]. intros [H|H]; [done|].
    unfold retries_exhausted in H. injection H as _ H.
    revert H. unfold cause. by destruct (canceled lockCtx).
Qed.

(** One attempt on a held key with no retries allowed. *)
Lemma Lock_error_taxonomy_witness :
  let w := scenario.held in
  let opts := [scenario.no_retry] in
  let e := retries_exhausted in
  let lockCtx := WithTimeout Background (now w) (LockTimeout (options_of opts)) in
  ((e = timeout_before_attempt (cause lockCtx) /\
    mkWorld (db w) 0 [Sent 0 (SETNX "orders:42" "lock_0" (30 * time.Second))] [] = w) \/
   e = Errorf "lock acquisition timeout" ErrLockNotAcquired \/
   (exists c, e = Errorf "failed to acquire lock" c /\
              (c = RedisError "ERR invalid expire time in 'set' command" \/
               exists f, c = fault_error f)) \/
   e = retries_exhausted \/
   e = timeout_during_retry (cause lockCtx)) /\
  e <> ErrLockNotAcquired /\
  (errors_Is e ErrLockNotAcquired = true <->
     e = Errorf "lock acquisition timeout" ErrLockNotAcquired \/
     e = retries_exhausted).
Proof.
  intros w opts e.
  apply (Lock_error_taxonomy Background scenario.quiet "orders:42" opts w e
           (mkWorld (db w) 0 [Sent 0 (SETNX "orders:42" "lock_0" (30 * time.Second))] [])).
  vm_compute. reflexivity.
Defined.

(** The timer and the deadline fall on the same instant and the runtime
    takes the timer: the next iteration finds the context done, and the
    error says the lock was not acquired; the deadline is not in its
    chain. *)
Example Lock_timeout_hides_deadline :
  let o := mkOptions (30 * time.Second) (100 * time.Millisecond) 3
             (100 * time.Millisecond) in
  match Lock Background scenario.quiet "orders:42" [o] scenario.held with
  | Some (Err e, _) =>
      e = Errorf "lock acquisition timeout" ErrLockNotAcquired /\
      errors_Is e DeadlineExceeded = false
  | _ => False
  end.
Proof. vm_compute. split; reflexivity. Qed.

(** *** The handle Lock returns *)

Lemma Lock_loop_success lockCtx env k o : forall fuel i lastErr retries w lock w',
  Lock_loop fuel lockCtx env k o i lastErr retries w = Some (Ok lock, w') ->
  exists j t d0 evs,
    (i <= j)%nat /\ now w <= t /\ Done lockCtx t = false /\
    fault (a_call (env j)) = None /\
    (0 <= TTL o \/ TTL o = KeepTTL) /\
    get t d0 k = None /\
    lock = mkLock k (generateLockValue (a_rand (env j)) t) (TTL o) /\
    w' = mkWorld
           (<[k := mkEntry (value lock)
                     (if (TTL o =? 0) || (TTL o =? KeepTTL) then None
                      else Some (t + sent_ttl (TTL o)))]> d0)
           (t + Z.max 0 (latency (a_call (env j))))
           (trace w ++ evs ++ [Sent t (SETNX k (value lock) (TTL o))])
           (logged w) /\
    attempts evs = (j - i)%nat /\ waits evs = (j - i)%nat.
Proof.
  induction fuel as [|fuel IH]; intros i lastErr retries w lock w'; [done|].
  simpl. destruct (Done lockCtx (now w)) eqn:Hd; [by destruct lastErr|].
  destruct (TryLock_sent lockCtx (a_rand (env i)) (a_call (env i)) k (TTL o)
              (interfere (a_others (env i)) w) Hd) as [d Hw1].
  destruct (TryLock lockCtx _ _ k (TTL o) _) as [[l|err] w1] eqn:Ht.
  - intros [= <- <-].
    destruct (TryLock_Ok_inv _ _ _ _ _ _ _ _ Ht) as (_ & Hf & Httl & Hg & -> & ->).
    exists i, (now w), (a_others (env i) (db w)), [].
    repeat split; try done; try lia.
    + unfold attempts. simpl. lia.
    + unfold waits. simpl. lia.
  - simpl in Hw1. subst w1.
    destruct (negb _); [done|]. destruct (_ >? _); [done|].
    cbn [now].
    set (t1 := now w + Z.max 0 (latency (a_call (env i)))).
    destruct (select_wait_cases lockCtx t1 (RetryDelay o) (a_timer_first (env i)))
      as [[Hsel _]|(u & Hsel & _)]; rewrite Hsel; [|done].
    intros Hrun. apply IH in Hrun.
    destruct Hrun as (j & t & d0 & evs & Hij & Ht1 & Hdt & Hf & Httl & Hg & Hl & Hw & Ha & Hwt).
    cbn [now block_until trace logged db] in *.
    exists j, t, d0,
      (Sent (now w) (SETNX k (generateLockValue (a_rand (env i)) (now w)) (TTL o))
       :: Waited t1 (t1 + Z.max 0 (RetryDelay o)) :: evs).
    split; [lia|]. split; [lia|]. do 5 (split; [done|]).
    split; [|split].
    + rewrite Hw. f_equal. by rewrite <- !app_assoc.
    + change (?a :: ?b :: evs) with ([a; b] ++ evs)%list.
      rewrite attempts_app, Ha. unfold attempts. simpl. lia.
    + change (?a :: ?b :: evs) with ([a; b] ++ evs)%list.
      rewrite waits_app, Hwt. unfold waits. simpl. lia.
Qed.

(** X8.  The handle [Lock] returns.  When [Lock] succeeds, the handle
    is the one of the last SETNX it sent, the only one the server accepted:
    it carries the key, the configured lease and the token of that
    attempt; that attempt left strictly before the acquisition deadline and
    found the key free; the record of the key holds the handle's token,
    with a lease that runs from the instant the command was sent (not from
    the return); and the [j] attempts before it were each followed by one
    wait. *)
Theorem Lock_returns_accepted_handle ctx env k opts w lock w' :
  Lock ctx env k opts w = Some (Ok lock, w') ->
  let o := options_of opts in
  exists j t evs,
    lock = mkLock k (generateLockValue (a_rand (env j)) t) (TTL o) /\
    trace w' = (trace w ++ evs ++ [Sent t (SETNX k (value lock) (TTL o))])%list /\
    attempts evs = j /\ waits evs = j /\
    now w <= t <= now w' /\ t < now w + LockTimeout o /\
    (0 <= TTL o \/ TTL o = KeepTTL) /\
    db w' !! k =
      Some (mkEntry (value lock)
              (if (TTL o =? 0) || (TTL o =? KeepTTL) then None
               else Some (t + sent_ttl (TTL o)))) /\
    logged w' = logged w.
Proof.
  intros Hrun o. unfold Lock in Hrun. fold o in Hrun.
  apply Lock_loop_success in Hrun.
  destruct Hrun as (j & t & d0 & evs & _ & Ht & Hd & _ & Httl & _ & Hl & -> & Ha & Hwt).
  exists j, t, evs. cbn [trace now db logged].
  split; [done|]. split; [done|].
  split; [lia|]. split; [lia|]. split; [lia|]. split.
  - destruct (WithTimeout_deadline ctx (now w) (LockTimeout o)) as (d & Hdl & Hle).
    unfold Done in Hd. rewrite Hdl in Hd. lia.
  - split; [done|]. split; [|done]. by rewrite lookup_insert_eq.
Qed.

(** A free key is taken at the first attempt. *)
Lemma Lock_returns_accepted_handle_witness :
  let w := scenario.empty in
  let opts := [scenario.three_retries] in
  let lock := mkLock "orders:42" "lock_0" (30 * time.Second) in
  let w' := mkWorld {[ "orders:42" := mkEntry "lock_0" (Some (30 * time.Second)) ]} 0
              [Sent 0 (SETNX "orders:42" "lock_0" (30 * time.Second))] [] in
  let o := options_of opts in
  exists j t evs,
    lock = mkLock "orders:42" (generateLockValue (a_rand (scenario.quiet j)) t) (TTL o) /\
    trace w' = (trace w ++ evs ++ [Sent t (SETNX "orders:42" (value lock) (TTL o))])%list /\
    attempts evs = j /\ waits evs = j /\
    now w <= t <= now w' /\ t < now w + LockTimeout o /\
    (0 <= TTL o \/ TTL o = KeepTTL) /\
    db w' !! "orders:42" =
      Some (mkEntry (value lock)
              (if (TTL o =? 0) || (TTL o =? KeepTTL) then None
               else Some (t + sent_ttl (TTL o)))) /\
    logged w' = logged w.
Proof.
  intros w opts lock w'.
  apply (Lock_returns_accepted_handle Background scenario.quiet "orders:42" opts w lock w').
  vm_compute. reflexivity.
Defined.

(** *** WithLock and the caller's context *)

(** X9.  [WithLock] releases through the caller's context.  When that
    context is done by the time the critical section ends, the deferred
    [Unlock] sends nothing and fails with the context's error, which is
    dropped: [WithLock] returns the section's outcome in the very world the
    section left.  The record that [Lock] wrote under the handle's token is
    not deleted: unless the section itself changed the database, the key
    shows the token for as long as its lease lasts. *)
Theorem WithLock_keeps_lock_when_ctx_done ctx env unlock_call k fn opts w lock w1 :
  Lock ctx env k opts w = Some (Ok lock, w1) ->
  Done ctx (now (snd (fn w1))) = true ->
  WithLock ctx env unlock_call k fn opts w = Some (fst (fn w1), snd (fn w1)) /\
  Unlock ctx unlock_call lock (snd (fn w1)) =
    (Some (Errorf "failed to release lock" (cause ctx)), snd (fn w1)) /\
  (exists exp, db w1 !! k = Some (mkEntry (value lock) exp)) /\
  (db (snd (fn w1)) = db w1 ->
   forall t, get t (db w1) k = Some (value lock) ->
             get t (db (snd (fn w1))) k = Some (value lock)).
Proof.
  intros Hlock Hdone. unfold WithLock. rewrite Hlock.
  destruct (fn w1) as [out w2]. cbn [fst snd] in *.
  unfold Unlock, rdb_Eval, roundtrip. rewrite Hdone.
  split; [done|]. split; [done|]. split; [|by intros ->].
  destruct (Lock_loop_success _ _ _ _ _ _ _ _ _ _ _ Hlock)
    as (j & t0 & d0 & evs & _ & _ & _ & _ & _ & _ & _ & -> & _).
  cbn [db]. eexists. by rewrite lookup_insert_eq.
Qed.

(** The caller's context ends after one second; the critical section
    takes two. *)
Lemma WithLock_keeps_lock_when_ctx_done_witness :
  let ctx := mkContext (Some (1 * time.Second)) false in
  let opts := [scenario.three_retries] in
  let w := scenario.empty in
  let lock := mkLock "orders:42" "lock_0" (30 * time.Second) in
  let w1 := mkWorld {[ "orders:42" := mkEntry "lock_0" (Some (30 * time.Second)) ]} 0
              [Sent 0 (SETNX "orders:42" "lock_0" (30 * time.Second))] [] in
  let fn := scenario.overruns in
  WithLock ctx scenario.quiet answered "orders:42" fn opts w
    = Some (fst (fn w1), snd (fn w1)) /\
  Unlock ctx answered lock (snd (fn w1)) =
    (Some (Errorf "failed to release lock" (cause ctx)), snd (fn w1)) /\
  (exists exp, db w1 !! "orders:42" = Some (mkEntry (value lock) exp)) /\
  (db (snd (fn w1)) = db w1 ->
   forall t, get t (db w1) "orders:42" = Some (value lock) ->
             get t (db (snd (fn w1))) "orders:42" = Some (value lock)).
Proof.
  intros ctx opts w lock w1 fn.
  apply (WithLock_keeps_lock_when_ctx_done ctx scenario.quiet answered "orders:42"
           fn opts w lock w1).
  - vm_compute. reflexivity.
  - vm_compute. reflexivity.
Defined.

(** *** Waiting for a lease to run out *)

Lemma get_held t (d : DB) k v E :
  d !! k = Some (mkEntry v (Some E)) ->
  get t d k = if t <? E then Some v else None.
Proof. intros H. unfold get. by rewrite H. Qed.

Lemma Lock_loop_waits lockCtx env k o v E d :
  doneAt lockCtx = Some d ->
  (forall i, (forall x, a_others (env i) x = x) /\
             fault (a_call (env i)) = None /\ latency (a_call (env i)) <= 0) ->
  0 < RetryDelay o ->
  0 <= TTL o \/ TTL o = KeepTTL ->
  MaxRetries o < time.MaxInt64 ->
  forall (n fuel i : nat) lastErr retries w,
    db w !! k = Some (mkEntry v (Some E)) ->
    E <= now w + Z.of_nat n * RetryDelay o ->
    (forall m : nat, (m < n)%nat -> now w + Z.of_nat m * RetryDelay o < E) ->
    0 <= retries -> retries + Z.of_nat n <= MaxRetries o ->
    now w + Z.of_nat n * RetryDelay o < d ->
    (n < fuel)%nat ->
    exists evs,
      let t := now w + Z.of_nat n * RetryDelay o in
      let tok := generateLockValue (a_rand (env (i + n)%nat)) t in
      Lock_loop fuel lockCtx env k o i lastErr retries w =
        Some (Ok (mkLock k tok (TTL o)),
              mkWorld (<[k := mkEntry tok
                                (if (TTL o =? 0) || (TTL o =? KeepTTL) then None
                                 else Some (t + sent_ttl (TTL o)))]> (db w))
                t (trace w ++ evs)%list (logged w)) /\
      attempts evs = S n /\ waits evs = n.
Proof.
  intros Hdl Hquiet Hdelay Httl Hmax.
  induction n as [|n IH]; intros fuel i lastErr retries w Hdb HE Hheld Hr Hrn Hd Hfuel;
    (destruct fuel as [|fuel]; [lia|]);
    destruct (Hquiet i) as (Hid & Hf & Hlat).
  - simpl. unfold Done. rewrite Hdl.
    replace (d <=? now w) with false by (symmetry; apply Z.leb_gt; lia).
    rewrite TryLock_answered; cbn [interfere now db trace logged]; try done.
    2:{ unfold Done. rewrite Hdl. apply Z.leb_gt. lia. }
    rewrite Hid, (get_held _ _ _ _ _ Hdb).
    replace (now w <? E) with false by (symmetry; apply Z.ltb_ge; lia).
    eexists [_]. cbn zeta.
    replace (now w + Z.of_nat 0 * RetryDelay o) with (now w) by lia.
    replace (i + 0)%nat with i by lia.
    replace (now w + Z.max 0 (latency (a_call (env i)))) with (now w) by lia.
    split; [reflexivity|]. by split.
  - assert (now w < E) as Hnow by (specialize (Hheld O ltac:(lia)); lia).
    simpl Lock_loop. unfold Done at 1. rewrite Hdl.
    replace (d <=? now w) with false by (symmetry; apply Z.leb_gt; lia).
    rewrite TryLock_answered; cbn [interfere now db trace logged]; try done.
    2:{ unfold Done. rewrite Hdl. apply Z.leb_gt. lia. }
    rewrite Hid, (get_held _ _ _ _ _ Hdb).
    replace (now w <? E) with true by (symmetry; apply Z.ltb_lt; lia).
    cbn [errors_Is negb]. rewrite bool_decide_eq_true_2 by done. cbn [orb negb].
    rewrite wrap64_small by (unfold time.MinInt64, time.MaxInt64 in *; lia).
    replace (retries + 1 >? MaxRetries o) with false by (symmetry; lia).
    replace (now w + Z.max 0 (latency (a_call (env i)))) with (now w) by lia.
    cbn [now].
    assert (select_wait lockCtx (now w) (RetryDelay o) (a_timer_first (env i))
            = (ByTimer, now w + RetryDelay o)) as ->.
    { unfold select_wait. rewrite Hdl.
      replace (Z.max 0 (RetryDelay o)) with (RetryDelay o) by lia.
      replace (Z.max (now w) d) with d by lia.
      replace (d <? now w + RetryDelay o) with false by (symmetry; apply Z.ltb_ge; nia).
      replace (now w + RetryDelay o <? d) with true by (symmetry; apply Z.ltb_lt; nia).
      done. }
    set (w2 := block_until _ _).
    destruct (IH fuel (S i) (Some ErrLockNotAcquired) (retries + 1) w2)
      as (evs & Hrun & Ha & Hw); subst w2; cbn [block_until db now]; try done; try lia.
    { intros m Hm. specialize (Hheld (S m) ltac:(lia)). lia. }
    cbn zeta in Hrun. cbn [block_until db now trace logged] in Hrun.
    exists (Sent (now w) (SETNX k (generateLockValue (a_rand (env i)) (now w)) (TTL o))
            :: Waited (now w) (now w + RetryDelay o) :: evs).
    cbn zeta.
    replace (now w + Z.of_nat (S n) * RetryDelay o)
      with (now w + RetryDelay o + Z.of_nat n * RetryDelay o) by lia.
    replace (i + S n)%nat with (S i + n)%nat by lia.
    rewrite Hrun. split; [by rewrite <- !app_assoc|].
    split.
    + change (?a :: ?b :: evs) with ([a; b] ++ evs)%list.
      rewrite attempts_app, Ha. unfold attempts. simpl. lia.
    + change (?a :: ?b :: evs) with ([a; b] ++ evs)%list.
      rewrite waits_app, Hw. unfold waits. simpl. lia.
Qed.

(** X10.  [Lock] waits out a lease.  Let the key be held under a lease
    that expires at [E], let nobody else touch the database, let every
    call be answered at once, and let the caller's context never end.  If
    the [n]-th retry is the first that falls at or after [E], [n] retries are
    allowed and the acquisition deadline lies after it, then [Lock]
    succeeds: it makes [n + 1] attempts, [n] waits of one retry delay each,
    and returns at the instant of the last attempt a handle carrying that
    attempt's token, which the record of the key then holds. *)
Theorem Lock_waits_out_a_lease ctx env k opts w v E (n : nat) :
  let o := options_of opts in
  let t := now w + Z.of_nat n * RetryDelay o in
  let tok := generateLockValue (a_rand (env n)) t in
  doneAt ctx = None ->
  (forall i, (forall x, a_others (env i) x = x) /\
             fault (a_call (env i)) = None /\ latency (a_call (env i)) <= 0) ->
  0 < RetryDelay o ->
  0 <= TTL o \/ TTL o = KeepTTL ->
  db w !! k = Some (mkEntry v (Some E)) ->
  E <= t ->
  (forall m : nat, (m < n)%nat -> now w + Z.of_nat m * RetryDelay o < E) ->
  Z.of_nat n <= MaxRetries o < time.MaxInt64 ->
  Z.of_nat n * RetryDelay o < LockTimeout o ->
  exists evs,
    Lock ctx env k opts w =
      Some (Ok (mkLock k tok (TTL o)),
            mkWorld (<[k := mkEntry tok
                              (if (TTL o =? 0) || (TTL o =? KeepTTL) then None
                               else Some (t + sent_ttl (TTL o)))]> (db w))
              t (trace w ++ evs)%list (logged w)) /\
    attempts evs = S n /\ waits evs = n.
Proof.
  intros o t tok Hctx Hquiet Hdelay Httl Hdb HE Hheld Hn Hbudget.
  unfold Lock. fold o.
  destruct (Lock_loop_waits (WithTimeout ctx (now w) (LockTimeout o)) env k o v E
              (now w + LockTimeout o)
              ltac:(unfold WithTimeout; by rewrite Hctx) Hquiet Hdelay Httl ltac:(lia)
              n (Lock_fuel o) 0%nat None 0 w Hdb HE Hheld ltac:(lia) ltac:(lia)
              ltac:(lia) ltac:(unfold Lock_fuel; lia))
    as (evs & Hrun & Ha & Hw).
  exists evs. cbn zeta in Hrun. by rewrite Hrun.
Qed.

(** Another client's lease runs out 250 ms from now; the retry delay is
    100 ms, so the fourth attempt, at 300 ms, is the first after it. *)
Lemma Lock_waits_out_a_lease_witness :
  let w := mkWorld {[ "orders:42" := mkEntry "someone-else" (Some (250 * time.Millisecond)) ]}
             0 [] [] in
  let t := 300 * time.Millisecond in
  exists evs,
    Lock Background scenario.quiet "orders:42" [scenario.three_retries] w =
      Some (Ok (mkLock "orders:42" "lock_300000000" (30 * time.Second)),
            mkWorld (<["orders:42" := mkEntry "lock_300000000"
                                        (Some (t + 30 * time.Second))]> (db w))
              t (trace w ++ evs)%list (logged w)) /\
    attempts evs = 4%nat /\ waits evs = 3%nat.
Proof.
  intros w t.
  apply (Lock_waits_out_a_lease Background scenario.quiet "orders:42"
           [scenario.three_retries] w "someone-else" (250 * time.Millisecond) 3).
  - reflexivity.
  - intros i. repeat split. simpl. lia.
  - reflexivity.
  - left. simpl. time_lia.
  - reflexivity.
  - simpl. time_lia.
  - intros m Hm. simpl. time_lia.
  - simpl. time_lia.
  - reflexivity.
Defined.

(** *** Owner tokens *)

Lemma digit_hex n : In (hex.digit n) (list_ascii_of_string "0123456789abcdef").
Proof.
  destruct n as [|p]; [simpl; tauto|].
  do 4 (destruct p as [p|p|]; try (simpl; tauto)).
Qed.

Lemma digit_inj n m : (n < 16)%N -> (m < 16)%N -> hex.digit n = hex.digit m -> n = m.
Proof.
  intros Hn Hm.
  assert (forall x, (x < 16)%N ->
            nth_error [0;1;2;3;4;5;6;7;8;9;10;11;12;13;14;15]%N
              (N.to_nat (N_of_ascii (hex.digit x)) mod 39 - 9) = Some x) as Hinv.
  { intros [|p] Hx; [reflexivity|].
    do 4 (destruct p as [p|p|]; try lia; try reflexivity). }
  intros Heq. apply Hinv in Hn, Hm. rewrite Heq in Hn. congruence.
Qed.

Lemma EncodeToString_length bs :
  String.length (hex.EncodeToString bs) = (2 * length bs)%nat.
Proof. induction bs as [|b bs IH]; simpl; [done|]. rewrite IH. lia. Qed.

Lemma EncodeToString_hex bs :
  Forall (fun c => In c (list_ascii_of_string "0123456789abcdef"))
    (list_ascii_of_string (hex.EncodeToString bs)).
Proof.
  induction bs as [|b bs IH]; [constructor|].
  cbn [hex.EncodeToString list_ascii_of_string].
  constructor; [apply digit_hex|]. constructor; [apply digit_hex|done].
Qed.

Lemma EncodeToString_inj bs : forall bs',
  hex.EncodeToString bs = hex.EncodeToString bs' -> bs = bs'.
Proof.
  induction bs as [|b bs IH]; intros [|b' bs']; simpl; try done.
  intros [= Hhi Hlo Hrest]. f_equal; [|by apply IH].
  pose proof (Byte.to_N_bounded b) as Hb. pose proof (Byte.to_N_bounded b') as Hb'.
  apply digit_inj in Hhi, Hlo;
    try (apply N.mod_upper_bound; lia);
    try (apply N.Div0.div_lt_upper_bound; lia).
  assert (Byte.to_N b = Byte.to_N b') as Hto.
  { rewrite (N.div_mod (Byte.to_N b) 16), (N.div_mod (Byte.to_N b') 16) by lia.
    by rewrite Hhi, Hlo. }
  pose proof (Byte.of_to_N b) as H1. pose proof (Byte.of_to_N b') as H2.
  rewrite Hto in H1. congruence.
Qed.

(** X11.  Owner tokens.  With a working random source the token is 32
    lower-case hexadecimal characters that determine the 16 random bytes:
    two holders carry the same token only if their random draws were the
    same.  Without one, the token is "lock_" followed by the clock reading
    in decimal: two fall-back tokens are equal exactly when they were made
    at the same nanosecond.  A random token is never a fall-back token. *)
Theorem generateLockValue_tokens :
  (forall bs t,
     let v := generateLockValue (Some bs) t in
     String.length v = 32%nat /\
     Forall (fun c => In c (list_ascii_of_string "0123456789abcdef"))
       (list_ascii_of_string v)) /\
  (forall bs bs' t t',
     length bs = 16%nat -> length bs' = 16%nat ->
     generateLockValue (Some bs) t = generateLockValue (Some bs') t' -> bs = bs') /\
  (forall t t', generateLockValue None t = generateLockValue None t' <-> t = t') /\
  (forall bs t t', generateLockValue (Some bs) t <> generateLockValue None t').
Proof.
  assert (forall bs : list Byte.byte,
            length (take 16 (bs ++ replicate 16 Byte.x00)) = 16%nat) as Hlen.
  { intros bs. rewrite length_take, length_app, length_replicate. lia. }
  split; [|split; [|split]].
  - intros bs t. simpl. split; [|apply EncodeToString_hex].
    rewrite EncodeToString_length, Hlen. lia.
  - intros bs bs' t t' Hb Hb' Heq. simpl in Heq.
    apply EncodeToString_inj in Heq.
    rewrite !take_app_le, !take_ge in Heq by lia. done.
  - intros t t'. split; [|by intros ->].
    simpl. intros [= H]. by apply (inj pretty).
  - intros bs t t'. unfold generateLockValue.
    specialize (Hlen bs).
    destruct (take 16 (bs ++ replicate 16 Byte.x00)) as [|b rest]; [done|].
    simpl. intros [= H _].
    pose proof (digit_hex (Byte.to_N b / 16)) as Hin. rewrite H in Hin.
    simpl in Hin. repeat (destruct Hin as [Hin|Hin]; [discriminate|]). done.
Qed.

(** Two clients whose random source fails at the same nanosecond carry
    the same token: the handle of the one that lost releases the lock of the
    one that won. *)
Example fallback_tokens_collide :
  let '(a, w1) := TryLock Background None answered "orders:42" (30 * time.Second)
                    scenario.empty in
  let '(b, w2) := TryLock Background None answered "orders:42" (30 * time.Second) w1 in
  let intruder := mkLock "orders:42" (generateLockValue None (now scenario.empty))
                    (30 * time.Second) in
  is_Ok a = true /\ b = Err ErrLockNotAcquired /\
  fst (Unlock Background answered intruder w2) = None.
Proof. vm_compute. repeat split. Qed.

(** *** Giving up on a held key *)

Lemma Lock_loop_exhausts lockCtx env k o e d :
  doneAt lockCtx = Some d ->
  (forall i, (forall x, a_others (env i) x = x) /\
             fault (a_call (env i)) = None /\ latency (a_call (env i)) <= 0) ->
  0 <= RetryDelay o ->
  0 <= TTL o \/ TTL o = KeepTTL ->
  MaxRetries o < time.MaxInt64 ->
  forall (n fuel i : nat) lastErr retries w,
    db w !! k = Some e ->
    (forall t, t <= now w + Z.of_nat n * RetryDelay o -> live t e = true) ->
    0 <= retries -> retries + Z.of_nat n = MaxRetries o ->
    now w + Z.of_nat n * RetryDelay o < d ->
    (n < fuel)%nat ->
    exists evs,
      Lock_loop fuel lockCtx env k o i lastErr retries w =
        Some (Err retries_exhausted,
              mkWorld (db w) (now w + Z.of_nat n * RetryDelay o)
                (trace w ++ evs)%list (logged w)) /\
      attempts evs = S n /\ waits evs = n.
Proof.
  intros Hdl Hquiet Hdelay Httl Hmax.
  induction n as [|n IH]; intros fuel i lastErr retries w Hdb Hlive Hr Hrn Hd Hfuel;
    (destruct fuel as [|fuel]; [lia|]);
    destruct (Hquiet i) as (Hid & Hf & Hlat);
    assert (get (now w) (db w) k = Some (redis.value e)) as Hget
      by (unfold get; rewrite Hdb, Hlive by lia; done);
    simpl Lock_loop; unfold Done at 1; rewrite Hdl;
    (replace (d <=? now w) with false by (symmetry; apply Z.leb_gt; lia));
    (rewrite TryLock_answered; cbn [interfere now db trace logged]; try done;
     [|unfold Done; rewrite Hdl; apply Z.leb_gt; lia]);
    rewrite Hid, Hget;
    cbn [errors_Is negb]; rewrite bool_decide_eq_true_2 by done; cbn [orb negb];
    rewrite wrap64_small by (unfold time.MinInt64, time.MaxInt64 in *; lia);
    (replace (now w + Z.max 0 (latency (a_call (env i)))) with (now w) by lia).
  - replace (retries + 1 >? MaxRetries o) with true by (symmetry; lia).
    eexists [_]. replace (now w + Z.of_nat 0 * RetryDelay o) with (now w) by lia.
    split; [reflexivity|]. by split.
  - replace (retries + 1 >? MaxRetries o) with false by (symmetry; lia).
    cbn [now].
    assert (select_wait lockCtx (now w) (RetryDelay o) (a_timer_first (env i))
            = (ByTimer, now w + RetryDelay o)) as ->.
    { unfold select_wait. rewrite Hdl.
      replace (Z.max 0 (RetryDelay o)) with (RetryDelay o) by lia.
      replace (Z.max (now w) d) with d by lia.
      replace (d <? now w + RetryDelay o) with false by (symmetry; apply Z.ltb_ge; nia).
      replace (now w + RetryDelay o <? d) with true by (symmetry; apply Z.ltb_lt; nia).
      done. }
    set (w2 := block_until _ _).
    destruct (IH fuel (S i) (Some ErrLockNotAcquired) (retries + 1) w2)
      as (evs & Hrun & Ha & Hw); subst w2; cbn [block_until db now]; try done; try lia.
    { intros t Ht. apply Hlive. lia. }
    cbn [block_until db now trace logged] in Hrun.
    exists (Sent (now w) (SETNX k (generateLockValue (a_rand (env i)) (now w)) (TTL o))
            :: Waited (now w) (now w + RetryDelay o) :: evs).
    replace (now w + Z.of_nat (S n) * RetryDelay o)
      with (now w + RetryDelay o + Z.of_nat n * RetryDelay o) by lia.
    rewrite Hrun. split; [by rewrite <- !app_assoc|].
    split.
    + change (?a :: ?b :: evs) with ([a; b] ++ evs)%list.
      rewrite attempts_app, Ha. unfold attempts. simpl. lia.
    + change (?a :: ?b :: evs) with ([a; b] ++ evs)%list.
      rewrite waits_app, Hw. unfold waits. simpl. lia.
Qed.

(** X27.  Giving up on a held key.  Let the key stay held, let nobody
    else touch the database, let every call be answered at once and the
    caller's context never end.  If all the retries fit before the
    acquisition deadline ([MaxRetries] retry delays are shorter than
    [LockTimeout]), [Lock] ends by exhausting its retries, never by the
    timeout: it makes [MaxRetries + 1] attempts and [MaxRetries] waits,
    returns "max retries exceeded" after [MaxRetries] retry delays, and
    leaves the database as it was.  With the default options that is eleven
    attempts in one second. *)
Theorem Lock_gives_up_on_held_key ctx env k opts w e :
  let o := options_of opts in
  let t := now w + MaxRetries o * RetryDelay o in
  doneAt ctx = None ->
  (forall i, (forall x, a_others (env i) x = x) /\
             fault (a_call (env i)) = None /\ latency (a_call (env i)) <= 0) ->
  0 <= RetryDelay o ->
  0 <= TTL o \/ TTL o = KeepTTL ->
  0 <= MaxRetries o < time.MaxInt64 ->
  MaxRetries o * RetryDelay o < LockTimeout o ->
  db w !! k = Some e ->
  (forall t', t' <= t -> live t' e = true) ->
  exists evs,
    Lock ctx env k opts w =
      Some (Err retries_exhausted, mkWorld (db w) t (trace w ++ evs)%list (logged w)) /\
    Z.of_nat (attempts evs) = MaxRetries o + 1 /\
    Z.of_nat (waits evs) = MaxRetries o.
Proof.
  intros o t Hctx Hquiet Hdelay Httl Hmax Hbudget Hdb Hlive.
  unfold Lock. fold o.
  destruct (Lock_loop_exhausts (WithTimeout ctx (now w) (LockTimeout o)) env k o e
              (now w + LockTimeout o)
              ltac:(unfold WithTimeout; by rewrite Hctx) Hquiet Hdelay Httl ltac:(lia)
              (Z.to_nat (MaxRetries o)) (Lock_fuel o) 0%nat None 0 w Hdb)
    as (evs & Hrun & Ha & Hw).
  - intros t' Ht'. apply Hlive. unfold t. lia.
  - lia.
  - lia.
  - lia.
  - unfold Lock_fuel. lia.
  - exists evs. rewrite Hrun, Ha, Hw. unfold t.
    replace (Z.of_nat (Z.to_nat (MaxRetries o))) with (MaxRetries o) by lia.
    split; [done|]. lia.
Qed.

(** The default options on a key that stays held. *)
Lemma Lock_gives_up_on_held_key_witness :
  let w := scenario.held in
  let t := 1 * time.Second in
  exists evs,
    Lock Background scenario.quiet "orders:42" [] w =
      Some (Err retries_exhausted, mkWorld (db w) t (trace w ++ evs)%list (logged w)) /\
    Z.of_nat (attempts evs) = 10 + 1 /\
    Z.of_nat (waits evs) = 10.
Proof.
  intros w t.
  apply (Lock_gives_up_on_held_key Background scenario.quiet "orders:42" [] w
           (mkEntry "someone-else" None)).
  all: cbv [options_of DefaultLockOptions DefaultLockTTL DefaultRetryDelay
            DefaultMaxRetries DefaultLockTimeout RetryDelay TTL MaxRetries LockTimeout].
  - reflexivity.
  - intros i. repeat split. simpl. lia.
  - time_lia.
  - left. time_lia.
  - time_lia.
  - time_lia.
  - reflexivity.
  - intros t' _. reflexivity.
Defined.

(** *** The lease at its edges *)

(** X28.  The lease at its edges.  For a call that the server answers
    on a free key: a [ttl] of zero, and equally the [ttl] of -1 ns, which the
    client reads as "keep the expiry", writes a record without expiry, so
    the key shows the token at every later instant until it is unlocked; a
    positive [ttl] below one millisecond gives a lease of one millisecond,
    while the handle records the [ttl] asked for.  Any other negative [ttl]
    is refused by the server on any key, free or not: [TryLock] returns the
    wrapped server error, which is not [ErrLockNotAcquired], and the
    database is unchanged. *)
Theorem TryLock_ttl_edges ctx rand call k w :
  Done ctx (now w) = false ->
  fault call = None ->
  let v := generateLockValue rand (now w) in
  (forall ttl, ttl = 0 \/ ttl = KeepTTL ->
     get (now w) (db w) k = None ->
     fst (TryLock ctx rand call k ttl w) = Ok (mkLock k v ttl) /\
     forall t, get t (db (snd (TryLock ctx rand call k ttl w))) k = Some v) /\
  (forall ttl, 0 < ttl < time.Millisecond ->
     get (now w) (db w) k = None ->
     fst (TryLock ctx rand call k ttl w) = Ok (mkLock k v ttl) /\
     db (snd (TryLock ctx rand call k ttl w)) =
       <[k := mkEntry v (Some (now w + time.Millisecond))]> (db w)) /\
  (forall ttl, ttl < 0 -> ttl <> KeepTTL ->
     fst (TryLock ctx rand call k ttl w) =
       Err (Errorf "failed to acquire lock"
              (RedisError "ERR invalid expire time in 'set' command")) /\
     errors_Is (Errorf "failed to acquire lock"
                  (RedisError "ERR invalid expire time in 'set' command"))
       ErrLockNotAcquired = false /\
     db (snd (TryLock ctx rand call k ttl w)) = db w).
Proof.
  intros Hd Hf v. split; [|split].
  - intros ttl Httl Hfree.
    rewrite TryLock_answered by (try done; unfold KeepTTL in *; lia).
    rewrite Hfree. cbn [fst snd db].
    replace ((ttl =? 0) || (ttl =? KeepTTL)) with true
      by (symmetry; apply orb_true_iff; unfold KeepTTL in *; lia).
    split; [done|]. intros t. by rewrite get_insert_eq.
  - intros ttl Httl Hfree.
    rewrite TryLock_answered by (try done; lia).
    rewrite Hfree. cbn [fst snd db].
    replace ((ttl =? 0) || (ttl =? KeepTTL)) with false
      by (symmetry; apply orb_false_iff; unfold KeepTTL; lia).
    split; [done|]. do 3 f_equal. unfold sent_ttl.
    by replace (ttl <? time.Millisecond) with true by (symmetry; apply Z.ltb_lt; lia).
  - intros ttl Hneg Hkeep.
    unfold TryLock, rdb_SetNX, roundtrip, setnx. rewrite Hd, Hf.
    replace ((ttl <? 0) && negb (ttl =? KeepTTL)) with true
      by (symmetry; apply andb_true_iff; split;
          [apply Z.ltb_lt; lia|apply negb_true_iff, Z.eqb_neq; done]).
    done.
Qed.

Lemma TryLock_ttl_edges_witness :
  let w := scenario.empty in
  let k := "orders:42" in
  let v := generateLockValue None (now w) in
  (forall ttl, ttl = 0 \/ ttl = KeepTTL ->
     get (now w) (db w) k = None ->
     fst (TryLock Background None answered k ttl w) = Ok (mkLock k v ttl) /\
     forall t, get t (db (snd (TryLock Background None answered k ttl w))) k = Some v) /\
  (forall ttl, 0 < ttl < time.Millisecond ->
     get (now w) (db w) k = None ->
     fst (TryLock Background None answered k ttl w) = Ok (mkLock k v ttl) /\
     db (snd (TryLock Background None answered k ttl w)) =
       <[k := mkEntry v (Some (now w + time.Millisecond))]> (db w)) /\
  (forall ttl, ttl < 0 -> ttl <> KeepTTL ->
     fst (TryLock Background None answered k ttl w) =
       Err (Errorf "failed to acquire lock"
              (RedisError "ERR invalid expire time in 'set' command")) /\
     errors_Is (Errorf "failed to acquire lock"
                  (RedisError "ERR invalid expire time in 'set' command"))
       ErrLockNotAcquired = false /\
     db (snd (TryLock Background None answered k ttl w)) = db w).
Proof.
  intros w k.
  apply (TryLock_ttl_edges Background None answered k w); reflexivity.
Defined.

End LockCoverage.

(** * Properties of the JSON of the claims *)

Section JSONProperties.

Import utf8 json jwt.

Lemma reread_valid_bounded : forall n s,
  (String.length s <= n)%nat -> ValidString s = true -> reread s = s.
Proof.
  induction n as [|n IH]; intros s Hlen Hv.
  { destruct s; [done|simpl in Hlen; lia]. }
  destruct s as [|b0 r0]; [done|]. simpl in Hlen. cbn [ValidString reread] in *.
  destruct (single b0); [f_equal; apply IH; [lia|done]|].
  destruct r0 as [|b1 r1]; [done|]. simpl in Hlen.
  destruct (lead2 b0 && cont b1); [do 2 f_equal; apply IH; [lia|done]|].
  destruct r1 as [|b2 r2]; [done|]. simpl in Hlen.
  destruct (lead3 b0 b1 && cont b2); [do 3 f_equal; apply IH; [lia|done]|].
  destruct r2 as [|b3 r3]; [done|]. simpl in Hlen.
  destruct (lead4 b0 b1 && cont b2 && cont b3); [|done].
  do 4 f_equal. apply IH; [lia|done].
Qed.

(** A string of valid UTF-8 comes back from its JSON byte for byte. *)
Lemma reread_valid s : ValidString s = true -> reread s = s.
Proof. by apply (reread_valid_bounded (String.length s)). Qed.

Lemma RuneError_valid s : ValidString (RuneError s) = ValidString s.
Proof. reflexivity. Qed.

Lemma ValidString_reread_bounded : forall n s,
  (String.length s <= n)%nat -> ValidString (reread s) = true.
Proof.
  induction n as [|n IH]; intros s Hlen.
  { destruct s; [done|simpl in Hlen; lia]. }
  destruct s as [|b0 r0]; [done|]. simpl in Hlen. cbn [reread].
  destruct (single b0) eqn:H1.
  { cbn [ValidString]. rewrite H1. apply IH. lia. }
  assert (ValidString (RuneError (reread r0)) = true) as Herr.
  { rewrite RuneError_valid. apply IH. lia. }
  destruct r0 as [|b1 r1]; [done|]. simpl in Hlen.
  destruct (lead2 b0 && cont b1) eqn:H2.
  { cbn [ValidString]. rewrite H1, H2. apply IH. lia. }
  destruct r1 as [|b2 r2]; [done|]. simpl in Hlen.
  destruct (lead3 b0 b1 && cont b2) eqn:H3.
  { cbn [ValidString]. rewrite H1, H2, H3. apply IH. lia. }
  destruct r2 as [|b3 r3]; [done|]. simpl in Hlen.
  destruct (lead4 b0 b1 && cont b2 && cont b3) eqn:H4; [|done].
  cbn [ValidString]. rewrite H1, H2, H3, H4. apply IH. lia.
Qed.

(** What is read back is valid UTF-8, so reading it back once more changes
    nothing. *)
Lemma ValidString_reread s : ValidString (reread s) = true.
Proof. by apply (ValidString_reread_bounded (String.length s)). Qed.

Lemma reread_idem s : reread (reread s) = reread s.
Proof. apply reread_valid, ValidString_reread. Qed.

Lemma NewNumericDate_bounds t :
  t - time.Second < NewNumericDate t <= t.
Proof.
  unfold NewNumericDate.
  pose proof (Z.mod_pos_bound t time.Second ltac:(done)). lia.
Qed.

(** A date of whole seconds is read back as it is. *)
Lemma reread_date_whole t : reread_date (NewNumericDate t) = NewNumericDate t.
Proof.
  unfold reread_date, NewNumericDate.
  replace ((t - t mod time.Second) mod time.Second) with 0; [lia|].
  symmetry. apply Z.mod_divide; [done|].
  exists (t / time.Second).
  pose proof (Z.div_mod t time.Second ltac:(done)). lia.
Qed.

End JSONProperties.

(** * Properties of the token authority *)

Section TokenProperties.

Import jwt auth.

Variable hmac : Hash -> string -> string -> string.
Variable encode : Header -> Claims -> string.

(** What the token string of [GenerateToken] is. *)
Lemma GenerateToken_eq now userID username secret ttl :
  GenerateToken hmac encode now userID username secret ttl =
    let c := NewClaims now userID username ttl in
    let h := mkHeader (Some "HS256") "JWT" in
    Ok (Compact (mkSegments (encode h c) h (reread c)
                   (Some (hmac SHA256 secret (encode h c))))).
Proof. reflexivity. Qed.

(** The claims of an issued token, as its JSON keeps them: the dates of
    [NewClaims] are whole seconds already. *)
Lemma reread_NewClaims now userID username ttl :
  reread (NewClaims now userID username ttl) =
  NewClaims now (json.reread userID) (json.reread username) ttl.
Proof.
  unfold reread, NewClaims, reread_registered. simpl.
  by rewrite !reread_date_whole.
Qed.

(** For a token string whose signature verifies, [ValidateToken] depends
    only on the claims and the clock. *)
Lemma ValidateToken_verified tParse tCheck p secret :
  signature_verifies hmac secret (Compact p) = true ->
  ValidateToken hmac tParse tCheck (Compact p) secret =
    match Validate tParse (payload p) with
    | [] => if IsExpired tCheck (payload p) then Err ErrExpiredToken
            else Ok (payload p)
    | errs => if errors_Is (ErrTokenInvalidClaims :: errs) ErrTokenExpired
              then Err ErrExpiredToken
              else if errors_Is (ErrTokenInvalidClaims :: errs) ErrTokenMalformed
                   then Err ErrMalformedToken
                   else Err ErrInvalidToken
    end.
Proof.
  unfold signature_verifies, ValidateToken, ParseWithClaims, keyFunc.
  destruct (alg (header p)) as [a|]; [|done].
  destruct (signature p) as [sig|]; [|done].
  destruct (GetSigningMethod a) as [[h| | | | |]|]; try done.
  simpl. intros ->. by destruct (Validate tParse (payload p)).
Qed.

(** C3, as the code has it.  The expiry is cut down to whole seconds, so
    the round trip holds for a lifetime of at least one second: a token
    issued at [now] for [ttl] and verified under the same secret at any
    time from [now] to [now + ttl - 1s] (immediately, when [ttl >= 1s])
    yields claims that are not expired.  Their user ID and user name are
    the issued ones as the token's JSON keeps them: equal to the issued
    values when these are valid UTF-8, and with U+FFFD in place of every
    byte that is not otherwise. *)
Theorem Issue_Verify_roundtrip now tParse tCheck userID username secret ttl :
  now <= tParse <= tCheck ->
  tCheck <= now + ttl - time.Second ->
  exists tok c,
    GenerateToken hmac encode now userID username secret ttl = Ok tok /\
    ValidateToken hmac tParse tCheck tok secret = Ok c /\
    UserID c = json.reread userID /\ Username c = json.reread username /\
    (utf8.ValidString userID = true -> UserID c = userID) /\
    (utf8.ValidString username = true -> Username c = username) /\
    IsExpired tCheck c = false.
Proof.
  intros Hnow Hlate.
  pose proof (NewNumericDate_bounds (now + ttl)) as Hexp.
  eexists. exists (reread (NewClaims now userID username ttl)).
  split; [apply GenerateToken_eq|].
  rewrite ValidateToken_verified by (simpl; apply String.eqb_refl).
  rewrite reread_NewClaims.
  unfold Validate, IsExpired. simpl.
  replace (tParse <? NewNumericDate (now + ttl)) with true
    by (symmetry; apply Z.ltb_lt; lia).
  replace (NewNumericDate (now + ttl) <? tCheck) with false
    by (symmetry; apply Z.ltb_ge; lia).
  repeat split; by apply reread_valid.
Qed.

(** C6, as the code has it.  For a token string that is structurally
    valid and whose signature verifies under the secret, verified at the
    instant [t]: the result is [ErrExpiredToken] exactly when an expiry is
    present and is at or before [t]; with no expiry the token never
    expires, and the result is the claims unless the token carries a
    not-before time that is still ahead, which the parser rejects. *)
Theorem ValidateToken_expiry t p secret :
  signature_verifies hmac secret (Compact p) = true ->
  (ValidateToken hmac t t (Compact p) secret = Err ErrExpiredToken <->
     exists exp, ExpiresAt (Registered (payload p)) = Some exp /\ exp <= t) /\
  (ExpiresAt (Registered (payload p)) = None ->
     ValidateToken hmac t t (Compact p) secret =
       if nbf_reached t (payload p) then Ok (payload p) else Err ErrInvalidToken).
Proof.
  intros Hsig. rewrite ValidateToken_verified by done.
  unfold Validate, IsExpired, nbf_reached. simpl.
  destruct (ExpiresAt (Registered (payload p))) as [exp|];
    destruct (NotBefore (Registered (payload p))) as [nbf|]; simpl.
  - destruct (t <? exp) eqn:He; destruct (t <? nbf) eqn:Hn; simpl;
      try replace (exp <? t) with false by (symmetry; apply Z.ltb_ge; lia);
      (split; [split|done]);
      try (intros _; exists exp; split; [done|lia]);
      try (intros (? & [= <-] & ?); lia); try done.
  - destruct (t <? exp) eqn:He; simpl;
      try replace (exp <? t) with false by (symmetry; apply Z.ltb_ge; lia);
      (split; [split|done]);
      try (intros _; exists exp; split; [done|lia]);
      try (intros (? & [= <-] & ?); lia); try done.
  - split.
    + destruct (t <? nbf); simpl; (split; [done|by intros (? & ? & ?)]).
    + intros _. destruct (t <? nbf) eqn:Hn; simpl.
      * by replace (nbf <=? t) with false by (symmetry; apply Z.leb_gt; lia).
      * by replace (nbf <=? t) with true by (symmetry; apply Z.leb_le; lia).
  - split; [split; [done|by intros (? & ? & ?)]|done].
Qed.

(** C7.  For every secret and every token string whose signature does not
    verify under it (the signature is not the keyed hash under that
    secret, or the header names a method outside the HMAC family):
    [ValidateToken] never returns claims, and when the token string has
    its three decodable segments, or is empty, the error is
    [ErrInvalidToken]. *)
Theorem ValidateToken_rejects_unverified tParse tCheck tok secret :
  signature_verifies hmac secret tok = false ->
  is_Ok (ValidateToken hmac tParse tCheck tok secret) = false /\
  (forall p sig, tok = Compact p -> signature p = Some sig ->
     ValidateToken hmac tParse tCheck tok secret = Err ErrInvalidToken) /\
  (tok = EmptyString ->
     ValidateToken hmac tParse tCheck tok secret = Err ErrInvalidToken).
Proof.
  intros Hsig.
  assert (forall p sig, tok = Compact p -> signature p = Some sig ->
            ValidateToken hmac tParse tCheck tok secret = Err ErrInvalidToken) as Hbad.
  { intros p sig -> Hs. revert Hsig.
    unfold signature_verifies, ValidateToken, ParseWithClaims, keyFunc. rewrite Hs.
    destruct (alg (header p)) as [a|]; [|done].
    destruct (GetSigningMethod a) as [[h| | | | |]|]; try done.
    simpl. by intros ->. }
  split; [|split; [done|by intros ->]].
  destruct tok as [| |p]; [done|done|].
  destruct (signature p) as [sig|] eqn:Hs; [by erewrite Hbad|].
  unfold ValidateToken, ParseWithClaims. rewrite Hs.
  destruct (alg (header p)) as [a|]; [|done].
  by destruct (GetSigningMethod a).
Qed.

End TokenProperties.

(** *** The token properties at concrete tokens *)

Module TokenExamples.

Import jwt auth.

Lemma Issue_Verify_roundtrip_witness :
  exists tok c,
    GenerateToken scenario.toy_hmac scenario.toy_encode scenario.quarter_past
      "user123" "testuser" "test-secret" time.Hour = Ok tok /\
    ValidateToken scenario.toy_hmac scenario.quarter_past scenario.quarter_past
      tok "test-secret" = Ok c /\
    UserID c = json.reread "user123" /\ Username c = json.reread "testuser" /\
    (utf8.ValidString "user123" = true -> UserID c = "user123") /\
    (utf8.ValidString "testuser" = true -> Username c = "testuser") /\
    IsExpired scenario.quarter_past c = false.
Proof.
  apply (Issue_Verify_roundtrip scenario.toy_hmac scenario.toy_encode
           scenario.quarter_past scenario.quarter_past scenario.quarter_past
           "user123" "testuser" "test-secret" time.Hour).
  - lia.
  - unfold scenario.quarter_past, time.Hour, time.Minute, time.Second,
      time.Millisecond, time.Microsecond, time.Nanosecond. lia.
Defined.

(** A lifetime of half a second, issued a quarter past the second: the
    expiry is cut down to the second before the issue, and the token is
    expired on arrival. *)
Lemma Issue_Verify_subsecond_expired :
  0 < 500 * time.Millisecond /\
  match GenerateToken scenario.toy_hmac scenario.toy_encode scenario.quarter_past
          "user123" "testuser" "test-secret" (500 * time.Millisecond) with
  | Ok tok =>
      ValidateToken scenario.toy_hmac scenario.quarter_past scenario.quarter_past
        tok "test-secret" = Err ErrExpiredToken
  | Err _ => False
  end.
Proof. vm_compute. split; reflexivity. Qed.

(** A user ID that is not valid UTF-8, here the single byte FF: the token
    verifies, and the user ID that comes back is U+FFFD, three other
    bytes. *)
Example Issue_Verify_invalid_utf8 :
  let userID := String (ascii_of_N 255) "" in
  utf8.ValidString userID = false /\
  match GenerateToken scenario.toy_hmac scenario.toy_encode scenario.quarter_past
          userID "testuser" "test-secret" time.Hour with
  | Ok tok =>
      exists c,
        ValidateToken scenario.toy_hmac scenario.quarter_past scenario.quarter_past
          tok "test-secret" = Ok c /\
        UserID c = utf8.RuneError "" /\ UserID c <> userID /\
        Subject (Registered c) <> userID
  | Err _ => False
  end.
Proof. vm_compute. split; [done|]. eexists. repeat split; discriminate. Qed.

Lemma ValidateToken_expiry_witness :
  let p := scenario.signed "test-secret" scenario.undated in
  (ValidateToken scenario.toy_hmac scenario.quarter_past scenario.quarter_past
     (Compact p) "test-secret" = Err ErrExpiredToken <->
     exists exp, ExpiresAt (Registered (payload p)) = Some exp /\
                 exp <= scenario.quarter_past) /\
  (ExpiresAt (Registered (payload p)) = None ->
     ValidateToken scenario.toy_hmac scenario.quarter_past scenario.quarter_past
       (Compact p) "test-secret" =
       if nbf_reached scenario.quarter_past (payload p)
       then Ok (payload p) else Err ErrInvalidToken).
Proof.
  intros p.
  apply (ValidateToken_expiry scenario.toy_hmac scenario.quarter_past p "test-secret").
  reflexivity.
Defined.

(** A token without expiry whose not-before time is an hour ahead: the
    signature verifies, and the result is [ErrInvalidToken], not the
    claims. *)
Lemma ValidateToken_postdated_rejected :
  let p := scenario.signed "test-secret" scenario.postdated in
  signature_verifies scenario.toy_hmac "test-secret" (Compact p) = true /\
  ExpiresAt (Registered (payload p)) = None /\
  ValidateToken scenario.toy_hmac scenario.quarter_past scenario.quarter_past
    (Compact p) "test-secret" = Err ErrInvalidToken.
Proof. vm_compute. repeat split. Qed.

Lemma ValidateToken_rejects_unverified_witness :
  let tok := Compact (scenario.signed "test-secret" scenario.undated) in
  is_Ok (ValidateToken scenario.toy_hmac scenario.quarter_past scenario.quarter_past
           tok "wrong-secret") = false /\
  (forall p sig, tok = Compact p -> signature p = Some sig ->
     ValidateToken scenario.toy_hmac scenario.quarter_past scenario.quarter_past
       tok "wrong-secret" = Err ErrInvalidToken) /\
  (tok = EmptyString ->
     ValidateToken scenario.toy_hmac scenario.quarter_past scenario.quarter_past
       tok "wrong-secret" = Err ErrInvalidToken).
Proof.
  intros tok.
  apply (ValidateToken_rejects_unverified scenario.toy_hmac scenario.quarter_past
           scenario.quarter_past tok "wrong-secret").
  reflexivity.
Defined.

(** The cases of the package's own test table. *)
Example ValidateToken_empty :
  ValidateToken scenario.toy_hmac 0 0 EmptyString "test-secret" = Err ErrInvalidToken.
Proof. reflexivity. Qed.

Example ValidateToken_malformed :
  ValidateToken scenario.toy_hmac 0 0 Unparsable "test-secret" = Err ErrMalformedToken.
Proof. reflexivity. Qed.

Example ValidateToken_none_algorithm :
  let h := mkHeader (Some "none") "JWT" in
  ValidateToken scenario.toy_hmac 0 0
    (Compact (mkSegments "x" h scenario.undated (Some ""))) "test-secret"
  = Err ErrInvalidToken.
Proof. reflexivity. Qed.

End TokenExamples.

(** * Further properties of the token authority *)

Section TokenCoverage.

Import jwt auth.

Variable hmac : Hash -> string -> string -> string.
Variable encode : Header -> Claims -> string.

Lemma GetSigningMethod_Alg a m : GetSigningMethod a = Some m -> a = Alg m.
Proof.
  unfold GetSigningMethod. intros H. apply find_some in H as [_ H].
  symmetry. by apply String.eqb_eq.
Qed.

(** What the parser's validator found when it found nothing. *)
Lemma Validate_nil t (c : Claims) :
  Validate t c = [] ->
  (forall exp, ExpiresAt (Registered c) = Some exp -> t < exp) /\
  (forall nbf, NotBefore (Registered c) = Some nbf -> nbf <= t).
Proof.
  unfold Validate. simpl.
  destruct (ExpiresAt (Registered c)) as [exp|], (NotBefore (Registered c)) as [nbf|];
    repeat match goal with |- context [?a <? ?b] => destruct (Z.ltb_spec a b) end;
    simpl; intros [=]; split; intros ? [= <-]; lia.
Qed.

(** X12.  What an accepted token is.  Whenever [ValidateToken] returns
    claims, the token string had its three segments, the claims are the
    ones it carries, its header names an HMAC method (HS256, HS384 or
    HS512), its signature is the keyed hash of the signed text under the
    secret with that method's hash, an expiry, if present, lies strictly
    after the parser's clock reading and not before the second reading,
    and a not-before time, if present, has been reached. *)
Theorem ValidateToken_accepts_only tParse tCheck tok secret c :
  ValidateToken hmac tParse tCheck tok secret = Ok c ->
  exists p h,
    tok = Compact p /\ payload p = c /\
    alg (header p) = Some (Alg (SigningMethodHMAC h)) /\
    signature p = Some (hmac h secret (signingString p)) /\
    signature_verifies hmac secret tok = true /\
    (forall exp, ExpiresAt (Registered c) = Some exp -> tParse < exp /\ tCheck <= exp) /\
    (forall nbf, NotBefore (Registered c) = Some nbf -> nbf <= tParse).
Proof.
  destruct tok as [| |p]; [done|done|].
  unfold ValidateToken, ParseWithClaims, keyFunc, signature_verifies.
  destruct (alg (header p)) as [a|] eqn:Ha; [|done].
  destruct (GetSigningMethod a) as [m|] eqn:Hm; [|done].
  destruct (signature p) as [sig|] eqn:Hs; [|done].
  apply GetSigningMethod_Alg in Hm as ->.
  destruct m as [h| | | | |]; try done. cbn [Method is_HMAC Verify].
  destruct (String.eqb sig (hmac h secret (signingString p))) eqn:Hv; [|done].
  apply String.eqb_eq in Hv as ->.
  destruct (Validate tParse (payload p)) as [|e errs] eqn:Hval.
  2:{ destruct (errors_Is _ ErrTokenExpired); [done|].
      by destruct (errors_Is _ ErrTokenMalformed). }
  cbn [Valid negb TokenClaims].
  destruct (IsExpired tCheck (payload p)) eqn:Hexp; [done|].
  intros [= <-]. exists p, h.
  apply Validate_nil in Hval as [Hval1 Hval2].
  repeat split; try done.
  - by apply Hval1.
  - unfold IsExpired in Hexp. rewrite H in Hexp. apply Z.ltb_ge in Hexp. lia.
Qed.

(** X13.  What the other verdicts mean.  [ErrExpiredToken] is only
    given to a token whose signature verifies under the secret and whose
    expiry is at or before the parser's clock reading, or before the second
    reading: a forged token is never told that it is expired, and an
    expired token that is also not yet valid is reported as expired.
    [ErrMalformedToken] is only given when the text does not split into
    three decodable segments or its signature segment does not decode. *)
Theorem ValidateToken_verdicts tParse tCheck tok secret :
  (ValidateToken hmac tParse tCheck tok secret = Err ErrExpiredToken ->
     signature_verifies hmac secret tok = true /\
     exists p exp,
       tok = Compact p /\ ExpiresAt (Registered (payload p)) = Some exp /\
       (exp <= tParse \/ exp < tCheck)) /\
  (forall p exp,
     tok = Compact p -> signature_verifies hmac secret tok = true ->
     ExpiresAt (Registered (payload p)) = Some exp -> exp <= tParse ->
     ValidateToken hmac tParse tCheck tok secret = Err ErrExpiredToken) /\
  (ValidateToken hmac tParse tCheck tok secret = Err ErrMalformedToken ->
     tok = Unparsable \/ exists p, tok = Compact p /\ signature p = None).
Proof.
  split; [|split].
  - destruct tok as [| |p]; [done|done|].
    unfold ValidateToken, ParseWithClaims, keyFunc, signature_verifies.
    destruct (alg (header p)) as [a|] eqn:Ha; [|done].
    destruct (GetSigningMethod a) as [m|] eqn:Hm; [|done].
    destruct (signature p) as [sig|] eqn:Hs; [|done].
    destruct m as [h| | | | |]; try done. cbn [Method is_HMAC Verify].
    destruct (String.eqb sig (hmac h secret (signingString p))) eqn:Hv; [|done].
    unfold Validate, IsExpired. simpl.
    destruct (ExpiresAt (Registered (payload p))) as [exp|] eqn:Hexp; simpl.
    + destruct (Z.ltb_spec tParse exp); simpl.
      * destruct (NotBefore (Registered (payload p))) as [nbf|]; simpl.
        -- destruct (tParse <? nbf); simpl; [done|]. rewrite ?Hexp.
           destruct (Z.ltb_spec exp tCheck); [|done].
           intros _. split; [done|]. exists p, exp. repeat split; try done. lia.
        -- rewrite ?Hexp. destruct (Z.ltb_spec exp tCheck); [|done].
           intros _. split; [done|]. exists p, exp. repeat split; try done. lia.
      * intros _. split; [done|]. exists p, exp. repeat split; try done. lia.
    + destruct (NotBefore (Registered (payload p))) as [nbf|]; simpl;
        [destruct (tParse <? nbf); simpl; [done|]|]; by rewrite ?Hexp.
  - intros p exp -> Hsig Hexp Hle.
    rewrite ValidateToken_verified by done.
    unfold Validate. simpl. rewrite Hexp.
    replace (tParse <? exp) with false by (symmetry; apply Z.ltb_ge; lia).
    done.
  - destruct tok as [| |p]; [done|by left|]. intros Hm. right. exists p. split; [done|].
    revert Hm. unfold ValidateToken, ParseWithClaims, keyFunc.
    destruct (alg (header p)) as [a|]; [|done].
    destruct (GetSigningMethod a) as [m|]; [|done].
    destruct (signature p) as [sig|]; [|done].
    cbn [Method]. destruct (is_HMAC m); [|done].
    destruct (Verify hmac m (signingString p) sig (KeyBytes secret)); [|done].
    unfold Validate. simpl.
    destruct (ExpiresAt (Registered (payload p))) as [exp|],
             (NotBefore (Registered (payload p))) as [nbf|]; simpl;
      repeat match goal with |- context [?a <? ?b] => destruct (a <? b) end;
      simpl; try done;
      by destruct (IsExpired tCheck (payload p)).
Qed.

(** The token [GenerateToken] issues and the verdict on it under the same
    secret. *)
Lemma issued_token_verdict now tParse tCheck userID username secret ttl :
  let c := NewClaims now userID username ttl in
  let h := mkHeader (Some "HS256") "JWT" in
  let p := mkSegments (encode h c) h (reread c)
             (Some (hmac SHA256 secret (encode h c))) in
  let exp := NewNumericDate (now + ttl) in
  GenerateToken hmac encode now userID username secret ttl = Ok (Compact p) /\
  ValidateToken hmac tParse tCheck (Compact p) secret =
    (if (tParse <? exp) && (tCheck <=? exp) then Ok (reread c)
     else Err ErrExpiredToken).
Proof.
  intros c h p exp. split; [reflexivity|].
  rewrite ValidateToken_verified by (simpl; apply String.eqb_refl).
  unfold p, c. cbn [payload]. rewrite reread_NewClaims.
  unfold Validate, IsExpired. simpl. fold exp.
  destruct (Z.ltb_spec tParse exp); simpl; [|done].
  destruct (Z.ltb_spec exp tCheck), (Z.leb_spec tCheck exp); try done; lia.
Qed.

(** The recorded lifetime of a whole number of seconds. *)
Lemma NewNumericDate_add_whole now n :
  NewNumericDate (now + n * time.Second) = NewNumericDate now + n * time.Second.
Proof.
  unfold NewNumericDate. rewrite Z.mod_add by done. lia.
Qed.

(** X14.  The lifetime of an issued token.  A token issued at [now] for
    [ttl] expires at [now + ttl] cut down to the whole second.  Verified
    under the same secret, it yields claims exactly when the parser reads
    the clock strictly before that expiry and the second reading is not
    after it; otherwise the verdict is [ErrExpiredToken], and never any
    other error.  The claims it yields are those of [NewClaims] for the
    user ID and the user name as the token's JSON keeps them, which are the
    issued claims when both strings are valid UTF-8.  In particular a token
    with [ttl <= 0] is expired from the start, and any token is expired
    from [now + ttl] on. *)
Theorem GenerateToken_lifetime now tParse tCheck userID username secret ttl :
  let exp := NewNumericDate (now + ttl) in
  let kept := NewClaims now (json.reread userID) (json.reread username) ttl in
  exists tok,
    GenerateToken hmac encode now userID username secret ttl = Ok tok /\
    ValidateToken hmac tParse tCheck tok secret =
      (if (tParse <? exp) && (tCheck <=? exp) then Ok kept
       else Err ErrExpiredToken) /\
    (utf8.ValidString userID = true -> utf8.ValidString username = true ->
     kept = NewClaims now userID username ttl) /\
    now + ttl - time.Second < exp <= now + ttl /\
    (now + ttl <= tParse ->
     ValidateToken hmac tParse tCheck tok secret = Err ErrExpiredToken).
Proof.
  intros exp kept.
  destruct (issued_token_verdict now tParse tCheck userID username secret ttl)
    as [Hgen Hval].
  eexists. split; [exact Hgen|]. fold exp in Hval.
  pose proof (NewNumericDate_bounds (now + ttl)) as Hb. fold exp in Hb.
  split; [by rewrite Hval, reread_NewClaims|]. split; [|split; [done|]].
  - intros Hu Hn. unfold kept. by rewrite !reread_valid.
  - intros Hlate. rewrite Hval.
    by replace (tParse <? exp) with false by (symmetry; apply Z.ltb_ge; lia).
Qed.

(** X15.  The fields of new claims.  [NewClaims] records the user ID
    also as the subject, sets no not-before time, and stamps issue and
    expiry in whole seconds: the issue time is [now] cut down to the second,
    and the recorded lifetime (expiry minus issue time) is a whole number of
    seconds within one second of [ttl], equal to [ttl] whenever [ttl] is a
    whole number of seconds. *)
Theorem NewClaims_fields now userID username ttl :
  let c := NewClaims now userID username ttl in
  UserID c = userID /\ Username c = username /\
  Subject (Registered c) = userID /\ NotBefore (Registered c) = None /\
  exists iat exp,
    IssuedAt (Registered c) = Some iat /\ ExpiresAt (Registered c) = Some exp /\
    iat mod time.Second = 0 /\ exp mod time.Second = 0 /\
    now - time.Second < iat <= now /\
    ttl - time.Second < exp - iat < ttl + time.Second /\
    (ttl mod time.Second = 0 -> exp - iat = ttl).
Proof.
  simpl. repeat split.
  exists (NewNumericDate now), (NewNumericDate (now + ttl)).
  unfold NewNumericDate. change time.Second with 1000000000.
  pose proof (Z.mod_pos_bound now 1000000000 ltac:(lia)).
  pose proof (Z.mod_pos_bound (now + ttl) 1000000000 ltac:(lia)).
  pose proof (Z.div_mod now 1000000000 ltac:(lia)) as Hn.
  pose proof (Z.div_mod (now + ttl) 1000000000 ltac:(lia)) as Hnt.
  assert (forall x, (x - x mod 1000000000) mod 1000000000 = 0) as Hwhole.
  { intros x. rewrite Zminus_mod_idemp_r. replace (x - x) with 0 by lia. done. }
  repeat split; try apply Hwhole; try lia.
  intros Httl.
  assert ((now + ttl) mod 1000000000 = now mod 1000000000) as ->; [|lia].
  rewrite <- Zplus_mod_idemp_r, Httl, Z.add_0_r. done.
Qed.

End TokenCoverage.

(** *** The further token properties at concrete tokens *)

Module TokenCoverageExamples.

Import jwt auth.

Lemma ValidateToken_accepts_only_witness :
  let tok := Compact (scenario.signed "test-secret" scenario.undated) in
  let c := scenario.undated in
  exists p h,
    tok = Compact p /\ payload p = c /\
    alg (header p) = Some (Alg (SigningMethodHMAC h)) /\
    signature p = Some (scenario.toy_hmac h "test-secret" (signingString p)) /\
    signature_verifies scenario.toy_hmac "test-secret" tok = true /\
    (forall exp, ExpiresAt (Registered c) = Some exp ->
       scenario.quarter_past < exp /\ scenario.quarter_past <= exp) /\
    (forall nbf, NotBefore (Registered c) = Some nbf -> nbf <= scenario.quarter_past).
Proof.
  intros tok c.
  apply (ValidateToken_accepts_only scenario.toy_hmac scenario.quarter_past
           scenario.quarter_past tok "test-secret" c).
  reflexivity.
Defined.

End TokenCoverageExamples.

(** * Properties of the adapters *)

Section StringProperties.

Lemma append_cons a s r : String a s +:+ r = String a (s +:+ r).
Proof. reflexivity. Qed.

Lemma append_nil_l r : "" +:+ r = r.
Proof. reflexivity. Qed.

Lemma length_append p r :
  String.length (p +:+ r) = (String.length p + String.length r)%nat.
Proof. induction p as [|a p IH]; [done|]. rewrite append_cons. simpl. by rewrite IH. Qed.

Lemma substring_all s : substring 0 (String.length s) s = s.
Proof. induction s as [|a s IH]; simpl; [done|]. by rewrite IH. Qed.

Lemma substring_append_l p r : substring 0 (String.length p) (p +:+ r) = p.
Proof.
  induction p as [|a p IH]; [by destruct r|].
  rewrite append_cons. simpl. by rewrite IH.
Qed.

Lemma substring_append_r p r n :
  substring (String.length p) n (p +:+ r) = substring 0 n r.
Proof. induction p as [|a p IH]; [done|]. rewrite append_cons. simpl. apply IH. Qed.

Lemma substring_split s : forall n,
  (n <= String.length s)%nat ->
  s = substring 0 n s +:+ substring n (String.length s - n) s.
Proof.
  induction s as [|a s IH]; intros [|n] Hn; simpl in *; try done; try lia.
  - by rewrite append_nil_l, substring_all.
  - rewrite append_cons. f_equal. apply IH. lia.
Qed.

Lemma HasPrefix_spec s p :
  strings.HasPrefix s p = true <-> exists r, s = p +:+ r.
Proof.
  unfold strings.HasPrefix. rewrite andb_true_iff, Nat.leb_le, String.eqb_eq. split.
  - intros [Hlen Hsub].
    exists (substring (String.length p) (String.length s - String.length p) s).
    pose proof (substring_split s (String.length p) Hlen) as Hsplit.
    by rewrite Hsub in Hsplit.
  - intros [r ->]. rewrite length_append, substring_append_l. split; [lia|done].
Qed.

Lemma TrimPrefix_append p r : strings.TrimPrefix (p +:+ r) p = r.
Proof.
  unfold strings.TrimPrefix.
  rewrite (proj2 (HasPrefix_spec (p +:+ r) p)) by eauto.
  rewrite length_append, substring_append_r.
  replace (String.length p + String.length r - String.length p)%nat
    with (String.length r) by lia.
  apply substring_all.
Qed.

Lemma HasSuffix_spec s x :
  strings.HasSuffix s x = true <-> exists r, s = r +:+ x.
Proof.
  unfold strings.HasSuffix. rewrite andb_true_iff, Nat.leb_le, String.eqb_eq. split.
  - intros [Hlen Hsub].
    exists (substring 0 (String.length s - String.length x) s).
    pose proof (substring_split s (String.length s - String.length x) ltac:(lia))
      as Hsplit.
    replace (String.length s - (String.length s - String.length x))%nat
      with (String.length x) in Hsplit by lia.
    by rewrite Hsub in Hsplit.
  - intros [r ->]. rewrite length_append. split; [lia|].
    replace (String.length r + String.length x - String.length x)%nat
      with (String.length r) by lia.
    rewrite substring_append_r. apply substring_all.
Qed.

Lemma TrimSuffix_append r x : strings.TrimSuffix (r +:+ x) x = r.
Proof.
  unfold strings.TrimSuffix.
  rewrite (proj2 (HasSuffix_spec (r +:+ x) x)) by eauto.
  rewrite length_append.
  replace (String.length r + String.length x - String.length x)%nat
    with (String.length r) by lia.
  apply substring_append_l.
Qed.

End StringProperties.

Section AdapterProperties.

Import jwt auth iface ctxvalue.

Variable hmac : Hash -> string -> string -> string.
Variable encode : Header -> Claims -> string.
Variable decode : string -> option (Segments Claims).

(** *** The paths that skip authentication *)

Lemma gozero_skips_spec paths currentPath :
  gozero.skips paths currentPath = true <->
  exists path, In path paths /\
    (path = currentPath \/
     exists pre rest, path = pre +:+ "/*" /\ currentPath = pre +:+ rest).
Proof.
  induction paths as [|path paths IH]; simpl.
  - split; [done|]. by intros (? & [] & _).
  - destruct (String.eqb_spec path currentPath) as [->|Hne].
    { split; [|done]. intros _. exists currentPath. split; [by left|by left]. }
    destruct (strings.HasSuffix path "/*") eqn:Hsuf; simpl.
    + apply HasSuffix_spec in Hsuf as [pre ->].
      rewrite TrimSuffix_append.
      destruct (strings.HasPrefix currentPath pre) eqn:Hpre.
      * split; [|done]. intros _. apply HasPrefix_spec in Hpre as [rest ->].
        exists (pre +:+ "/*"). split; [by left|]. right. by exists pre, rest.
      * rewrite IH. split.
        -- intros (q & Hin & Hq). exists q. split; [by right|done].
        -- intros (q & [<-|Hin] & Hq); [|by exists q].
           destruct Hq as [Hq|(pre' & rest & Heq & ->)]; [done|].
           assert (pre' = pre) as ->.
           { assert (String.length pre' = String.length pre) as Hlen.
             { apply (f_equal String.length) in Heq.
               rewrite !length_append in Heq. lia. }
             apply (f_equal (substring 0 (String.length pre))) in Heq.
             rewrite substring_append_l, <- Hlen, substring_append_l in Heq.
             done. }
           assert (strings.HasPrefix (pre +:+ rest) pre = true) as Hp
             by (apply HasPrefix_spec; eauto).
           congruence.
    + rewrite IH. split.
      * intros (q & Hin & Hq). exists q. split; [by right|done].
      * intros (q & [<-|Hin] & Hq); [|by exists q].
        destruct Hq as [Hq|(pre & rest & -> & _)]; [done|].
        assert (strings.HasSuffix (pre +:+ "/*") "/*" = true) as Hs
          by (apply HasSuffix_spec; eauto).
        congruence.
Qed.

Lemma gin_skips_gozero paths currentPath :
  gin.skips paths currentPath = gozero.skips paths currentPath.
Proof. induction paths as [|path paths IH]; simpl; [done|]. by rewrite IH. Qed.

(** X16.  Which paths skip authentication.  A path is let through
    without a token exactly when some entry of [SkipPaths] equals it, or
    some entry is [pre/*] and the path starts with [pre].  The match is on
    the bare prefix: the entry [pre/*] also lets through [pre] itself and
    every path that merely begins with the characters of [pre], and the
    entry [/*] lets every path through.  The loop of the Gin adapter
    decides every path alike. *)
Theorem gozero_skips_paths paths currentPath :
  (gozero.skips paths currentPath = true <->
   exists path, In path paths /\
     (path = currentPath \/
      exists pre rest, path = pre +:+ "/*" /\ currentPath = pre +:+ rest)) /\
  (forall pre rest, In (pre +:+ "/*") paths ->
     gozero.skips paths (pre +:+ rest) = true) /\
  (In "/*" paths -> gozero.skips paths currentPath = true) /\
  (In currentPath paths -> gozero.skips paths currentPath = true) /\
  gin.skips paths currentPath = gozero.skips paths currentPath.
Proof.
  split; [apply gozero_skips_spec|]. split; [|split; [|split]].
  4: apply gin_skips_gozero.
  - intros pre rest Hin. apply gozero_skips_spec.
    exists (pre +:+ "/*"). split; [done|]. right. by exists pre, rest.
  - intros Hin. apply gozero_skips_spec.
    exists "/*". split; [done|]. right. by exists "", currentPath.
  - intros Hin. apply gozero_skips_spec. exists currentPath. split; [done|by left].
Qed.

(** The Swagger entry of the starter lets through a path that is not
    under /swagger/. *)
Example swagger_entry_is_a_prefix :
  gozero.skips ["/health"; "/login"; "/swagger/*"] "/swagger-admin/users" = true /\
  gin.skips ["/health"; "/login"; "/swagger/*"] "/swagger-admin/users" = true.
Proof. vm_compute. split; reflexivity. Qed.

(** *** The go-zero middleware *)

(** The cases of the Authorization header. *)
Lemma bearer_cases authHeader :
  authHeader = "" \/
  (authHeader <> "" /\ strings.HasPrefix authHeader "Bearer " = false) \/
  (authHeader = "Bearer " /\ strings.TrimPrefix authHeader "Bearer " = "") \/
  (exists token, token <> "" /\ authHeader = "Bearer " +:+ token /\
                 strings.HasPrefix authHeader "Bearer " = true /\
                 strings.TrimPrefix authHeader "Bearer " = token).
Proof.
  destruct (decide (authHeader = "")) as [->|Hne]; [by left|right].
  destruct (strings.HasPrefix authHeader "Bearer ") eqn:Hp; [|by left].
  right. pose proof Hp as Hp'. apply HasPrefix_spec in Hp' as [token ->].
  rewrite TrimPrefix_append.
  destruct (decide (token = "")) as [->|Ht]; [by left|].
  right. by exists token.
Qed.

(** X17.  The go-zero middleware as a guard.  On every request one of
    three things happens.  The path is skipped, and the next handler gets
    the request as it came.  Or the path is not skipped, the Authorization
    header is "Bearer " followed by a non-empty token that [ValidateToken]
    accepts under the configured secret, and the next handler gets the
    request with a context from which [GetUserID] and [GetClaims] return
    the token's user ID and claims.  Or the next handler is not called at
    all: the response is status 401 with error "unauthorized", and the
    message names the reason.  So on a path that is not skipped the next
    handler never runs without a token that [ValidateToken] accepted. *)
Theorem gozero_AuthMiddleware_admits config tParse tCheck next w r :
  let out := gozero.AuthMiddleware hmac decode config tParse tCheck next w r in
  let authHeader := http.Header_Get (gozero.Header r) "Authorization" in
  (gozero.skips (gozero.SkipPaths config) (gozero.URLPath r) = true /\
   out = next w r) \/
  (gozero.skips (gozero.SkipPaths config) (gozero.URLPath r) = false /\
   exists token claims r',
     authHeader = "Bearer " +:+ token /\ token <> "" /\
     wire.ValidateToken hmac decode tParse tCheck token (gozero.Secret config)
       = Ok claims /\
     out = next w r' /\
     gozero.URLPath r' = gozero.URLPath r /\ gozero.Header r' = gozero.Header r /\
     gozero.GetUserID (gozero.Context r') = UserID claims /\
     gozero.GetClaims (gozero.Context r') = Some claims) \/
  (gozero.skips (gozero.SkipPaths config) (gozero.URLPath r) = false /\
   exists message,
     out = gozero.writeErrorResponse w http.StatusUnauthorized "unauthorized" message /\
     ((authHeader = "" /\ message = "missing authorization header") \/
      (authHeader <> "" /\ strings.HasPrefix authHeader "Bearer " = false /\
       message = "invalid authorization header format") \/
      (authHeader = "Bearer " /\ message = "missing token") \/
      (exists token err,
         authHeader = "Bearer " +:+ token /\ token <> "" /\
         wire.ValidateToken hmac decode tParse tCheck token (gozero.Secret config)
           = Err err /\
         message = match err with
                   | ErrExpiredToken => "token expired"
                   | ErrMalformedToken => "malformed token"
                   | ErrInvalidToken => "invalid token"
                   end))).
Proof.
  intros out authHeader. subst out. unfold gozero.AuthMiddleware.
  destruct (gozero.skips _ _); [by left|right].
  fold authHeader.
  destruct (bearer_cases authHeader)
    as [Hh|[(Hne & Hp)|[(Hh & Ht)|(token & Hne & Hh & Hp & Ht)]]].
  - right. split; [done|]. rewrite Hh. simpl. eexists. split; [done|]. by left.
  - right. split; [done|].
    rewrite (proj2 (String.eqb_neq _ _) Hne), Hp. simpl.
    eexists. split; [done|]. right. by left.
  - right. split; [done|]. rewrite Ht, Hh. simpl.
    eexists. split; [reflexivity|]. do 2 right. by left.
  - rewrite (proj2 (String.eqb_neq authHeader "")), Hp, Ht,
      (proj2 (String.eqb_neq token "")); try done.
    2:{ rewrite Hh. by destruct token. }
    simpl.
    destruct (wire.ValidateToken hmac decode tParse tCheck token (gozero.Secret config))
      as [claims|err] eqn:Hv.
    + left. split; [done|]. eexists token, claims, _.
      split; [done|]. split; [done|]. split; [done|]. split; [reflexivity|].
      by repeat split.
    + right. split; [done|]. eexists. split; [reflexivity|].
      do 3 right. exists token, err. by destruct err.
Qed.

(** *** The Gin middleware *)

(** X18.  The Gin middleware decides alike.  On a context that is
    not aborted it makes the decision of the go-zero middleware for the
    same configuration, path, headers and clock: both pass the request on
    unchanged on a skipped path; both pass it on with the accepted token's
    claims and user ID attached, which [GetUserID] and [GetClaims] of either
    adapter then return; or both refuse with status 401, error
    "unauthorized" and the same message, Gin also setting the abort flag,
    and neither runs the handlers behind it. *)
Theorem gin_AuthMiddleware_agrees
    (gconfig : gin.AuthMiddlewareConfig) (zconfig : gozero.AuthMiddlewareConfig)
    tParse tCheck pending (c : gin.Context) next w (r : gozero.Request) :
  gin.Secret gconfig = gozero.Secret zconfig ->
  gin.SkipPaths gconfig = gozero.SkipPaths zconfig ->
  gin.RequestPath c = gozero.URLPath r ->
  gin.RequestHeader c = gozero.Header r ->
  gin.Aborted c = false ->
  let gout := gin.AuthMiddleware hmac decode gconfig tParse tCheck pending c in
  let zout := gozero.AuthMiddleware hmac decode zconfig tParse tCheck next w r in
  (gout = pending c /\ zout = next w r /\
   gin.skips (gin.SkipPaths gconfig) (gin.RequestPath c) = true) \/
  (exists claims c' r',
     gout = pending c' /\ zout = next w r' /\
     gin.Aborted c' = false /\ gin.Rendered c' = gin.Rendered c /\
     gin.GetUserID c' = UserID claims /\ gin.GetClaims c' = Some claims /\
     gozero.GetUserID (gozero.Context r') = UserID claims /\
     gozero.GetClaims (gozero.Context r') = Some claims /\
     (forall k, k <> gin.ContextKeyUserID -> k <> gin.ContextKeyClaims ->
                gin.Get c' k = gin.Get c k)) \/
  (exists message,
     gout = gin.Abort (gin.JSON c http.StatusUnauthorized (gin.unauthorized message)) /\
     zout = gozero.writeErrorResponse w http.StatusUnauthorized "unauthorized" message /\
     gin.Aborted gout = true /\ gin.Keys gout = gin.Keys c).
Proof.
  intros Hsecret Hpaths Hpath Hheader Hab gout zout. subst gout zout.
  unfold gin.AuthMiddleware, gozero.AuthMiddleware, gin.GetHeader, gin.Next.
  rewrite gin_skips_gozero, Hsecret, Hpaths, Hpath, Hheader, Hab.
  destruct (gozero.skips _ _); [by left|right].
  set (authHeader := http.Header_Get (gozero.Header r) "Authorization").
  destruct (bearer_cases authHeader)
    as [Hh|[(Hne & Hp)|[(Hh & Ht)|(token & Hne & Hh & Hp & Ht)]]].
  - right. rewrite Hh. simpl. eexists. by repeat split.
  - right. rewrite (proj2 (String.eqb_neq _ _) Hne), Hp. simpl.
    eexists. by repeat split.
  - right. rewrite Ht, Hh. simpl. eexists. by repeat split.
  - rewrite (proj2 (String.eqb_neq authHeader "")), Hp, Ht,
      (proj2 (String.eqb_neq token "")); try done.
    2:{ rewrite Hh. by destruct token. }
    simpl.
    destruct (wire.ValidateToken hmac decode tParse tCheck token (gozero.Secret zconfig))
      as [claims|err].
    + left. rewrite Hab. eexists claims, _, _.
      split; [reflexivity|]. split; [reflexivity|].
      simpl. repeat split; try done.
      * unfold gin.GetUserID, gin.Get. simpl. by rewrite lookup_insert_eq.
      * unfold gin.GetClaims, gin.Get. simpl.
        by rewrite lookup_insert_ne, lookup_insert_eq.
      * intros k Hk1 Hk2. unfold gin.Get. simpl.
        by rewrite !lookup_insert_ne.
    + right. eexists. by repeat split.
Qed.

(** *** Values in a context *)

Lemma Value_app_skip (later ctx : Values) key :
  Forall (fun kv => kv.1 <> key) later ->
  Value (later ++ ctx)%list key = Value ctx key.
Proof.
  induction 1 as [|[k v] later Hk _ IH]; simpl; [done|].
  simpl in Hk. by rewrite bool_decide_eq_false_2.
Qed.

(** X19.  The user ID and the claims in a context.  What [WithUserID]
    and [WithClaims] put into a context is what [GetUserID] and [GetClaims]
    get back, through any number of later layers that use other keys; each
    getter sees only its own key, so neither setter disturbs the other
    value or is disturbed by a trace ID; a context without the key gives the
    empty string or nil; and a value of another type stored under the
    user-ID key hides what was there and reads as the empty string. *)
Theorem context_values_lookup (later ctx : Values) userID claims traceID :
  (Forall (fun kv => kv.1 <> String_ gozero.ContextKeyUserID) later ->
     gozero.GetUserID (later ++ gozero.WithUserID ctx userID)%list = userID) /\
  (Forall (fun kv => kv.1 <> String_ gozero.ContextKeyClaims) later ->
     gozero.GetClaims (later ++ gozero.WithClaims ctx claims)%list = claims) /\
  (Forall (fun kv => kv.1 <> String_ gozero.ContextKeyUserID) later ->
     gozero.GetUserID (later ++ ctx)%list = gozero.GetUserID ctx) /\
  (Forall (fun kv => kv.1 <> String_ gozero.ContextKeyClaims) later ->
     gozero.GetClaims (later ++ ctx)%list = gozero.GetClaims ctx) /\
  gozero.GetUserID (gozero.WithClaims (logger.WithTraceID ctx traceID) claims)
    = gozero.GetUserID ctx /\
  gozero.GetClaims (gozero.WithUserID (logger.WithTraceID ctx traceID) userID)
    = gozero.GetClaims ctx /\
  gozero.GetUserID [] = "" /\ gozero.GetClaims [] = None /\
  (forall v, as_string (Some v) = None ->
     gozero.GetUserID
       (WithValue (gozero.WithUserID ctx userID) (String_ gozero.ContextKeyUserID) v)
       = "").
Proof.
  unfold gozero.GetUserID, gozero.GetClaims.
  repeat split; try done.
  - intros H. rewrite Value_app_skip by done. simpl.
    by rewrite ?bool_decide_eq_true_2.
  - intros H. rewrite Value_app_skip by done. simpl.
    by rewrite ?bool_decide_eq_true_2.
  - intros H. by rewrite Value_app_skip.
  - intros H. by rewrite Value_app_skip.
  - intros v Hv. simpl. rewrite ?bool_decide_eq_true_2 by done. by destruct v.
Qed.

(** X29.  The trace ID in a context.  What [WithTraceID] puts into a
    context is what [GetTraceIDFromContext] gets back, through any number
    of later layers that use other keys, the user ID and the claims of the
    go-zero adapter among them; the nil context and a context without the
    key give the empty string; the latest trace ID hides an earlier one; and
    a value that is not a string stored under the key reads as the empty
    string. *)
Theorem trace_id_lookup (later ctx : Values) traceID :
  (Forall (fun kv => kv.1 <> String_ logger.TraceIDKey) later ->
     logger.GetTraceIDFromContext (Some (later ++ logger.WithTraceID ctx traceID)%list)
       = traceID) /\
  (Forall (fun kv => kv.1 <> String_ logger.TraceIDKey) later ->
     logger.GetTraceIDFromContext (Some (later ++ ctx)%list)
       = logger.GetTraceIDFromContext (Some ctx)) /\
  (forall userID claims,
     logger.GetTraceIDFromContext
       (Some (gozero.WithUserID (gozero.WithClaims ctx claims) userID))
       = logger.GetTraceIDFromContext (Some ctx)) /\
  (forall earlier,
     logger.GetTraceIDFromContext
       (Some (logger.WithTraceID (logger.WithTraceID ctx earlier) traceID)) = traceID) /\
  logger.GetTraceIDFromContext None = "" /\
  logger.GetTraceIDFromContext (Some []) = "" /\
  (forall v, as_string (Some v) = None ->
     logger.GetTraceIDFromContext
       (Some (WithValue (logger.WithTraceID ctx traceID) (String_ logger.TraceIDKey) v))
       = "").
Proof.
  unfold logger.GetTraceIDFromContext.
  repeat split; try done.
  - intros H. rewrite Value_app_skip by done. simpl.
    by rewrite ?bool_decide_eq_true_2.
  - intros H. by rewrite Value_app_skip.
  - intros v Hv. simpl. rewrite ?bool_decide_eq_true_2 by done. by destruct v.
Qed.

(** *** From login to a protected route *)

Lemma read_text text p :
  text <> "" -> decode text = Some p -> wire.read decode text = Compact p.
Proof.
  intros Hne Hd. unfold wire.read.
  by rewrite (proj2 (String.eqb_neq _ _) Hne), Hd.
Qed.

(** X20.  From issue to a protected route.  Take the token
    [GenerateToken] issues at [now] for [ttl] under the configured secret,
    and a request on a path that is not skipped whose Authorization header
    is "Bearer " followed by the token's text.  While the clock is at most
    [now + ttl - 1s] the go-zero middleware passes the request on, and the
    handler finds in its context the user ID, the user name and the subject
    as the token's JSON keeps them: the issued ones when they are valid
    UTF-8, and with U+FFFD in place of every byte that is not otherwise.
    From [now + ttl] on the middleware answers 401 "token expired" and the
    handler does not run. *)
Theorem issued_token_opens_protected_route
    config now tParse tCheck userID username ttl next w r p text :
  GenerateToken hmac encode now userID username (gozero.Secret config) ttl
    = Ok (Compact p) ->
  text <> "" -> decode text = Some p ->
  http.Header_Get (gozero.Header r) "Authorization" = "Bearer " +:+ text ->
  gozero.skips (gozero.SkipPaths config) (gozero.URLPath r) = false ->
  let out := gozero.AuthMiddleware hmac decode config tParse tCheck next w r in
  (now <= tParse <= tCheck -> tCheck <= now + ttl - time.Second ->
     exists r' c,
       out = next w r' /\
       gozero.GetUserID (gozero.Context r') = UserID c /\
       gozero.GetClaims (gozero.Context r') = Some c /\
       UserID c = json.reread userID /\ Username c = json.reread username /\
       Subject (Registered c) = json.reread userID /\
       (utf8.ValidString userID = true ->
        UserID c = userID /\ Subject (Registered c) = userID) /\
       (utf8.ValidString username = true -> Username c = username)) /\
  (now + ttl <= tParse ->
     out = gozero.writeErrorResponse w http.StatusUnauthorized "unauthorized"
             "token expired").
Proof.
  intros Hgen Hne Hdec Hh Hskip out. subst out.
  destruct (issued_token_verdict hmac encode now tParse tCheck userID username
              (gozero.Secret config) ttl) as [Hgen' Hval].
  rewrite Hgen in Hgen'. injection Hgen' as ->.
  pose proof (NewNumericDate_bounds (now + ttl)) as Hb.
  unfold gozero.AuthMiddleware. rewrite Hskip, Hh, TrimPrefix_append.
  rewrite (proj2 (HasPrefix_spec _ _)) by eauto.
  rewrite (proj2 (String.eqb_neq text "") Hne).
  replace (("Bearer " +:+ text =? "")%string) with false by (by destruct text).
  unfold wire.ValidateToken. rewrite (read_text _ _ Hne Hdec), Hval.
  split.
  - intros Ht Hlate.
    replace (tParse <? NewNumericDate (now + ttl)) with true
      by (symmetry; apply Z.ltb_lt; lia).
    replace (tCheck <=? NewNumericDate (now + ttl)) with true
      by (symmetry; apply Z.leb_le; lia).
    rewrite reread_NewClaims. simpl.
    eexists _, (NewClaims now (json.reread userID) (json.reread username) ttl).
    do 6 (split; [reflexivity|]). simpl.
    split; [intros Hv; by rewrite (reread_valid _ Hv)|].
    intros Hv. by rewrite (reread_valid _ Hv).
  - intros Hlate.
    by replace (tParse <? NewNumericDate (now + ttl)) with false
      by (symmetry; apply Z.ltb_ge; lia).
Qed.

(** *** The login handler *)

(** X21.  The login handler of the go-zero starter.  A token is handed
    out only for the user name "admin" with the password "password"; every
    other parsed request is answered 401 "authentication failed", and the
    branch for a signing failure is never taken.  For a configured lifetime
    of [TTL] seconds that fits a duration, the reply carries a token for
    user-123 signed under the configured secret, and the lifetime it
    announces, [ExpiresIn], is [TTL]: exactly the distance between the
    expiry and the issue time stamped into the token. *)
Theorem LoginHandler_reply cfg now parsed :
  let reply := gozerostarter.LoginHandler hmac encode cfg now parsed in
  (forall resp, reply = gozerostarter.OkJson resp ->
     exists req, parsed = Some req /\
       gozerostarter.Username req = "admin" /\
       gozerostarter.Password req = "password" /\
       gozerostarter.UserID resp = "user-123" /\
       gozerostarter.ResponseUsername resp = "admin" /\
       gozerostarter.TokenType resp = "Bearer") /\
  (forall req, parsed = Some req ->
     gozerostarter.Username req <> "admin" \/ gozerostarter.Password req <> "password" ->
     reply = gozerostarter.WriteJson http.StatusUnauthorized
               {[ "error" := "authentication failed";
                  "message" := "invalid username or password" ]}) /\
  (forall err, reply <> gozerostarter.Error err) /\
  (forall req, parsed = Some req ->
     gozerostarter.Username req = "admin" -> gozerostarter.Password req = "password" ->
     0 <= gozerostarter.TTL cfg ->
     gozerostarter.TTL cfg * time.Second <= time.MaxInt64 ->
     exists resp p iat exp,
       reply = gozerostarter.OkJson resp /\
       gozerostarter.AccessToken resp = Compact p /\
       signature_verifies hmac (gozerostarter.Secret cfg) (Compact p) = true /\
       UserID (payload p) = "user-123" /\ Username (payload p) = "admin" /\
       IssuedAt (Registered (payload p)) = Some iat /\
       ExpiresAt (Registered (payload p)) = Some exp /\
       gozerostarter.ExpiresIn resp = gozerostarter.TTL cfg /\
       exp - iat = gozerostarter.ExpiresIn resp * time.Second).
Proof.
  intros reply. subst reply. unfold gozerostarter.LoginHandler.
  destruct parsed as [req|]; [|by repeat split].
  destruct (String.eqb_spec (gozerostarter.Username req) "admin") as [Hu|Hu];
    destruct (String.eqb_spec (gozerostarter.Password req) "password") as [Hp|Hp];
    simpl.
  2-4: split; [done|]; split; [by intros ? [= <-]|]; split; [done|];
       by intros ? [= <-] ? ?.
  split; [|split; [|split]].
  - intros resp [= <-]. exists req. by rewrite Hu.
  - intros ? [= <-] [?|?]; done.
  - done.
  - intros ? [= <-] _ _ Hpos Hfit.
    rewrite wrap64_small by (unfold time.MinInt64, time.MaxInt64 in *;
                             change time.Second with 1000000000 in *; lia).
    rewrite Seconds_whole by (unfold time.MinInt64, time.MaxInt64 in *;
                              change time.Second with 1000000000 in *; lia).
    rewrite Hu. eexists _, _, _, _. split; [reflexivity|]. simpl.
    split; [reflexivity|]. split; [apply String.eqb_refl|].
    do 5 (split; [reflexivity|]).
    rewrite !reread_date_whole, NewNumericDate_add_whole. lia.
Qed.

End AdapterProperties.

(** *** The adapter properties at a concrete request *)

Module AdapterExamples.

Import jwt auth iface ctxvalue.

(** GET /profile with the issued token, at the instant of issue. *)
Lemma gin_AuthMiddleware_agrees_witness :
  let c := gin.mkContext "/profile" samples.bearer ∅ false [] in
  let r := gozero.mkRequest "/profile" samples.bearer [] in
  let pending := fun c : gin.Context => c in
  let next := fun (w : list gozero.WriterCall) (_ : gozero.Request) => w in
  let gout := gin.AuthMiddleware scenario.toy_hmac samples.toy_decode
                samples.gin_protected_routes scenario.quarter_past scenario.quarter_past
                pending c in
  let zout := gozero.AuthMiddleware scenario.toy_hmac samples.toy_decode
                samples.protected_routes scenario.quarter_past scenario.quarter_past
                next [] r in
  (gout = pending c /\ zout = next [] r /\
   gin.skips (gin.SkipPaths samples.gin_protected_routes) (gin.RequestPath c) = true) \/
  (exists claims c' r',
     gout = pending c' /\ zout = next [] r' /\
     gin.Aborted c' = false /\ gin.Rendered c' = gin.Rendered c /\
     gin.GetUserID c' = UserID claims /\ gin.GetClaims c' = Some claims /\
     gozero.GetUserID (gozero.Context r') = UserID claims /\
     gozero.GetClaims (gozero.Context r') = Some claims /\
     (forall k, k <> gin.ContextKeyUserID -> k <> gin.ContextKeyClaims ->
                gin.Get c' k = gin.Get c k)) \/
  (exists message,
     gout = gin.Abort (gin.JSON c http.StatusUnauthorized (gin.unauthorized message)) /\
     zout = gozero.writeErrorResponse [] http.StatusUnauthorized "unauthorized" message /\
     gin.Aborted gout = true /\ gin.Keys gout = gin.Keys c).
Proof.
  intros c r pending next.
  apply (gin_AuthMiddleware_agrees scenario.toy_hmac samples.toy_decode
           samples.gin_protected_routes samples.protected_routes
           scenario.quarter_past scenario.quarter_past pending c next [] r);
    reflexivity.
Defined.

Lemma issued_token_opens_protected_route_witness :
  let r := gozero.mkRequest "/profile" samples.bearer [] in
  let next := fun (w : list gozero.WriterCall) (_ : gozero.Request) => w in
  let now := scenario.quarter_past in
  let ttl := 10 * time.Minute in
  let out := gozero.AuthMiddleware scenario.toy_hmac samples.toy_decode
               samples.protected_routes now now next [] r in
  (now <= now <= now -> now <= now + ttl - time.Second ->
     exists r' c,
       out = next [] r' /\
       gozero.GetUserID (gozero.Context r') = UserID c /\
       gozero.GetClaims (gozero.Context r') = Some c /\
       UserID c = json.reread "user-123" /\ Username c = json.reread "admin" /\
       Subject (Registered c) = json.reread "user-123" /\
       (utf8.ValidString "user-123" = true ->
        UserID c = "user-123" /\ Subject (Registered c) = "user-123") /\
       (utf8.ValidString "admin" = true -> Username c = "admin")) /\
  (now + ttl <= now ->
     out = gozero.writeErrorResponse [] http.StatusUnauthorized "unauthorized"
             "token expired").
Proof.
  intros r next now ttl.
  apply (issued_token_opens_protected_route scenario.toy_hmac scenario.toy_encode
           samples.toy_decode samples.protected_routes now now now
           "user-123" "admin" ttl next [] r samples.issued
           "header.payload.signature").
  - reflexivity.
  - discriminate.
  - reflexivity.
  - reflexivity.
  - reflexivity.
Defined.

(** The same request ten minutes later, and one without a header. *)
Example expired_and_missing :
  let next := fun (w : list gozero.WriterCall) (_ : gozero.Request) => w in
  gozero.AuthMiddleware scenario.toy_hmac samples.toy_decode samples.protected_routes
    (scenario.quarter_past + 10 * time.Minute) (scenario.quarter_past + 10 * time.Minute)
    next [] (gozero.mkRequest "/profile" samples.bearer [])
  = gozero.writeErrorResponse [] http.StatusUnauthorized "unauthorized" "token expired" /\
  gozero.AuthMiddleware scenario.toy_hmac samples.toy_decode samples.protected_routes
    scenario.quarter_past scenario.quarter_past
    next [] (gozero.mkRequest "/profile" ∅ [])
  = gozero.writeErrorResponse [] http.StatusUnauthorized "unauthorized"
      "missing authorization header".
Proof. vm_compute. split; reflexivity. Qed.

End AdapterExamples.

(** * Properties of the starter's profile handler *)

Section ProfileProperties.

Import jwt auth iface ctxvalue.

Variable hmac : Hash -> string -> string -> string.
Variable decode : string -> option (Segments Claims).
Variable format : Z -> string.

(** X22.  The profile handler behind the middleware.  For a request on
    a path that is not skipped whose bearer token [ValidateToken] accepts,
    the middleware hands the handler a context in which the claims are
    never missing, so the handler's 500 branch is not taken.  The handler
    answers with the token's user ID, user name and subject and the
    formatted expiry and issue time when the token carries both; when an
    accepted token has no expiry or no issue time, the handler
    dereferences a nil pointer. *)
Theorem ProfileHandler_behind_middleware config tParse tCheck next w r token claims :
  gozero.skips (gozero.SkipPaths config) (gozero.URLPath r) = false ->
  http.Header_Get (gozero.Header r) "Authorization" = "Bearer " +:+ token ->
  wire.ValidateToken hmac decode tParse tCheck token (gozero.Secret config) = Ok claims ->
  exists r',
    gozero.AuthMiddleware hmac decode config tParse tCheck next w r = next w r' /\
    gozerostarter.ProfileHandler format (gozero.Context r') =
      match ExpiresAt (Registered claims), IssuedAt (Registered claims) with
      | Some exp, Some iat =>
          gozerostarter.ProfileOk
            (gozerostarter.mkProfileResponse (UserID claims) (Username claims)
               (Subject (Registered claims)) (format exp) (format iat))
      | _, _ => gozerostarter.NilDereference
      end /\
    (forall code body,
       gozerostarter.ProfileHandler format (gozero.Context r')
         <> gozerostarter.ProfileError code body).
Proof.
  intros Hskip Hh Hv.
  assert (token <> "") as Hne.
  { intros ->. revert Hv. unfold wire.ValidateToken, wire.read. by simpl. }
  unfold gozero.AuthMiddleware. rewrite Hskip, Hh, TrimPrefix_append.
  rewrite (proj2 (HasPrefix_spec _ _)) by eauto.
  rewrite (proj2 (String.eqb_neq token "") Hne).
  replace (("Bearer " +:+ token =? "")%string) with false by (by destruct token).
  simpl. rewrite Hv. eexists. split; [reflexivity|].
  unfold gozerostarter.ProfileHandler. simpl.
  destruct (ExpiresAt (Registered claims)), (IssuedAt (Registered claims)); by split.
Qed.

End ProfileProperties.

Module ProfileExamples.

Import jwt auth.

(** A token without expiry, signed under the secret. *)
Lemma ProfileHandler_behind_middleware_witness :
  let decode := fun text : string =>
    if String.eqb text "no-exp" then Some (scenario.signed "test-secret" scenario.undated)
    else None in
  let r := gozero.mkRequest "/profile" {[ "Authorization" := ["Bearer no-exp"] ]} [] in
  let next := fun (w : list gozero.WriterCall) (_ : gozero.Request) => w in
  let format := fun t : Z => pretty t in
  let claims := scenario.undated in
  exists r',
    gozero.AuthMiddleware scenario.toy_hmac decode samples.protected_routes
      scenario.quarter_past scenario.quarter_past next [] r = next [] r' /\
    gozerostarter.ProfileHandler format (gozero.Context r') =
      match ExpiresAt (Registered claims), IssuedAt (Registered claims) with
      | Some exp, Some iat =>
          gozerostarter.ProfileOk
            (gozerostarter.mkProfileResponse (UserID claims) (Username claims)
               (Subject (Registered claims)) (format exp) (format iat))
      | _, _ => gozerostarter.NilDereference
      end /\
    (forall code body,
       gozerostarter.ProfileHandler format (gozero.Context r')
         <> gozerostarter.ProfileError code body).
Proof.
  intros decode r next format claims.
  apply (ProfileHandler_behind_middleware scenario.toy_hmac decode format
           samples.protected_routes scenario.quarter_past scenario.quarter_past
           next [] r "no-exp" claims); reflexivity.
Defined.

End ProfileExamples.

(** * Properties of the utilities *)

Section UtilsProperties.

Lemma substring_length s : forall n m,
  (n + m <= String.length s)%nat -> String.length (substring n m s) = m.
Proof.
  induction s as [|a s IH]; intros [|n] [|m] H; simpl in *; try done; try lia.
  - f_equal. apply (IH 0%nat). lia.
  - apply IH. lia.
  - apply IH. lia.
Qed.

Lemma substring_nil n m : substring n m "" = "".
Proof. by destruct n, m. Qed.

Lemma substring_substring s : forall n l k m,
  (k + m <= l)%nat -> substring k m (substring n l s) = substring (n + k) m s.
Proof.
  induction s as [|c s IH]; intros n l k m H.
  - by rewrite !substring_nil.
  - destruct n as [|n]; [|apply IH; lia].
    destruct l as [|l].
    + assert (k = 0%nat) as -> by lia. assert (m = 0%nat) as -> by lia. done.
    + destruct k as [|k]; simpl.
      * destruct m as [|m]; [done|]. f_equal. apply (IH 0%nat). lia.
      * apply (IH 0%nat). lia.
Qed.

Lemma Repeat_length s n :
  String.length (strings.Repeat s n) = (n * String.length s)%nat.
Proof. induction n as [|n IH]; simpl; [done|]. by rewrite length_append, IH. Qed.

Lemma Repeat_star n :
  Forall (fun c => c = "*"%char) (list_ascii_of_string (strings.Repeat "*" n)).
Proof. induction n as [|n IH]; simpl; [constructor|]. by constructor. Qed.

(** X23.  [MaskSensitive] keeps the length and shows at most eight
    bytes.  The output is as long as the input.  An input of up to eight
    bytes is masked entirely.  A longer input keeps its first four and its
    last four bytes and has every byte between them replaced by a star: of
    a nine-byte secret all but one byte is shown. *)
Theorem MaskSensitive_shape input :
  let out := utils.MaskSensitive input in
  String.length out = String.length input /\
  ((String.length input <= 8)%nat ->
     Forall (fun c => c = "*"%char) (list_ascii_of_string out)) /\
  ((8 < String.length input)%nat ->
     exists first middle last,
       input = first +:+ middle +:+ last /\
       String.length first = 4%nat /\ String.length last = 4%nat /\
       out = first +:+ strings.Repeat "*" (String.length middle) +:+ last).
Proof.
  unfold utils.MaskSensitive.
  destruct (Nat.leb_spec (String.length input) 8) as [Hle|Hgt].
  - split; [|split; [|lia]].
    + rewrite Repeat_length. simpl. lia.
    + intros _. apply Repeat_star.
  - set (n := String.length input) in *.
    pose proof (substring_split input 4 ltac:(lia)) as H1. fold n in H1.
    pose proof (substring_split (substring 4 (n - 4) input) (n - 8)) as H2.
    rewrite substring_length in H2 by lia.
    specialize (H2 ltac:(lia)).
    replace (n - 4 - (n - 8))%nat with 4%nat in H2 by lia.
    assert (substring (n - 8) 4 (substring 4 (n - 4) input) = substring (n - 4) 4 input)
      as Hlast.
    { rewrite substring_substring by lia. f_equal. lia. }
    split; [|split; [lia|]].
    + rewrite !length_append, Repeat_length, !substring_length by lia. simpl. lia.
    + intros _.
      exists (substring 0 4 input), (substring 0 (n - 8) (substring 4 (n - 4) input)),
        (substring (n - 4) 4 input).
      rewrite !substring_length by (rewrite ?substring_length; lia).
      split; [|split; [done|split; [done|done]]].
      rewrite <- Hlast, <- H2. exact H1.
Qed.

(** X24.  [Truncate] and its slice bound.  For every string and every
    limit from which three can be subtracted in an [int]: [Truncate] panics
    exactly when the string is longer than the limit and the limit is below
    three, since the slice bound [maxLength-3] is then negative.  When it
    returns, a string within the limit comes back unchanged, and a longer
    one comes back as its first [maxLength-3] bytes followed by three dots,
    which is exactly [maxLength] bytes long. *)
Theorem Truncate_shape s maxLength :
  time.MinInt64 + 3 <= maxLength <= time.MaxInt64 ->
  let len := Z.of_nat (String.length s) in
  (utils.Truncate s maxLength = utils.Panicked <-> maxLength < len /\ maxLength < 3) /\
  (len <= maxLength -> utils.Truncate s maxLength = utils.Returned s) /\
  (maxLength < len -> 3 <= maxLength ->
     exists kept rest,
       s = kept +:+ rest /\
       Z.of_nat (String.length kept) = maxLength - 3 /\
       utils.Truncate s maxLength = utils.Returned (kept +:+ "...") /\
       Z.of_nat (String.length (kept +:+ "...")) = maxLength).
Proof.
  intros Hint len. unfold utils.Truncate. fold len.
  destruct (Z.leb_spec len maxLength) as [Hle|Hgt].
  { split; [split; [done|lia]|]. split; [done|lia]. }
  rewrite wrap64_small by (unfold time.MinInt64, time.MaxInt64 in *; lia).
  destruct (Z.lt_ge_cases maxLength 3) as [Hsmall|Hbig].
  - replace (maxLength - 3 <? 0) with true by (symmetry; apply Z.ltb_lt; lia).
    simpl. split; [split; [intros _; lia|done]|]. split; lia.
  - replace ((maxLength - 3 <? 0) || (len <? maxLength - 3)) with false
      by (symmetry; apply orb_false_iff; split; apply Z.ltb_ge; lia).
    split; [split; [done|lia]|]. split; [lia|]. intros _ _.
    pose proof (substring_split s (Z.to_nat (maxLength - 3)) ltac:(lia)) as Hsplit.
    eexists _, _. split; [exact Hsplit|].
    assert (String.length (substring 0 (Z.to_nat (maxLength - 3)) s)
            = Z.to_nat (maxLength - 3)) as Hk by (apply substring_length; lia).
    split; [lia|]. split; [done|].
    rewrite length_append, Hk. simpl. lia.
Qed.

Lemma Truncate_shape_witness :
  let s := "hello world" in
  let maxLength := 8 in
  let len := Z.of_nat (String.length s) in
  (utils.Truncate s maxLength = utils.Panicked <-> maxLength < len /\ maxLength < 3) /\
  (len <= maxLength -> utils.Truncate s maxLength = utils.Returned s) /\
  (maxLength < len -> 3 <= maxLength ->
     exists kept rest,
       s = kept +:+ rest /\
       Z.of_nat (String.length kept) = maxLength - 3 /\
       utils.Truncate s maxLength = utils.Returned (kept +:+ "...") /\
       Z.of_nat (String.length (kept +:+ "...")) = maxLength).
Proof.
  intros s maxLength.
  apply (Truncate_shape s maxLength). time_lia.
Defined.

(** The package's own table, and a limit of two. *)
Example Truncate_table :
  utils.Truncate "hello world" 8 = utils.Returned "hello..." /\
  utils.Truncate "hello" 3 = utils.Returned "..." /\
  utils.Truncate "hello" 2 = utils.Panicked /\
  utils.Truncate "hello" (-1) = utils.Panicked.
Proof. vm_compute. repeat split. Qed.

(** The first [n] characters of the hex text come from the first
    [(n + 1) / 2] bytes. *)
Lemma EncodeToString_prefix bs : forall n,
  substring 0 n (hex.EncodeToString bs) =
  substring 0 n (hex.EncodeToString (take ((n + 1) / 2) bs)).
Proof.
  induction bs as [|b bs IH]; intros n.
  - by rewrite take_nil.
  - destruct n as [|[|n]]; [done|done|].
    replace ((S (S n) + 1) / 2)%nat with (S ((n + 1) / 2)).
    2:{ replace (S (S n) + 1)%nat with (n + 1 + 1 * 2)%nat by lia.
        rewrite Nat.div_add by lia. lia. }
    simpl. do 2 f_equal. apply IH.
Qed.

Lemma substring_hex n s :
  Forall (fun c => In c (list_ascii_of_string "0123456789abcdef"))
    (list_ascii_of_string s) ->
  Forall (fun c => In c (list_ascii_of_string "0123456789abcdef"))
    (list_ascii_of_string (substring 0 n s)).
Proof.
  revert n. induction s as [|a s IH]; intros [|n] H;
    cbn [substring list_ascii_of_string]; [constructor..|].
  inversion H as [|?? Ha Hs]; subst. constructor; [exact Ha|by apply IH].
Qed.

(** X25.  [GenerateRandomString].  It panics exactly when a slice cannot
    be made: for a negative length, for a length beyond the allocation
    limit, and, when the random source delivers, for a length beyond half
    the limit, which [hex.EncodeToString] cannot double.  It returns the
    error of the source exactly when the source fails and the first slice
    can be made, and a string in every other case.  The string has exactly
    [length] characters, all lower-case hexadecimal.  The source is asked
    for [length] bytes but only the first [(length + 1) / 2] of them reach
    the result: two runs whose random bytes agree that far end alike.  The
    trace ID is the word trace, a dash, the clock in decimal, a dash and
    such a string of 16 characters, or nothing after the dash when the
    source fails. *)
Theorem GenerateRandomString_shape rand length :
  (utils.GenerateRandomString rand length = utils.Panicked <->
     length < 0 \/ utils.maxAlloc < length \/
     (is_Some rand /\ utils.maxAlloc < 2 * length)) /\
  (utils.GenerateRandomString rand length = utils.Returned (Err tt) <->
     rand = None /\ 0 <= length <= utils.maxAlloc) /\
  (is_Some rand -> 0 <= 2 * length <= utils.maxAlloc ->
     exists s, utils.GenerateRandomString rand length = utils.Returned (Ok s)) /\
  (forall s, utils.GenerateRandomString rand length = utils.Returned (Ok s) ->
     Z.of_nat (String.length s) = length /\
     Forall (fun c => In c (list_ascii_of_string "0123456789abcdef"))
       (list_ascii_of_string s)) /\
  (forall bs bs',
     let used := ((Z.to_nat length + 1) / 2)%nat in
     (used <= List.length bs)%nat -> (used <= List.length bs')%nat ->
     take used bs = take used bs' ->
     utils.GenerateRandomString (Some bs) length =
     utils.GenerateRandomString (Some bs') length) /\
  (forall now,
     exists id,
       utils.GenerateTraceID rand now = "trace-" +:+ pretty now +:+ "-" +:+ id /\
       match rand with
       | Some _ => String.length id = 16%nat
       | None => id = ""
       end).
Proof.
  assert (forall z, utils.make_panics z = true <-> z < 0 \/ utils.maxAlloc < z) as Hmk.
  { intros z. unfold utils.make_panics. rewrite orb_true_iff, !Z.ltb_lt. done. }
  assert (forall z, utils.make_panics z = false <-> 0 <= z <= utils.maxAlloc) as Hmk'.
  { intros z. unfold utils.make_panics. rewrite orb_false_iff, !Z.ltb_ge. done. }
  unfold utils.GenerateRandomString.
  split; [|split; [|split; [|split; [|split]]]].
  - destruct (utils.make_panics length) eqn:H1.
    { apply Hmk in H1. split; [intros _|done]. destruct H1; auto. }
    apply Hmk' in H1. destruct rand as [bs|].
    + destruct (utils.make_panics (2 * length)) eqn:H2.
      * apply Hmk in H2. split; [intros _|done].
        right. right. split; [done|lia].
      * apply Hmk' in H2. split; [done|]. intros [?|[?|[_ ?]]]; lia.
    + split; [done|]. intros [?|[?|[[? [=]] _]]]; lia.
  - destruct (utils.make_panics length) eqn:H1.
    { apply Hmk in H1. split; [done|]. intros [_ ?]. lia. }
    apply Hmk' in H1. destruct rand as [bs|]; [|done].
    destruct (utils.make_panics (2 * length)); (split; [done|by intros [[=] _]]).
  - intros [bs ->] Hfit.
    replace (utils.make_panics length) with false by (symmetry; apply Hmk'; lia).
    replace (utils.make_panics (2 * length)) with false by (symmetry; by apply Hmk').
    eauto.
  - intros s. destruct (utils.make_panics length) eqn:H1; [done|].
    apply Hmk' in H1.
    destruct rand as [bs|]; [|done].
    destruct (utils.make_panics (2 * length)); [done|].
    intros [= <-]. split.
    + rewrite substring_length; [lia|].
      rewrite EncodeToString_length, length_take, length_app, length_replicate. lia.
    + apply substring_hex, EncodeToString_hex.
  - intros bs bs'. set (used := ((Z.to_nat length + 1) / 2)%nat).
    intros Hbs Hbs' Heq.
    destruct (utils.make_panics length) eqn:H1; [done|]. apply Hmk' in H1.
    destruct (utils.make_panics (2 * length)); [done|].
    do 2 f_equal.
    rewrite (EncodeToString_prefix (take _ (bs ++ _)%list)),
      (EncodeToString_prefix (take _ (bs' ++ _)%list)).
    fold used. do 2 f_equal.
    assert (used <= Z.to_nat length)%nat as Hu.
    { assert (used < Z.to_nat length + 1)%nat; [|lia].
      unfold used. apply Nat.Div0.div_lt_upper_bound. lia. }
    rewrite !take_take, !Nat.min_l by lia.
    by rewrite !take_app_le by lia.
  - intros now. unfold utils.GenerateTraceID, utils.GenerateRandomString.
    change (utils.make_panics 16) with false.
    change (utils.make_panics (2 * 16)) with false. cbv iota.
    destruct rand as [bs|]; [|by exists ""].
    eexists. split; [reflexivity|].
    change (Z.to_nat 16) with 16%nat.
    rewrite substring_length; [done|].
    rewrite EncodeToString_length, length_take, length_app, length_replicate. lia.
Qed.

(** The limits of [make]: one byte too many for the first slice, and one
    too many for the second when the source delivers. *)
Example GenerateRandomString_limits :
  utils.GenerateRandomString None (utils.maxAlloc + 1) = utils.Panicked /\
  utils.GenerateRandomString None utils.maxAlloc = utils.Returned (Err tt) /\
  utils.GenerateRandomString (Some []) (utils.maxAlloc / 2 + 1) = utils.Panicked /\
  utils.GenerateRandomString (Some []) (-1) = utils.Panicked /\
  utils.GenerateRandomString (Some [Byte.xab]) 3 = utils.Returned (Ok "ab0").
Proof. repeat split. Qed.

Lemma wrap64_range z : time.MinInt64 <= time.wrap64 z <= time.MaxInt64.
Proof.
  unfold time.wrap64, time.MinInt64, time.MaxInt64.
  pose proof (Z.mod_pos_bound (z + 2 ^ 63) (2 ^ 64) ltac:(lia)). lia.
Qed.

(** X26.  The duration helpers and the end of int64.  For an [int]
    argument, [Minutes], [Hours] and [Days] return the exact product
    precisely when it fits a Duration: up to 153722867 minutes, 2562047
    hours and 106751 days in either direction.  Beyond that the product
    wraps around, and the result is still a Duration but not the one asked
    for. *)
Theorem duration_helpers_exact n :
  time.MinInt64 <= n <= time.MaxInt64 ->
  (utils.Minutes n = n * time.Minute <-> -153722867 <= n <= 153722867) /\
  (utils.Hours n = n * time.Hour <-> -2562047 <= n <= 2562047) /\
  (utils.Days n = n * 24 * time.Hour <-> -106751 <= n <= 106751) /\
  (-106751 <= n <= 106751 -> utils.Days n = utils.Hours (24 * n)) /\
  (-2562047 <= n <= 2562047 -> utils.Hours n = utils.Minutes (60 * n)).
Proof.
  intros Hn. unfold utils.Minutes, utils.Hours, utils.Days.
  pose proof (wrap64_range (n * time.Minute)) as Hm.
  pose proof (wrap64_range (n * time.Hour)) as Hh.
  pose proof (wrap64_range (time.wrap64 (n * 24) * time.Hour)) as Hd.
  unfold time.MinInt64, time.MaxInt64 in *.
  change time.Hour with 3600000000000 in *.
  change time.Minute with 60000000000 in *.
  change (2 ^ 63) with 9223372036854775808 in *.
  assert (forall z, -9223372036854775808 <= z <= 9223372036854775808 - 1 ->
                    time.wrap64 z = z) as Hsmall.
  { intros z Hz. apply wrap64_small. unfold time.MinInt64, time.MaxInt64.
    change (2 ^ 63) with 9223372036854775808. lia. }
  split; [|split; [|split; [|split]]].
  - split; [intros He; rewrite He in Hm; lia|intros ?; apply Hsmall; lia].
  - split; [intros He; rewrite He in Hh; lia|intros ?; apply Hsmall; lia].
  - split; [intros He; rewrite He in Hd; lia|].
    intros ?. rewrite (Hsmall (n * 24)) by lia. apply Hsmall. lia.
  - intros ?. rewrite (Hsmall (n * 24)) by lia. f_equal. lia.
  - intros ?. f_equal. lia.
Qed.

Lemma duration_helpers_exact_witness :
  (utils.Minutes 106752 = 106752 * time.Minute <-> -153722867 <= 106752 <= 153722867) /\
  (utils.Hours 106752 = 106752 * time.Hour <-> -2562047 <= 106752 <= 2562047) /\
  (utils.Days 106752 = 106752 * 24 * time.Hour <-> -106751 <= 106752 <= 106751) /\
  (-106751 <= 106752 <= 106751 -> utils.Days 106752 = utils.Hours (24 * 106752)) /\
  (-2562047 <= 106752 <= 2562047 -> utils.Hours 106752 = utils.Minutes (60 * 106752)).
Proof.
  apply (duration_helpers_exact 106752). time_lia.
Defined.

(** One day too many. *)
Example Days_wraps_around :
  utils.Days 106751 = 106751 * 24 * time.Hour /\
  utils.Days 106752 = -9223371273709551616.
Proof. vm_compute. split; reflexivity. Qed.

End UtilsProperties.
